(** * graphqllib: the lexer and the validation framework

    A shallow embedding of [graphql/core/language/lexer.py] and
    [graphql/core/validation/__init__.py], with the properties of the
    specification stated over it.

    Conventions.
    - A Python unicode string is the list of its code points ([str]).
    - Offsets into a source are natural numbers: the cursor of a [Lexer]
      starts at 0 and is only ever set to the end of a token.
    - A Python [while] loop is a function recursive on a fuel argument; a
      loop that uses up its fuel yields [OutOfFuel], an outcome distinct
      from every Python outcome, and the totality lemmas show that it is
      never reached with the fuel the callers pass. *)

From Stdlib Require Import ZArith List Bool Lia.
From stdpp Require Import base option list gmap strings.
Import ListNotations.

Local Open Scope Z_scope.

(* ===================================================================== *)
(** * Part I: the lexer                                                   *)
(* ===================================================================== *)

Module Lexer.

(** [class TokenKind]: the closed enumeration of the 19 kinds. *)
Inductive TokenKind : Set :=
| EOF | BANG | DOLLAR | PAREN_L | PAREN_R | SPREAD | COLON | EQUALS | AT
| BRACKET_L | BRACKET_R | BRACE_L | PIPE | BRACE_R
| NAME | VARIABLE | INT | FLOAT | STRING.

Definition TokenKind_eqb (a b : TokenKind) : bool :=
  match a, b with
  | EOF, EOF | BANG, BANG | DOLLAR, DOLLAR | PAREN_L, PAREN_L
  | PAREN_R, PAREN_R | SPREAD, SPREAD | COLON, COLON | EQUALS, EQUALS
  | AT, AT | BRACKET_L, BRACKET_L | BRACKET_R, BRACKET_R
  | BRACE_L, BRACE_L | PIPE, PIPE | BRACE_R, BRACE_R | NAME, NAME
  | VARIABLE, VARIABLE | INT, INT | FLOAT, FLOAT | STRING, STRING => true
  | _, _ => false
  end.

(** A Python unicode string. *)
Definition str : Type := list Z.

(** [class Token]: [value] is [None] unless given. *)
Record Token : Type := mkToken {
  kind : TokenKind;
  start : nat;
  end_ : nat;
  value : option str
}.

(** Modelled from the spec: the [Source] class ([language.source], not
    part of these sources) is an immutable text with an identity for
    diagnostics; the lexer only reads [source.body]. *)
Record Source : Type := mkSource {
  body : str;
  name : str
}.

(** The message of a [LanguageError].  The only formatted message,
    [u'Unexpected character {}'.format(json.dumps(body[position]))], is
    kept as the offending code point. *)
Inductive Message : Set :=
| Unexpected_character (c : Z)
| Invalid_number
| Bad_character_escape_sequence
| Unterminated_string.

(** Modelled from the spec: [LanguageError] ([language.error], not part
    of these sources) carries the source, the offset and the message it
    is raised with. *)
Record LanguageError : Type := mkLanguageError {
  err_source : Source;
  err_position : nat;
  err_message : Message
}.

(** Outcome of a call: a returned value, a raised [LanguageError], or a
    loop cut off by the fuel of the model. *)
Inductive result (A : Type) : Type :=
| Ok (a : A)
| Raise (e : LanguageError)
| OutOfFuel.
Arguments Ok {A} a.
Arguments Raise {A} e.
Arguments OutOfFuel {A}.

Definition bind {A B : Type} (r : result A) (k : A -> result B) : result B :=
  match r with
  | Ok a => k a
  | Raise e => Raise e
  | OutOfFuel => OutOfFuel
  end.

Notation "'let*' x ':=' e 'in' k" := (bind e (fun x => k))
  (at level 10, x pattern, e at level 200, k at level 200).

(** [dict.get] on a dict written as a literal: keys are distinct, the
    first (only) entry with the key is found. *)
Fixpoint dict_get {V : Type} (d : list (Z * V)) (k : Z) : option V :=
  match d with
  | [] => None
  | (k', v) :: d' => if k' =? k then Some v else dict_get d' k
  end.

(** [def char_code_at(s, pos)]: [0 <= pos] holds of every offset. *)
Definition char_code_at (s : str) (pos : nat) : Z :=
  if (pos <? length s)%nat then nth pos s 0 else 0.

(** The slice [s[i:j]] for offsets [i], [j >= 0]. *)
Definition slice (s : str) (i j : nat) : str := firstn (j - i) (skipn i s).

Definition PUNCT_CODE_TO_KIND : list (Z * TokenKind) :=
  [ (33, BANG); (36, DOLLAR); (40, PAREN_L); (41, PAREN_R); (58, COLON);
    (61, EQUALS); (64, AT); (91, BRACKET_L); (93, BRACKET_R);
    (123, BRACE_L); (124, PIPE); (125, BRACE_R) ].

(** [48 <= code <= 57]. *)
Definition is_digit (code : Z) : bool := (48 <=? code) && (code <=? 57).

(* --------------------------------------------------------------------- *)
(** ** [position_after_whitespace]                                        *)
(* --------------------------------------------------------------------- *)

(** [code in (32, 44, 160, 0x2028, 0x2029) or (code > 8 and code < 14)]. *)
Definition is_whitespace (code : Z) : bool :=
  (code =? 32) || (code =? 44) || (code =? 160) || (code =? 0x2028)
  || (code =? 0x2029) || ((8 <? code) && (code <? 14)).

(** [not code or code in (10, 13, 0x2028, 0x2029)]. *)
Definition ends_comment (code : Z) : bool :=
  (code =? 0) || (code =? 10) || (code =? 13) || (code =? 0x2028)
  || (code =? 0x2029).

(** The inner loop, which skips the text of a comment. *)
Fixpoint comment_loop (fuel : nat) (body : str) (position : nat) : result nat :=
  match fuel with
  | O => OutOfFuel
  | S fuel' =>
      if (position <? length body)%nat then
        let code := char_code_at body position in
        if ends_comment code then Ok position
        else comment_loop fuel' body (position + 1)
      else Ok position
  end.

(** The outer loop. *)
Fixpoint whitespace_loop (fuel : nat) (body : str) (position : nat) : result nat :=
  match fuel with
  | O => OutOfFuel
  | S fuel' =>
      if (position <? length body)%nat then
        let code := char_code_at body position in
        if is_whitespace code then whitespace_loop fuel' body (position + 1)
        else if code =? 35 then
          let* position := comment_loop (S (length body)) body (position + 1) in
          whitespace_loop fuel' body position
        else Ok position
      else Ok position
  end.

Definition position_after_whitespace (body : str) (start_position : nat)
  : result nat :=
  whitespace_loop (S (length body)) body start_position.

(* --------------------------------------------------------------------- *)
(** ** [read_number]                                                      *)
(* --------------------------------------------------------------------- *)

(** [while 48 <= code <= 57: position += 1; code = char_code_at(..)]. *)
Fixpoint digits_loop (fuel : nat) (body : str) (position : nat) (code : Z)
  : result (nat * Z) :=
  match fuel with
  | O => OutOfFuel
  | S fuel' =>
      if is_digit code then
        digits_loop fuel' body (position + 1) (char_code_at body (position + 1))
      else Ok (position, code)
  end.

(** [position += 1; code = char_code_at(body, position)] followed by the
    digit loop: the text shared by the three places that read digits. *)
Definition digits (body : str) (position : nat) : result (nat * Z) :=
  let position := (position + 1)%nat in
  let code := char_code_at body position in
  digits_loop (S (length body)) body position code.

Definition read_number (source : Source) (start : nat) (first_code : Z)
  : result Token :=
  let code := first_code in
  let body := body source in
  let position := start in
  let '(position, code) :=
    if code =? 45 then ((position + 1)%nat, char_code_at body (position + 1))
    else (position, code) in
  let* (position, code) :=
    if code =? 48 then
      Ok ((position + 1)%nat, char_code_at body (position + 1))
    else if (49 <=? code) && (code <=? 57) then digits body position
    else Raise (mkLanguageError source position Invalid_number) in
  let* (is_float, position) :=
    if code =? 46 then
      let position := (position + 1)%nat in
      let code := char_code_at body position in
      let* (position, code) :=
        if is_digit code then digits body position
        else Raise (mkLanguageError source position Invalid_number) in
      let* (position, code) :=
        if code =? 101 then
          let position := (position + 1)%nat in
          let code := char_code_at body position in
          let '(position, code) :=
            if code =? 45 then
              ((position + 1)%nat, char_code_at body (position + 1))
            else (position, code) in
          if is_digit code then digits body position
          else Raise (mkLanguageError source position Invalid_number)
        else Ok (position, code) in
      Ok (true, position)
    else Ok (false, position) in
  Ok (mkToken (if is_float : bool then FLOAT else INT) start position
        (Some (slice body start position))).

(* --------------------------------------------------------------------- *)
(** ** [read_string]                                                      *)
(* --------------------------------------------------------------------- *)

(** [ESCAPED_CHAR_CODES]: the code of the character after the backslash,
    mapped to the one-character string it stands for. *)
Definition ESCAPED_CHAR_CODES : list (Z * str) :=
  [ (34, [34]); (47, [47]); (92, [92]); (98, [8]); (102, [12]);
    (110, [10]); (114, [13]); (116, [9]) ].

(** [def char2hex(a)]. *)
Definition char2hex (a : Z) : Z :=
  if (48 <=? a) && (a <=? 57) then a - 48
  else if (65 <=? a) && (a <=? 70) then a - 55
  else if (97 <=? a) && (a <=? 102) then a - 87
  else -1.

(** [def uni_char_code(a, b, c, d)]: Python's [<<] and [|] on unbounded
    integers are [Z.shiftl] and [Z.lor]. *)
Definition uni_char_code (a b c d : Z) : Z :=
  Z.lor (Z.lor (Z.lor (Z.shiftl (char2hex a) 12) (Z.shiftl (char2hex b) 8))
           (Z.shiftl (char2hex c) 4)) (char2hex d).

(** [unichr(char_code)] ([compat]): the one-character string of that
    code point. *)
Definition unichr (char_code : Z) : str := [char_code].

(** [not code or code in (34, 10, 13, 0x2028, 0x2029)]. *)
Definition ends_string (code : Z) : bool :=
  (code =? 0) || (code =? 34) || (code =? 10) || (code =? 13)
  || (code =? 0x2028) || (code =? 0x2029).

(** The variables the loop of [read_string] updates.  [code] is [None]
    until the loop body has run once, as in the source. *)
Record string_state : Type := mkStringState {
  ss_position : nat;
  ss_chunk_start : nat;
  ss_code : option Z;
  ss_value : str
}.

Fixpoint string_loop (fuel : nat) (source : Source) (st : string_state)
  : result string_state :=
  match fuel with
  | O => OutOfFuel
  | S fuel' =>
      let body := body source in
      let position := ss_position st in
      let chunk_start := ss_chunk_start st in
      let value := ss_value st in
      if (position <? length body)%nat then
        let code := char_code_at body position in
        if ends_string code then
          Ok (mkStringState position chunk_start (Some code) value)
        else
          let position := (position + 1)%nat in
          if code =? 92 then
            let value := value ++ slice body chunk_start (position - 1) in
            let code := char_code_at body position in
            match dict_get ESCAPED_CHAR_CODES code with
            | Some escaped =>
                let value := value ++ escaped in
                let position := (position + 1)%nat in
                string_loop fuel' source
                  (mkStringState position position (Some code) value)
            | None =>
                if code =? 117 then
                  let char_code :=
                    uni_char_code (char_code_at body (position + 1))
                      (char_code_at body (position + 2))
                      (char_code_at body (position + 3))
                      (char_code_at body (position + 4)) in
                  if char_code <? 0 then
                    Raise (mkLanguageError source position
                             Bad_character_escape_sequence)
                  else
                    let value := value ++ unichr char_code in
                    let position := (position + 4)%nat in
                    let position := (position + 1)%nat in
                    string_loop fuel' source
                      (mkStringState position position (Some code) value)
                else
                  Raise (mkLanguageError source position
                           Bad_character_escape_sequence)
            end
          else
            string_loop fuel' source
              (mkStringState position chunk_start (Some code) value)
      else Ok st
  end.

Definition read_string (source : Source) (start : nat) : result Token :=
  let body := body source in
  let position := (start + 1)%nat in
  let chunk_start := position in
  let* st := string_loop (S (length body)) source
               (mkStringState position chunk_start None []) in
  let position := ss_position st in
  if negb (match ss_code st with Some c => c =? 34 | None => false end) then
    Raise (mkLanguageError source position Unterminated_string)
  else
    let value := ss_value st ++ slice body (ss_chunk_start st) position in
    Ok (mkToken STRING start (position + 1) (Some value)).

(* --------------------------------------------------------------------- *)
(** ** [read_name]                                                        *)
(* --------------------------------------------------------------------- *)

(** [code == 95 or 48 <= code <= 57 or 65 <= code <= 90 or
    97 <= code <= 122]. *)
Definition is_name_char (code : Z) : bool :=
  (code =? 95) || ((48 <=? code) && (code <=? 57))
  || ((65 <=? code) && (code <=? 90)) || ((97 <=? code) && (code <=? 122)).

Fixpoint name_loop (fuel : nat) (body : str) (end' : nat) : result nat :=
  match fuel with
  | O => OutOfFuel
  | S fuel' =>
      if negb (end' =? length body)%nat then
        let code := char_code_at body end' in
        if (code =? 0) || negb (is_name_char code) then Ok end'
        else name_loop fuel' body (end' + 1)
      else Ok end'
  end.

Definition read_name (source : Source) (position : nat) : result Token :=
  let body := body source in
  let* end' := name_loop (S (length body)) body (position + 1) in
  Ok (mkToken NAME position end' (Some (slice body position end'))).

(* --------------------------------------------------------------------- *)
(** ** [read_token] and the [Lexer] cursor                                *)
(* --------------------------------------------------------------------- *)

(** [65 <= code <= 90 or code == 95 or 97 <= code <= 122]. *)
Definition is_name_start (code : Z) : bool :=
  ((65 <=? code) && (code <=? 90)) || (code =? 95)
  || ((97 <=? code) && (code <=? 122)).

Definition read_token (source : Source) (from_position : nat)
  : result Token :=
  let body := body source in
  let body_length := length body in
  let* position := position_after_whitespace body from_position in
  let code := char_code_at body position in
  let unexpected :=
    Raise (mkLanguageError source position
             (Unexpected_character (nth position body 0))) in
  if (body_length <=? position)%nat then
    Ok (mkToken EOF position position None)
  else
    match dict_get PUNCT_CODE_TO_KIND code with
    | Some kind => Ok (mkToken kind position (position + 1) None)
    | None =>
        if code =? 46 then
          if (char_code_at body (position + 1) =? 46)
             && (char_code_at body (position + 2) =? 46)
          then Ok (mkToken SPREAD position (position + 3) None)
          else unexpected
        else if is_name_start code then read_name source position
        else if (code =? 45) || is_digit code then
          read_number source position code
        else if code =? 34 then read_string source position
        else unexpected
    end.

(** [class Lexer]. *)
Record Lexer : Type := mkLexer {
  source : Source;
  prev_position : nat
}.

(** [Lexer.__init__]. *)
Definition Lexer_init (source : Source) : Lexer := mkLexer source 0.

(** [Lexer.next_token]: the returned token and the lexer after the call.
    When [read_token] raises, the assignment to [prev_position] is never
    reached and the exception propagates. *)
Definition next_token (self : Lexer) (reset_position : option nat)
  : result (Token * Lexer) :=
  let reset_position :=
    match reset_position with
    | None => prev_position self
    | Some p => p
    end in
  let* token := read_token (source self) reset_position in
  Ok (token, mkLexer (source self) (end_ token)).

(** The consumer of the resumability property: call [next_token] with no
    explicit position until it returns an [EOF] token, collecting the
    tokens in order.  [fuel] bounds the number of calls. *)
Fixpoint lex_all (fuel : nat) (lexer : Lexer) : result (list Token) :=
  match fuel with
  | O => OutOfFuel
  | S fuel' =>
      let* (token, lexer') := next_token lexer None in
      if TokenKind_eqb (kind token) EOF then Ok [token]
      else
        let* tokens := lex_all fuel' lexer' in
        Ok (token :: tokens)
  end.

(** ASCII text as a Python string, for examples. *)
Definition text (s : string) : str :=
  map (fun a => Z.of_nat (Ascii.nat_of_ascii a)) (String.list_ascii_of_string s).

Definition src (s : string) : Source := mkSource (text s) (text "GraphQL").

(* --------------------------------------------------------------------- *)
(** ** Vocabulary of the properties                                       *)
(* --------------------------------------------------------------------- *)

(** The grammar in the docstring of [read_number].  An Int is an
    optional minus sign and an integer part: a lone 0, or a digit from 1
    to 9 and then any digits.  A Float is an Int, a dot with one or more
    digits, and optionally an e, an optional minus sign and one or more
    digits. *)
Definition all_digits (s : str) : Prop := Forall (fun c => is_digit c = true) s.

Definition sign_part (s : str) : Prop := s = [] \/ s = [45].

Definition int_part (s : str) : Prop :=
  s = [48] \/ exists d ds, s = d :: ds /\ 49 <= d <= 57 /\ all_digits ds.

Definition frac_part (s : str) : Prop :=
  exists d ds, s = 46 :: d :: ds /\ all_digits (d :: ds).

Definition exp_part (s : str) : Prop :=
  s = [] \/
  exists sg d ds,
    s = 101 :: sg ++ d :: ds /\ sign_part sg /\ all_digits (d :: ds).

Inductive number_text : TokenKind -> str -> Prop :=
| number_int (sg i : str) :
    sign_part sg -> int_part i -> number_text INT (sg ++ i)
| number_float (sg i f e : str) :
    sign_part sg -> int_part i -> frac_part f -> exp_part e ->
    number_text FLOAT (sg ++ i ++ f ++ e).

(** Every token starts at or after the offset the scan resumed from,
    which is the end of the token before it. *)
Fixpoint chained (pos : nat) (tokens : list Token) : Prop :=
  match tokens with
  | [] => True
  | t :: ts => (pos <= start t)%nat /\ chained (end_ t) ts
  end.


(* --------------------------------------------------------------------- *)
(** ** Vocabulary of the further properties                               *)
(* --------------------------------------------------------------------- *)

(** The character at [p] starts a token or an error: it is neither
    skipped as whitespace nor the start of a comment. *)
Definition significant (body : str) (p : nat) : Prop :=
  is_whitespace (char_code_at body p) = false /\ char_code_at body p <> 35.

(** The first significant character decides what [read_token] does. *)
Inductive dispatch (source : Source) (p : nat) : result Token -> Prop :=
| dispatch_eof :
    (length (body source) <= p)%nat ->
    dispatch source p (Ok (mkToken EOF p p None))
| dispatch_punct (k : TokenKind) :
    In (char_code_at (body source) p, k) PUNCT_CODE_TO_KIND ->
    dispatch source p (Ok (mkToken k p (p + 1) None))
| dispatch_spread :
    char_code_at (body source) p = 46 ->
    char_code_at (body source) (p + 1) = 46 ->
    char_code_at (body source) (p + 2) = 46 ->
    dispatch source p (Ok (mkToken SPREAD p (p + 3) None))
| dispatch_dot :
    char_code_at (body source) p = 46 ->
    ~ (char_code_at (body source) (p + 1) = 46
       /\ char_code_at (body source) (p + 2) = 46) ->
    dispatch source p
      (Raise (mkLanguageError source p (Unexpected_character 46)))
| dispatch_name :
    is_name_start (char_code_at (body source) p) = true ->
    dispatch source p (read_name source p)
| dispatch_number :
    char_code_at (body source) p = 45
    \/ is_digit (char_code_at (body source) p) = true ->
    dispatch source p
      (read_number source p (char_code_at (body source) p))
| dispatch_string :
    char_code_at (body source) p = 34 ->
    dispatch source p (read_string source p)
| dispatch_unexpected :
    (p < length (body source))%nat ->
    dict_get PUNCT_CODE_TO_KIND (char_code_at (body source) p) = None ->
    char_code_at (body source) p <> 46 ->
    is_name_start (char_code_at (body source) p) = false ->
    char_code_at (body source) p <> 45 ->
    is_digit (char_code_at (body source) p) = false ->
    char_code_at (body source) p <> 34 ->
    dispatch source p
      (Raise (mkLanguageError source p
                (Unexpected_character (char_code_at (body source) p)))).

(** The value of a hexadecimal digit, [None] for any other character. *)
Definition hex_value (a : Z) : option Z :=
  if (48 <=? a) && (a <=? 57) then Some (a - 48)
  else if (65 <=? a) && (a <=? 70) then Some (a - 65 + 10)
  else if (97 <=? a) && (a <=? 102) then Some (a - 97 + 10)
  else None.

(** The pieces of the text between the quotes of a string: a character
    that stands for itself, a backslash and the code of one of the
    escaped characters, or a backslash, [u] and four characters. *)
Inductive string_element : Type :=
| Plain (c : Z)
| Escape (code : Z)
| Unicode (a b c d : Z).

Definition element_ok (e : string_element) : Prop :=
  match e with
  | Plain c => ends_string c = false /\ c <> 92
  | Escape code => dict_get ESCAPED_CHAR_CODES code <> None
  | Unicode a b c d =>
      hex_value a <> None /\ hex_value b <> None
      /\ hex_value c <> None /\ hex_value d <> None
  end.

(** The source text of an element. *)
Definition encode_element (e : string_element) : str :=
  match e with
  | Plain c => [c]
  | Escape code => [92; code]
  | Unicode a b c d => [92; 117; a; b; c; d]
  end.

(** What an element stands for. *)
Definition decode_element (e : string_element) : str :=
  match e with
  | Plain c => [c]
  | Escape code =>
      match dict_get ESCAPED_CHAR_CODES code with
      | Some escaped => escaped
      | None => []
      end
  | Unicode a b c d =>
      match hex_value a, hex_value b, hex_value c, hex_value d with
      | Some x, Some y, Some z, Some w => [4096 * x + 256 * y + 16 * z + w]
      | _, _, _, _ => []
      end
  end.

Definition encode (es : list string_element) : str :=
  concat (map encode_element es).
Definition decode (es : list string_element) : str :=
  concat (map decode_element es).

(** The value of [code] when the loop has just read the element. *)
Definition element_code (e : string_element) : Z :=
  match e with
  | Plain c => c
  | Escape code => code
  | Unicode _ _ _ _ => 117
  end.

(** The state of the loop of [read_string] after it has read the
    element that starts at its position. *)
Definition after_element (body : str) (st : string_state) (e : string_element)
  : string_state :=
  let position := ss_position st in
  match e with
  | Plain c =>
      mkStringState (position + 1) (ss_chunk_start st) (Some c) (ss_value st)
  | _ =>
      let position' := (position + length (encode_element e))%nat in
      mkStringState position' position' (Some (element_code e))
        (ss_value st ++ slice body (ss_chunk_start st) position
           ++ decode_element e)
  end.

(** The value of [code] after the elements, [code] before them. *)
Definition code_after (es : list string_element) (code : option Z) : option Z :=
  fold_left (fun _ e => Some (element_code e)) es code.

(** The kinds whose tokens carry a value. *)
Definition carries_value (k : TokenKind) : bool :=
  match k with
  | NAME | VARIABLE | INT | FLOAT | STRING => true
  | _ => false
  end.

(** The number of characters of a token without a value. *)
Definition width (k : TokenKind) : nat :=
  match k with
  | EOF => 0
  | SPREAD => 3
  | _ => 1
  end.

(** What follows a number does not go on with it. *)
Definition ends_number (rest : str) : Prop :=
  is_digit (hd 0 rest) = false /\ hd 0 rest <> 46 /\ hd 0 rest <> 101.

End Lexer.

(* ===================================================================== *)
(** * Part II: the validation framework                                   *)
(* ===================================================================== *)

Module Validation.

(** Modelled from the spec: the node classes of [language.ast] (not part
    of these sources).  The framework tells [FragmentDefinition] and
    [FragmentSpread] apart with [isinstance]; the classes not named here
    are [OtherNode]. *)
Inductive NodeClass : Set :=
| Document | OperationDefinition | FragmentDefinition | FragmentSpread
| SelectionSet | Field | OtherNode.

Definition NodeClass_eqb (a b : NodeClass) : bool :=
  match a, b with
  | Document, Document | OperationDefinition, OperationDefinition
  | FragmentDefinition, FragmentDefinition | FragmentSpread, FragmentSpread
  | SelectionSet, SelectionSet | Field, Field | OtherNode, OtherNode => true
  | _, _ => false
  end.

(** Modelled from the spec: the [key] under which the traversal engine
    reaches a node: none at the root, the index in a list attribute, or
    the name of an attribute. *)
Inductive Key : Set :=
| NoKey
| Index (i : nat)
| Attr (a : string).

(** Python truthiness of a key: [None], [0] and [''] are falsy. *)
Definition key_truthy (key : Key) : bool :=
  match key with
  | NoKey => false
  | Index O => false
  | Index (S _) => true
  | Attr a => negb (String.eqb a EmptyString)
  end.

(** Modelled from the spec: an AST node ([language.ast]) is its class,
    [node.name.value] (empty where the class has no name), and its
    sub-nodes in traversal order, each with the key under which it is
    reached.  The sub-nodes of a [Document] are its [definitions]. *)
#[warnings="-register-all"] Inductive Node : Type :=
| mkNode (class : NodeClass) (name_value : string)
         (children : list (Key * Node)).

Definition class (n : Node) : NodeClass :=
  match n with mkNode c _ _ => c end.
Definition name_value (n : Node) : string :=
  match n with mkNode _ v _ => v end.
Definition children (n : Node) : list (Key * Node) :=
  match n with mkNode _ _ cs => cs end.
Definition definitions (n : Node) : list Node := map snd (children n).

Definition isinstance (n : Node) (c : NodeClass) : bool :=
  NodeClass_eqb (class n) c.

(** Nesting depth of a node. *)
Fixpoint depth (n : Node) : nat :=
  match n with
  | mkNode _ _ cs =>
      S ((fix deepest (l : list (Key * Node)) : nat :=
            match l with
            | [] => O
            | (_, c) :: l' => Nat.max (depth c) (deepest l')
            end) cs)
  end.

(** Modelled from the spec: [GraphQLError] ([error], not part of these
    sources) is a message and the nodes that locate it. *)
Record GraphQLError : Type := mkGraphQLError {
  message : string;
  nodes : list Node
}.

(** The Python values a rule hook returns and the error list holds. *)
#[warnings="-register-all"] Inductive PyValue : Type :=
| PyNone
| PyFalse
| PyError (e : GraphQLError)
| PyList (items : list PyValue)
| PyOther (truth : bool).

Definition truthy (v : PyValue) : bool :=
  match v with
  | PyNone | PyFalse => false
  | PyError _ => true
  | PyList items => negb (Nat.eqb (length items) 0)
  | PyOther b => b
  end.

Definition is_GraphQLError (v : PyValue) : bool :=
  match v with PyError _ => true | _ => false end.

(** [def is_error(value)]. *)
Definition is_error (value : PyValue) : bool :=
  match value with
  | PyList items => forallb is_GraphQLError items
  | _ => is_GraphQLError value
  end.

(** [def append(arr, items)]. *)
Definition append (arr : list PyValue) (items : PyValue) : list PyValue :=
  match items with
  | PyList l => arr ++ l
  | _ => arr ++ [items]
  end.

Definition is_None (v : PyValue) : bool :=
  match v with PyNone => true | _ => false end.
Definition is_False (v : PyValue) : bool :=
  match v with PyFalse => true | _ => false end.

(** Modelled from the spec: [TypeInfo] ([utils], not part of these
    sources) is the stack of type contexts; [enter(node)] pushes the
    context of [node], [leave(node)] pops the top one. *)
Definition TypeInfo : Type := list Node.
Definition TypeInfo_enter (node : Node) (ti : TypeInfo) : TypeInfo := node :: ti.
Definition TypeInfo_leave (node : Node) (ti : TypeInfo) : TypeInfo := tl ti.

(** Outcome of a call: a value, an [AssertionError], or a recursion that
    the fuel of the model cut off. *)
Inductive result (A : Type) : Type :=
| Ok (a : A)
| AssertionError (msg : string)
| OutOfFuel.
Arguments Ok {A} a.
Arguments AssertionError {A} msg.
Arguments OutOfFuel {A}.

Definition bind {A B : Type} (r : result A) (k : A -> result B) : result B :=
  match r with
  | Ok a => k a
  | AssertionError msg => AssertionError msg
  | OutOfFuel => OutOfFuel
  end.

(** The body of the [for] loop of [get_fragment]. *)
Definition record_fragment (fragments : gmap string Node) (statement : Node)
  : gmap string Node :=
  if isinstance statement FragmentDefinition
  then <[name_value statement := statement]> fragments
  else fragments.

(** The dict that the loop of [get_fragment] builds from a document. *)
Definition fragment_index (ast : Node) : gmap string Node :=
  fold_left record_fragment (definitions ast) ∅.

(** [statement] is a [FragmentDefinition] named [name]. *)
Definition defines (name : string) (statement : Node) : bool :=
  isinstance statement FragmentDefinition
  && String.eqb (name_value statement) name.

Section Framework.

(** [GraphQLSchema]: the instances of the schema class ([type], not part
    of these sources).  [RuleState]: what a rule instance keeps between
    its hooks. *)
Context {GraphQLSchema RuleState : Type}.

(** [class ValidationContext].  [_fragments] is [None] until the first
    [get_fragment]; [scans] is instrumentation, the number of times the
    loop over [definitions] has been run on this context. *)
Record ValidationContext : Type := mkValidationContext {
  _schema : GraphQLSchema;
  _ast : Node;
  _type_info : TypeInfo;
  _fragments : option (gmap string Node);
  scans : nat
}.

(** [ValidationContext.__init__]. *)
Definition ValidationContext_init (schema : GraphQLSchema) (ast : Node)
    (type_info : TypeInfo) : ValidationContext :=
  mkValidationContext schema ast type_info None 0.

Definition get_schema (self : ValidationContext) : GraphQLSchema := _schema self.
Definition get_ast (self : ValidationContext) : Node := _ast self.

(** [ValidationContext.get_fragment]: the returned value ([None] when
    [fragments.get] finds nothing) and the context after the call. *)
Definition get_fragment (self : ValidationContext) (name : string)
  : option Node * ValidationContext :=
  match _fragments self with
  | None =>
      let fragments :=
        fold_left record_fragment (definitions (get_ast self)) ∅ in
      (fragments !! name,
       mkValidationContext (_schema self) (_ast self) (_type_info self)
         (Some fragments) (S (scans self)))
  | Some fragments => (fragments !! name, self)
  end.

(** Successive calls of [get_fragment] on the same context. *)
Fixpoint get_fragments (self : ValidationContext) (names : list string)
  : list (option Node) * ValidationContext :=
  match names with
  | [] => ([], self)
  | name :: names' =>
      let '(fragment, self) := get_fragment self name in
      let '(fragments, self) := get_fragments self names' in
      (fragment :: fragments, self)
  end.

(** A rule instance: the state it starts with, its two hooks and the
    optional attribute [visit_spread_fragments].  A hook reads the
    context the instance is bound to and its own state, and returns a
    value and its new state. *)
Record RuleInstance : Type := mkRuleInstance {
  initial : RuleState;
  rule_enter : ValidationContext -> RuleState -> Node -> Key -> option Node ->
               list Key -> list Node -> PyValue * RuleState;
  rule_leave : ValidationContext -> RuleState -> Node -> Key -> option Node ->
               list Key -> list Node -> PyValue * RuleState;
  visit_spread_fragments_attr : option bool
}.

(** A rule is called with the context and gives an instance. *)
Definition Rule : Type := ValidationContext -> RuleInstance.

(** The rule opts into visiting the fragment of a spread at the spread:
    an instance of it has a true [visit_spread_fragments]. *)
Definition inlines_spreads (rule : Rule) : Prop :=
  exists c, visit_spread_fragments_attr (rule c) = Some true.

(** [class ValidationVisitor]: [type_info] and [errors] are references
    to objects shared with the caller, kept in [State] below. *)
Record ValidationVisitor : Type := mkValidationVisitor {
  instance : RuleInstance;
  visit_spread_fragments : bool
}.

(** [ValidationVisitor.__init__]: [getattr(.., False)]. *)
Definition ValidationVisitor_init (instance : RuleInstance)
  : ValidationVisitor :=
  mkValidationVisitor instance
    (match visit_spread_fragments_attr instance with
     | Some b => b
     | None => false
     end).

(** The objects a traversal mutates: the context, whose [_type_info] is
    the [TypeInfo] the visitor holds as well; the error list; the state
    of the rule instance. *)
Record State : Type := mkState {
  context : ValidationContext;
  errors : list PyValue;
  rule_state : RuleState
}.

(** The [TypeInfo] stack that the visitor and the context share. *)
Definition type_info_of (st : State) : TypeInfo := _type_info (context st).

Definition with_type_info (f : TypeInfo -> TypeInfo) (st : State) : State :=
  let c := context st in
  mkState
    (mkValidationContext (_schema c) (_ast c) (f (_type_info c))
       (_fragments c) (scans c))
    (errors st) (rule_state st).

Notation "'let*' x ':=' e 'in' k" := (bind e (fun x => k))
  (at level 10, x pattern, e at level 200, k at level 200).

(** [ValidationVisitor.enter].  [visit] is the traversal function that
    line 76 calls on the fragment. *)
Definition enter (visit : Node -> ValidationVisitor -> State -> result State)
    (self : ValidationVisitor) (node : Node) (key : Key)
    (parent : option Node) (path : list Key) (ancestors : list Node)
    (st : State) : result (PyValue * State) :=
  let st := with_type_info (TypeInfo_enter node) st in
  if isinstance node FragmentDefinition && key_truthy key
     && visit_spread_fragments self
  then Ok (PyFalse, st)
  else
    let '(result, rs) :=
      rule_enter (instance self) (context st) (rule_state st)
        node key parent path ancestors in
    let st := mkState (context st) (errors st) rs in
    let '(result, st) :=
      if truthy result && is_error result
      then (PyFalse, mkState (context st) (append (errors st) result)
                       (rule_state st))
      else (result, st) in
    let* st :=
      if is_None result && visit_spread_fragments self
         && isinstance node FragmentSpread
      then
        let '(fragment, c) := get_fragment (context st) (name_value node) in
        let st := mkState c (errors st) (rule_state st) in
        match fragment with
        | Some fragment => visit fragment self st
        | None => Ok st
        end
      else Ok st in
    let st :=
      if is_False result then with_type_info (TypeInfo_leave node) st
      else st in
    Ok (result, st).

(** [ValidationVisitor.leave]. *)
Definition leave (self : ValidationVisitor) (node : Node) (key : Key)
    (parent : option Node) (path : list Key) (ancestors : list Node)
    (st : State) : PyValue * State :=
  let '(result, rs) :=
    rule_leave (instance self) (context st) (rule_state st)
      node key parent path ancestors in
  let st := mkState (context st) (errors st) rs in
  let '(result, st) :=
    if truthy result && is_error result
    then (PyFalse, mkState (context st) (append (errors st) result)
                     (rule_state st))
    else (result, st) in
  let st := with_type_info (TypeInfo_leave node) st in
  (result, st).

(** The sub-nodes of a node, visited in order. *)
Fixpoint walk_each (walk_child : Key -> Node -> State -> result State)
    (cs : list (Key * Node)) (st : State) : result State :=
  match cs with
  | [] => Ok st
  | (k, c) :: cs' =>
      let* st := walk_child k c st in
      walk_each walk_child cs' st
  end.

(** Modelled from the spec: the traversal engine ([language.visitor],
    not part of these sources) is a depth-first enter/leave walk that
    tracks the path and the ancestors.  At a node it calls [enter]; on
    [False] it does not descend and calls no [leave]; otherwise it walks
    the sub-nodes in order and then calls [leave].  The spec gives the
    engine for the three outcomes of a rule (continue, skip, skip with
    errors); a result of [enter] that is none of them is taken here as
    continue.  [fuel] bounds the
    nesting of calls: sub-node below node, and fragment visited from
    within [enter]. *)
Fixpoint walk (fuel : nat) (visitor : ValidationVisitor) (node : Node)
    (key : Key) (parent : option Node) (path : list Key)
    (ancestors : list Node) (st : State) : result State :=
  match fuel with
  | O => OutOfFuel
  | S fuel' =>
      let visit := fun root v st => walk fuel' v root NoKey None [] [] st in
      let* (r, st) := enter visit visitor node key parent path ancestors st in
      if is_False r then Ok st
      else
        let* st :=
          walk_each
            (fun k c st =>
               walk fuel' visitor c k (Some node) (path ++ [k])
                 (ancestors ++ [node]) st)
            (children node) st in
        Ok (snd (leave visitor node key parent path ancestors st))
  end.

(** Modelled from the spec: [visit(root, visitor)] starts the walk at
    the root, which has no key, no parent, and an empty path. *)
Definition visit (fuel : nat) (root : Node) (visitor : ValidationVisitor)
    (st : State) : result State :=
  walk fuel visitor root NoKey None [] [] st.

(** The loop of [visit_using_rules]: the context (with the [TypeInfo])
    and the error list are shared by all the rules. *)
Fixpoint rules_loop (fuel : nat) (ast : Node) (rules : list Rule)
    (ctx : ValidationContext) (errs : list PyValue)
  : result (ValidationContext * list PyValue) :=
  match rules with
  | [] => Ok (ctx, errs)
  | rule :: rules' =>
      let instance := rule ctx in
      let* st := visit fuel ast (ValidationVisitor_init instance)
                   (mkState ctx errs (initial instance)) in
      rules_loop fuel ast rules' (context st) (errors st)
  end.

(** [def visit_using_rules(schema, ast, rules)]; [TypeInfo(schema)]
    starts with an empty stack. *)
Definition visit_using_rules (fuel : nat) (schema : GraphQLSchema)
    (ast : Node) (rules : list Rule) : result (list PyValue) :=
  let type_info : TypeInfo := [] in
  let context := ValidationContext_init schema ast type_info in
  let errors := [] in
  let* (_, errors) := rules_loop fuel ast rules context errors in
  Ok errors.

(** The [schema] argument of [validate]: nothing, a [GraphQLSchema], or
    an object of another class (with its truth value). *)
Inductive SchemaArg : Type :=
| NoSchema
| SchemaInstance (schema : GraphQLSchema)
| NotASchema (truth : bool).

(** [Rules.*], the 22 rules of [specified_rules] ([validation.rules],
    not part of these sources). *)
Variable specified_rules : list Rule.

(** Truth value of the [schema] argument; a [GraphQLSchema] is an
    ordinary object, hence true. *)
Definition schema_truthy (schema : SchemaArg) : bool :=
  match schema with
  | NoSchema => false
  | SchemaInstance _ => true
  | NotASchema truth => truth
  end.

(** [def validate(schema, ast, rules=None)]: the document is [None] or a
    [Document] node.  The three [assert]s come first, in order. *)
Definition validate (fuel : nat) (schema : SchemaArg) (ast : option Node)
    (rules : option (list Rule)) : result (list PyValue) :=
  if negb (schema_truthy schema) then AssertionError "Must provide schema"
  else
    match ast with
    | None => AssertionError "Must provide document"
    | Some ast =>
        match schema with
        | SchemaInstance schema =>
            let rules :=
              match rules with
              | None => specified_rules
              | Some rules => rules
              end in
            visit_using_rules fuel schema ast rules
        | _ => AssertionError ""
        end
    end.

End Framework.

(* --------------------------------------------------------------------- *)
(** ** Documents and rules of the examples                                *)
(* --------------------------------------------------------------------- *)

(** [query { ...F }  fragment F on T { ...F }]: the fragment spreads
    itself. *)
Definition spread_F : Node := mkNode FragmentSpread "F" [].
Definition selection_F : Node := mkNode SelectionSet "" [(Index 0, spread_F)].
Definition fragment_F : Node :=
  mkNode FragmentDefinition "F" [(Attr "selection_set", selection_F)].
Definition query_F : Node :=
  mkNode OperationDefinition "" [(Attr "selection_set", selection_F)].
Definition cyclic_document : Node :=
  mkNode Document "" [(Index 0, query_F); (Index 1, fragment_F)].

(** [query { a }  fragment G on T { b }]: no spread at all. *)
Definition selection_of (field : string) : Node :=
  mkNode SelectionSet "" [(Index 0, mkNode Field field [])].
Definition query_a : Node :=
  mkNode OperationDefinition "" [(Attr "selection_set", selection_of "a")].
Definition fragment_G : Node :=
  mkNode FragmentDefinition "G" [(Attr "selection_set", selection_of "b")].
Definition plain_document : Node :=
  mkNode Document "" [(Index 0, query_a); (Index 1, fragment_G)].

(** [fragment H on T { a }  fragment H on T { b }]: one name, twice. *)
Definition fragment_H (field : string) : Node :=
  mkNode FragmentDefinition "H" [(Attr "selection_set", selection_of field)].
Definition duplicate_document : Node :=
  mkNode Document "" [(Index 0, fragment_H "a"); (Index 1, fragment_H "b")].

(** A hook that returns [None] and keeps no state. *)
Definition continue_hook (c : @ValidationContext unit) (s : unit)
    (node : Node) (key : Key) (parent : option Node) (path : list Key)
    (ancestors : list Node) : PyValue * unit := (PyNone, s).

(** A rule with [visit_spread_fragments = True] that continues at every
    node, and one without the attribute. *)
Definition inlining_rule : @Rule unit unit :=
  fun _ => mkRuleInstance tt continue_hook continue_hook (Some true).
Definition plain_rule : @Rule unit unit :=
  fun _ => mkRuleInstance tt continue_hook continue_hook None.

(** The visitor of an instance of [inlining_rule]. *)
Definition inlining_visitor : @ValidationVisitor unit unit :=
  mkValidationVisitor (mkRuleInstance tt continue_hook continue_hook (Some true))
    true.

(** The fragment cache of a context of [cyclic_document] is not built
    yet or is the index of that document. *)
Definition cache_sound (c : @ValidationContext unit) : Prop :=
  _ast c = cyclic_document
  /\ (_fragments c = None
      \/ _fragments c = Some (fragment_index cyclic_document)).

(** With this much fuel the visit of the fragment [F] by
    [inlining_visitor] is cut off, whatever the state. *)
Definition unbounded (fuel : nat) : Prop :=
  forall st : @State unit unit,
    cache_sound (context st) ->
    walk fuel inlining_visitor fragment_F NoKey None [] [] st = OutOfFuel.

(* --------------------------------------------------------------------- *)
(** ** Vocabulary of the further properties                               *)
(* --------------------------------------------------------------------- *)

(** The cache of the context is not built yet, or it is the index of
    the document of the context. *)
Definition cache_valid {GraphQLSchema : Type}
    (c : @ValidationContext GraphQLSchema) : Prop :=
  _fragments c = None \/ _fragments c = Some (fragment_index (_ast c)).

(** What a traversal leaves alone in the context: the schema, the
    document, and the cache once it is built. *)
Definition context_kept {GraphQLSchema : Type}
    (c c' : @ValidationContext GraphQLSchema) : Prop :=
  _schema c' = _schema c /\ _ast c' = _ast c
  /\ (cache_valid c -> cache_valid c')
  /\ (forall cache, _fragments c = Some cache -> _fragments c' = Some cache)
  /\ scans c'
     = (scans c
        + match _fragments c, _fragments c' with
          | None, Some _ => 1
          | _, _ => 0
          end)%nat.

(** The error list grew at its end, by [GraphQLError]s only. *)
Definition errors_extended (errs errs' : list PyValue) : Prop :=
  exists new, errs' = errs ++ new /\ forallb is_GraphQLError new = true.

(** The state after a step of a traversal, against the state before. *)
Definition state_kept {GraphQLSchema RuleState : Type}
    (st st' : @State GraphQLSchema RuleState) : Prop :=
  context_kept (context st) (context st')
  /\ errors_extended (errors st) (errors st').

(** The stack [ti'] is the stack [ti] with entries pushed on it. *)
Definition grown (ti ti' : TypeInfo) : Prop := exists pushed, ti' = pushed ++ ti.

(** The names of the fragment spreads in a node and below it. *)
Fixpoint spreads (n : Node) : list string :=
  match n with
  | mkNode c v cs =>
      (if NodeClass_eqb c FragmentSpread then [v] else [])
      ++ (fix below (l : list (Key * Node)) : list string :=
            match l with
            | [] => []
            | (_, child) :: l' => spreads child ++ below l'
            end) cs
  end.

(** [rank] goes down from the name of a fragment to the names of the
    fragments that it spreads: the fragments of the document have no
    cycle. *)
Definition ranked (ast : Node) (rank : string -> nat) : Prop :=
  forall name d,
    fragment_index ast !! name = Some d ->
    forall s, In s (spreads d) -> is_Some (fragment_index ast !! s) ->
              (rank s < rank name)%nat.

(** The state is one of a validation of [ast]. *)
Definition of_document {GraphQLSchema RuleState : Type} (ast : Node)
    (st : @State GraphQLSchema RuleState)
  : Prop :=
  _ast (context st) = ast /\ cache_valid (context st).

(** [query { ...A }  fragment A on T { ...B }  fragment B on T { x }]:
    a chain of fragments, without a cycle. *)
Definition selection_spread (name : string) : Node :=
  mkNode SelectionSet "" [(Index 0, mkNode FragmentSpread name [])].
Definition query_A : Node :=
  mkNode OperationDefinition "" [(Attr "selection_set", selection_spread "A")].
Definition fragment_A : Node :=
  mkNode FragmentDefinition "A" [(Attr "selection_set", selection_spread "B")].
Definition fragment_B : Node :=
  mkNode FragmentDefinition "B" [(Attr "selection_set", selection_of "x")].
Definition chain_document : Node :=
  mkNode Document ""
    [(Index 0, query_A); (Index 1, fragment_A); (Index 2, fragment_B)].

(** [A] spreads [B], and [B] spreads nothing. *)
Definition chain_rank (name : string) : nat :=
  if String.eqb name "A" then 1 else 0.

(** A hook that reports every field it enters, and continues at the
    other nodes. *)
Definition reporting_hook (c : @ValidationContext unit) (s : unit)
    (node : Node) (key : Key) (parent : option Node) (path : list Key)
    (ancestors : list Node) : PyValue * unit :=
  (if isinstance node Field
   then PyError (mkGraphQLError (name_value node) [node])
   else PyNone, s).

(** A rule that inlines spreads and reports the fields. *)
Definition reporting_rule : @Rule unit unit :=
  fun _ => mkRuleInstance tt reporting_hook continue_hook (Some true).

(** *** Bounded inlining *)

(** The names of the spreads that a visitor that inlines spreads comes
    to in a node reached under [key] and below it: a fragment
    definition under a true key is skipped with all it holds. *)
Fixpoint walked_spreads (key : Key) (n : Node) : list string :=
  match n with
  | mkNode c v cs =>
      if NodeClass_eqb c FragmentDefinition && key_truthy key then []
      else
        (if NodeClass_eqb c FragmentSpread then [v] else [])
        ++ (fix within (l : list (Key * Node)) : list string :=
              match l with
              | [] => []
              | (k, child) :: l' => walked_spreads k child ++ within l'
              end) cs
  end.

(** The inlining of a rule is bounded on a document: where an instance
    of the rule inlines spreads, there is a potential, a number for each
    state of the rule and each fragment name, that no hook raises, that
    is below [bound] at the spreads the traversal of the document comes
    to, and that drops from the name of a spread to the names of the
    spreads in its fragment each time the rule continues at the spread.
    Only the spreads of defined fragments that the traversal can come to
    ([live]) count. *)
Definition bounded_inlining {GraphQLSchema RuleState : Type} (ast : Node)
    (bound : nat) (rule : @Rule GraphQLSchema RuleState) : Prop :=
  exists (potential : RuleState -> string -> nat) (live : string -> Prop),
    forall c,
      visit_spread_fragments_attr (rule c) = Some true ->
      (forall c' rs n k p path anc s,
          (potential (snd (rule_enter (rule c) c' rs n k p path anc)) s
           <= potential rs s)%nat)
      /\ (forall c' rs n k p path anc s,
             (potential (snd (rule_leave (rule c) c' rs n k p path anc)) s
              <= potential rs s)%nat)
      /\ (forall s,
             In s (walked_spreads NoKey ast) ->
             is_Some (fragment_index ast !! s) ->
             live s /\ (potential (initial (rule c)) s < bound)%nat)
      /\ (forall c' rs n k p path anc d,
             isinstance n FragmentSpread = true ->
             live (name_value n) ->
             fragment_index ast !! name_value n = Some d ->
             fst (rule_enter (rule c) c' rs n k p path anc) = PyNone ->
             forall s,
               In s (walked_spreads NoKey d) ->
               is_Some (fragment_index ast !! s) ->
               live s
               /\ (potential (snd (rule_enter (rule c) c' rs n k p path anc)) s
                   < potential rs (name_value n))%nat).

(** The potential has not gone up from [st] to [st']. *)
Definition lowered {GraphQLSchema RuleState : Type}
    (potential : RuleState -> string -> nat)
    (st st' : @State GraphQLSchema RuleState) : Prop :=
  forall s, (potential (rule_state st') s <= potential (rule_state st) s)%nat.

(** The spreads of defined fragments that the traversal comes to in
    [node] are live, and their potential is below [r]. *)
Definition below {GraphQLSchema RuleState : Type} (ast : Node)
    (potential : RuleState -> string -> nat) (live : string -> Prop)
    (r : nat) (key : Key) (node : Node)
    (st : @State GraphQLSchema RuleState) : Prop :=
  forall s, In s (walked_spreads key node) ->
            is_Some (fragment_index ast !! s) ->
            live s /\ (potential (rule_state st) s < r)%nat.

(** The names of the fragment definitions of a document. *)
Definition fragment_names (ast : Node) : list string :=
  map name_value
    (List.filter (fun d => isinstance d FragmentDefinition) (definitions ast)).

(** How many of [names] are not in [seen]. *)
Fixpoint unseen (seen names : list string) : nat :=
  match names with
  | [] => 0%nat
  | n :: names' =>
      ((if existsb (String.eqb n) seen then 0 else 1) + unseen seen names')%nat
  end.

(** A rule that inlines spreads and guards itself: it keeps the names of
    the spreads it has continued at, and skips a spread whose name it has
    kept. *)
Definition seen_enter (c : @ValidationContext unit) (seen : list string)
    (node : Node) (key : Key) (parent : option Node) (path : list Key)
    (ancestors : list Node) : PyValue * list string :=
  if isinstance node FragmentSpread
  then if existsb (String.eqb (name_value node)) seen
       then (PyFalse, seen)
       else (PyNone, name_value node :: seen)
  else (PyNone, seen).
Definition seen_leave (c : @ValidationContext unit) (seen : list string)
    (node : Node) (key : Key) (parent : option Node) (path : list Key)
    (ancestors : list Node) : PyValue * list string := (PyNone, seen).
Definition seen_rule : @Rule unit (list string) :=
  fun _ => mkRuleInstance [] seen_enter seen_leave (Some true).

(** [query { a }  fragment F on T { ...F }]: the fragment spreads itself,
    and no spread outside it names it. *)
Definition unreached_document : Node :=
  mkNode Document "" [(Index 0, query_a); (Index 1, fragment_F)].

(** The three outcomes of the rule result channel: continue, skip, and
    skip with errors. *)
Definition rule_outcome (v : PyValue) : bool :=
  is_None v || is_False v || (truthy v && is_error v).

(** The hooks of the instance return these outcomes only. *)
Definition returns_outcomes {GraphQLSchema RuleState : Type}
    (instance : @RuleInstance GraphQLSchema RuleState) : Prop :=
  forall c rs n k p path anc,
    rule_outcome (fst (rule_enter instance c rs n k p path anc)) = true
    /\ rule_outcome (fst (rule_leave instance c rs n k p path anc)) = true.

End Validation.

(* ===================================================================== *)
(** * Part III: properties of the lexer                                   *)
(* ===================================================================== *)

Module LexerTheory.
Import Lexer.

(** ** Offsets and slices *)

Lemma char_code_at_in_range (s : str) (pos : nat) :
  char_code_at s pos <> 0 -> (pos < length s)%nat.
Proof.
  unfold char_code_at. destruct (pos <? length s)%nat eqn:E; [|congruence].
  intros _. now apply Nat.ltb_lt in E.
Qed.

Lemma char_code_at_nth (s : str) (p : nat) :
  char_code_at s p <> 0 -> nth p s 0 = char_code_at s p.
Proof.
  intros H. apply char_code_at_in_range in H as Hlt.
  unfold char_code_at. apply Nat.ltb_lt in Hlt. now rewrite Hlt.
Qed.

Lemma slice_same (s : str) (i : nat) : slice s i i = [].
Proof. unfold slice. now rewrite Nat.sub_diag. Qed.

Lemma firstn_add {A : Type} (a b : nat) (l : list A) :
  firstn (a + b) l = firstn a l ++ firstn b (skipn a l).
Proof.
  revert l. induction a as [|a IH]; intros l; simpl; [reflexivity|].
  destruct l as [|x l]; simpl; [now rewrite firstn_nil|].
  now rewrite IH.
Qed.

Lemma slice_app (s : str) (i j k : nat) :
  (i <= j)%nat -> (j <= k)%nat -> slice s i j ++ slice s j k = slice s i k.
Proof.
  intros Hij Hjk. unfold slice.
  replace (k - i)%nat with ((j - i) + (k - j))%nat by lia.
  rewrite firstn_add, skipn_skipn.
  now replace (j - i + i)%nat with j by lia.
Qed.

Lemma slice_one (s : str) (p : nat) :
  (p < length s)%nat -> slice s p (p + 1) = [char_code_at s p].
Proof.
  intros H. unfold slice, char_code_at.
  apply Nat.ltb_lt in H as E. rewrite E.
  replace (p + 1 - p)%nat with 1%nat by lia.
  revert p H E. induction s as [|c s IH]; intros p H E; simpl in *; [lia|].
  destruct p as [|p]; simpl; [reflexivity|].
  apply IH; [lia|]. apply Nat.ltb_lt. lia.
Qed.

Lemma slice_length (s : str) (i j : nat) :
  (i <= j)%nat -> (j <= length s)%nat -> length (slice s i j) = (j - i)%nat.
Proof.
  intros. unfold slice. rewrite length_firstn, length_skipn. lia.
Qed.

(** ** The number reader *)

Lemma is_digit_nonzero (c : Z) : is_digit c = true -> c <> 0.
Proof. unfold is_digit. lia. Qed.

Lemma digits_loop_spec (fuel : nat) (body : str) (p : nat) :
  (length body - p < fuel)%nat ->
  exists q,
    digits_loop fuel body p (char_code_at body p) = Ok (q, char_code_at body q)
    /\ (p <= q)%nat /\ (q <= length body \/ q = p)%nat
    /\ all_digits (slice body p q)
    /\ is_digit (char_code_at body q) = false.
Proof.
  revert p. induction fuel as [|fuel IH]; intros p Hfuel; [lia|].
  simpl. destruct (is_digit (char_code_at body p)) eqn:Hd.
  - pose proof (char_code_at_in_range body p (is_digit_nonzero _ Hd)) as Hp.
    destruct (IH (p + 1)%nat) as (q & Hq & Hle & Hin & Hall & Hstop); [lia|].
    exists q. repeat split; [exact Hq|lia|lia| |exact Hstop].
    rewrite <- (slice_app body p (p + 1) q) by lia.
    rewrite slice_one by exact Hp.
    constructor; [exact Hd|exact Hall].
  - exists p. repeat split; [lia|now right| |exact Hd].
    rewrite slice_same. constructor.
Qed.

Lemma digits_total (body : str) (p : nat) :
  exists q,
    digits body p = Ok (q, char_code_at body q)
    /\ (p < q)%nat /\ (q <= length body \/ q = p + 1)%nat
    /\ all_digits (slice body (p + 1) q)
    /\ is_digit (char_code_at body q) = false.
Proof.
  unfold digits.
  destruct (digits_loop_spec (S (length body)) body (p + 1)%nat)
    as (q & Hq & Hle & Hin & Hall & Hstop); [lia|].
  exists q. repeat split; [exact Hq|lia|lia|exact Hall|exact Hstop].
Qed.

Lemma digits_spec (body : str) (p : nat) :
  is_digit (char_code_at body p) = true ->
  exists q,
    digits body p = Ok (q, char_code_at body q)
    /\ (p < q)%nat /\ (q <= length body)%nat
    /\ slice body p q = char_code_at body p :: slice body (p + 1) q
    /\ all_digits (slice body (p + 1) q)
    /\ is_digit (char_code_at body q) = false.
Proof.
  intros Hd.
  pose proof (char_code_at_in_range body p (is_digit_nonzero _ Hd)) as Hp.
  destruct (digits_total body p) as (q & Hq & Hlt & Hin & Hall & Hstop).
  exists q. repeat split; [exact Hq|lia|lia| |exact Hall|exact Hstop].
  rewrite <- (slice_app body p (p + 1) q) by lia.
  now rewrite slice_one by exact Hp.
Qed.

Lemma read_number_spec (source : Source) (start : nat) (tok : Token) :
  read_number source start (char_code_at (body source) start) = Ok tok ->
  Lexer.start tok = start
  /\ (start < end_ tok)%nat /\ (end_ tok <= length (body source))%nat
  /\ value tok = Some (slice (body source) start (end_ tok))
  /\ number_text (kind tok) (slice (body source) start (end_ tok)).
Proof.
  unfold read_number.
  set (b := body source).
  set (c0 := char_code_at b start).
  (* sign *)
  assert (Hsign : exists p1, 
     (if c0 =? 45 then ((start + 1)%nat, char_code_at b (start + 1)) else (start, c0))
       = (p1, char_code_at b p1) /\ (start <= p1)%nat /\ sign_part (slice b start p1)
       /\ (p1 <= length b \/ p1 = start)%nat).
  { destruct (c0 =? 45) eqn:E.
    - exists (start + 1)%nat. apply Z.eqb_eq in E.
      assert (start < length b)%nat by (apply char_code_at_in_range; fold c0; lia).
      repeat split; [lia| |lia]. right. rewrite slice_one by lia. fold c0. now rewrite E.
    - exists start. repeat split; [lia| |lia]. left. apply slice_same. }
  destruct Hsign as (p1 & -> & Hp1 & Hsg & Hp1').
  (* integer part *)
  match goal with |- (bind ?E _ = _ -> _) =>
    assert (Hint : (exists e, E = Raise e) \/
      exists p2, E = Ok (p2, char_code_at b p2) /\ (p1 < p2)%nat
        /\ (p2 <= length b)%nat /\ int_part (slice b p1 p2))
  end.
  { destruct (char_code_at b p1 =? 48) eqn:E0.
    - right. exists (p1 + 1)%nat. apply Z.eqb_eq in E0.
      assert (p1 < length b)%nat by (apply char_code_at_in_range; lia).
      repeat split; [lia|lia|]. left. rewrite slice_one by lia. now rewrite E0.
    - destruct ((49 <=? char_code_at b p1) && (char_code_at b p1 <=? 57)) eqn:E1.
      + right.
        assert (Hd : is_digit (char_code_at b p1) = true) by (unfold is_digit; lia).
        destruct (digits_spec b p1 Hd) as (q & -> & Hlt & Hle & Hsl & Hall & _).
        exists q. repeat split; [lia|lia|]. right.
        eexists _, _. split; [exact Hsl|]. split; [lia|exact Hall].
      + left. eauto. }
  destruct Hint as [[e ->] | (p2 & -> & Hp2 & Hp2' & Hint)]; simpl; [discriminate|].
  destruct (char_code_at b p2 =? 46) eqn:Edot; simpl.
  2:{ intros [= <-]; simpl. repeat split; [lia|lia|].
      rewrite <- (slice_app b start p1 p2) by lia. now constructor. }
  apply Z.eqb_eq in Edot.
  assert (Hdotin : (p2 < length b)%nat) by (apply char_code_at_in_range; lia).
  destruct (is_digit (char_code_at b (p2 + 1))) eqn:Efd; simpl; [|discriminate].
  destruct (digits_spec b (p2 + 1) Efd) as (p3 & -> & Hp3 & Hp3' & Hsl3 & Hall3 & _).
  simpl.
  assert (Hfrac : frac_part (slice b p2 p3)).
  { rewrite <- (slice_app b p2 (p2 + 1) p3) by lia.
    rewrite slice_one by lia. rewrite Edot, Hsl3. eexists _, _. split; [reflexivity|].
    constructor; [exact Efd|exact Hall3]. }
  (* exponent *)
  match goal with |- (bind (bind ?E _) _ = _ -> _) =>
    assert (Hexp : (exists e, E = Raise e) \/
      exists p4 c4, E = Ok (p4, c4) /\ (p3 <= p4)%nat
        /\ (p4 <= length b)%nat /\ exp_part (slice b p3 p4))
  end.
  { destruct (char_code_at b p3 =? 101) eqn:Ee.
    2:{ right. exists p3, (char_code_at b p3). repeat split; [lia|lia|].
        left. apply slice_same. }
    apply Z.eqb_eq in Ee.
    assert (Hein : (p3 < length b)%nat) by (apply char_code_at_in_range; lia).
    assert (Hsign : exists p5,
      (if char_code_at b (p3 + 1) =? 45
       then ((p3 + 1 + 1)%nat, char_code_at b (p3 + 1 + 1))
       else ((p3 + 1)%nat, char_code_at b (p3 + 1)))
      = (p5, char_code_at b p5) /\ (p3 + 1 <= p5)%nat
      /\ sign_part (slice b (p3 + 1) p5)).
    { destruct (char_code_at b (p3 + 1) =? 45) eqn:Em.
      - exists (p3 + 1 + 1)%nat. apply Z.eqb_eq in Em.
        assert (p3 + 1 < length b)%nat by (apply char_code_at_in_range; lia).
        repeat split; [lia|]. right. rewrite slice_one by lia. now rewrite Em.
      - exists (p3 + 1)%nat. repeat split; [lia|]. left. apply slice_same. }
    destruct Hsign as (p5 & -> & Hp5 & Hsg5).
    destruct (is_digit (char_code_at b p5)) eqn:Eed; [|left; eauto].
    right.
    destruct (digits_spec b p5 Eed) as (p6 & -> & Hp6 & Hp6' & Hsl6 & Hall6 & _).
    exists p6, (char_code_at b p6). repeat split; [lia|lia|]. right.
    exists (slice b (p3 + 1) p5), (char_code_at b p5), (slice b (p5 + 1) p6).
    split; [|split; [exact Hsg5|constructor; [exact Eed|exact Hall6]]].
    rewrite <- (slice_app b p3 (p3 + 1) p6) by lia.
    rewrite slice_one by lia. rewrite Ee. simpl. f_equal.
    rewrite <- (slice_app b (p3 + 1) p5 p6) by lia. now rewrite Hsl6. }
  destruct Hexp as [[e ->] | (p4 & c4 & -> & Hp4 & Hp4' & Hexp)]; simpl; [discriminate|].
  intros [= <-]; simpl. repeat split; [lia|lia|].
  rewrite <- (slice_app b start p1 p4) by lia.
  rewrite <- (slice_app b p1 p2 p4) by lia.
  rewrite <- (slice_app b p2 p3 p4) by lia.
  now constructor.
Qed.

Lemma read_number_total (source : Source) (start : nat) (c : Z) :
  read_number source start c <> OutOfFuel.
Proof.
  unfold read_number.
  repeat first
    [ discriminate
    | match goal with
      | |- context [digits ?b ?p] =>
          let q := fresh "q" in
          destruct (digits_total b p) as (q & -> & _)
      | |- context [if ?c then _ else _] => destruct c
      end
    | progress cbn [bind] ].
Qed.

Lemma number_text_kind (k : TokenKind) (s : str) :
  number_text k s -> k = INT \/ k = FLOAT.
Proof. destruct 1; auto. Qed.

Lemma all_digits_In (ds : str) (c : Z) :
  all_digits ds -> In c ds -> is_digit c = true.
Proof. intros H Hin. exact (proj1 (List.Forall_forall _ ds) H c Hin). Qed.

Lemma sign_part_In (sg : str) (c : Z) : sign_part sg -> In c sg -> c = 45.
Proof. intros [-> | ->]; simpl; intuition. Qed.

Lemma int_part_In (i : str) (c : Z) : int_part i -> In c i -> is_digit c = true.
Proof.
  intros [-> | (d & ds & -> & Hd & Hds)]; simpl.
  - intros [<- | []]. reflexivity.
  - intros [<- | Hin]; [unfold is_digit; lia|]. now apply all_digits_In with ds.
Qed.

Lemma number_text_dot (k : TokenKind) (s : str) :
  number_text k s ->
  (k = FLOAT <-> In 46 s) /\ (In 101 s -> In 46 s).
Proof.
  destruct 1 as [sg i Hsg Hi | sg i f e Hsg Hi (d & ds & -> & Hf) He].
  - assert (Hno : forall c, In c (sg ++ i) -> c = 45 \/ is_digit c = true).
    { intros c Hin. apply in_app_or in Hin as [Hin | Hin].
      - left. now apply sign_part_In with sg.
      - right. now apply int_part_In with i. }
    split; [split; [discriminate|]|]; intros Hin; apply Hno in Hin;
      unfold is_digit in Hin; lia.
  - assert (Hdot : In 46 (sg ++ i ++ (46 :: d :: ds) ++ e)).
    { apply in_or_app. right. apply in_or_app. right. now left. }
    split; [split|]; auto.
Qed.

(** ** The loops end, and they move forward *)

Lemma comment_loop_total (fuel : nat) (body : str) (p : nat) :
  (length body - p < fuel)%nat ->
  exists q, comment_loop fuel body p = Ok q /\ (p <= q)%nat.
Proof.
  revert p. induction fuel as [|fuel IH]; intros p Hfuel; [lia|].
  simpl. destruct (p <? length body)%nat eqn:Hin; [|eauto].
  apply Nat.ltb_lt in Hin.
  destruct (ends_comment (char_code_at body p)); [eauto|].
  destruct (IH (p + 1)%nat) as (q & -> & Hq); [lia|].
  exists q. split; [reflexivity|lia].
Qed.

Lemma whitespace_loop_total (fuel : nat) (body : str) (p : nat) :
  (length body - p < fuel)%nat ->
  exists q, whitespace_loop fuel body p = Ok q /\ (p <= q)%nat.
Proof.
  revert p. induction fuel as [|fuel IH]; intros p Hfuel; [lia|].
  cbn [whitespace_loop]. destruct (p <? length body)%nat eqn:Hin; [|eauto].
  apply Nat.ltb_lt in Hin. cbv zeta.
  destruct (is_whitespace (char_code_at body p)).
  - destruct (IH (p + 1)%nat) as (q & -> & Hq); [lia|].
    exists q. split; [reflexivity|lia].
  - destruct (char_code_at body p =? 35); [|eauto].
    destruct (comment_loop_total (S (length body)) body (p + 1)%nat)
      as (r & Hr & Hpr); [lia|].
    rewrite Hr. cbn [bind].
    destruct (IH r) as (q & -> & Hq); [lia|].
    exists q. split; [reflexivity|lia].
Qed.

Lemma position_after_whitespace_total (body : str) (p : nat) :
  exists q, position_after_whitespace body p = Ok q /\ (p <= q)%nat.
Proof. apply whitespace_loop_total. lia. Qed.

Lemma name_loop_total (fuel : nat) (body : str) (p : nat) :
  (length body - p < fuel)%nat ->
  exists q, name_loop fuel body p = Ok q /\ (p <= q)%nat.
Proof.
  revert p. induction fuel as [|fuel IH]; intros p Hfuel; [lia|].
  simpl. destruct (p =? length body)%nat eqn:Heq; simpl; [eauto|].
  destruct (char_code_at body p =? 0) eqn:Hz; simpl; [eauto|].
  destruct (is_name_char (char_code_at body p)); simpl; [|eauto].
  assert (p < length body)%nat by (apply char_code_at_in_range; lia).
  destruct (IH (p + 1)%nat) as (q & -> & Hq); [lia|].
  exists q. split; [reflexivity|lia].
Qed.

Lemma read_name_spec (source : Source) (p : nat) :
  exists q, read_name source p
            = Ok (mkToken NAME p q (Some (slice (body source) p q)))
    /\ (p < q)%nat.
Proof.
  unfold read_name.
  destruct (name_loop_total (S (length (body source))) (body source) (p + 1)%nat)
    as (q & -> & Hq); [lia|].
  exists q. split; [reflexivity|lia].
Qed.

Lemma string_loop_total (fuel : nat) (source : Source) (st : string_state) :
  (length (body source) - ss_position st < fuel)%nat ->
  (exists e, string_loop fuel source st = Raise e)
  \/ exists st', string_loop fuel source st = Ok st'
       /\ (ss_position st <= ss_position st')%nat.
Proof.
  revert st. induction fuel as [|fuel IH]; intros st Hfuel; [lia|].
  simpl. destruct (ss_position st <? length (body source))%nat eqn:Hin;
    [|right; eauto].
  apply Nat.ltb_lt in Hin.
  destruct (ends_string _); [right; eexists; split; [reflexivity|simpl; lia]|].
  assert (Hstep : forall st1, (ss_position st < ss_position st1)%nat ->
    (exists e, string_loop fuel source st1 = Raise e)
    \/ exists st', string_loop fuel source st1 = Ok st'
         /\ (ss_position st <= ss_position st')%nat).
  { intros st1 Hlt. destruct (IH st1) as [He | (st' & Hst' & Hle)]; [lia|now left|].
    right. exists st'. split; [exact Hst'|lia]. }
  repeat match goal with
         | |- context [if ?c then _ else _] => destruct c
         | |- context [match ?c with Some _ => _ | None => _ end] => destruct c
         end;
    first [left; eauto; fail | apply Hstep; simpl; lia].
Qed.

Lemma read_string_spec (source : Source) (p : nat) :
  (exists e, read_string source p = Raise e)
  \/ exists q v, read_string source p = Ok (mkToken STRING p q (Some v))
       /\ (p < q)%nat.
Proof.
  unfold read_string.
  destruct (string_loop_total (S (length (body source))) source
              (mkStringState (p + 1) (p + 1) None []))
    as [[e ->] | (st & -> & Hst)]; [simpl; lia|left; simpl; eauto|].
  simpl in *. destruct (negb _); [left; eauto|].
  right. eexists _, _. split; [reflexivity|lia].
Qed.

(** ** [read_token] *)

Lemma punct_not_eof (code : Z) (k : TokenKind) :
  dict_get PUNCT_CODE_TO_KIND code = Some k ->
  k <> EOF /\ k <> INT /\ k <> FLOAT.
Proof.
  unfold PUNCT_CODE_TO_KIND. cbn [dict_get].
  repeat (destruct (_ =? code); [intros [= <-]; repeat split; discriminate|]).
  discriminate.
Qed.

Lemma read_token_total (source : Source) (from_position : nat) :
  read_token source from_position <> OutOfFuel.
Proof.
  unfold read_token.
  destruct (position_after_whitespace_total (body source) from_position)
    as (p & -> & _). cbn [bind].
  destruct (_ <=? _)%nat; [discriminate|].
  destruct (dict_get _ _); [discriminate|].
  destruct (_ =? 46); [destruct (_ && _); discriminate|].
  destruct (is_name_start _).
  { destruct (read_name_spec source p) as (q & -> & _). discriminate. }
  destruct (_ || _); [apply read_number_total|].
  destruct (_ =? 34); [|discriminate].
  destruct (read_string_spec source p) as [[e ->] | (q & v & -> & _)]; discriminate.
Qed.

Lemma read_token_progress (source : Source) (from_position : nat) (tok : Token) :
  read_token source from_position = Ok tok ->
  (from_position <= start tok)%nat
  /\ (if TokenKind_eqb (kind tok) EOF
      then start tok = end_ tok /\ (length (body source) <= start tok)%nat
      else (start tok < end_ tok)%nat /\ (start tok < length (body source))%nat).
Proof.
  unfold read_token.
  destruct (position_after_whitespace_total (body source) from_position)
    as (p & -> & Hp). cbn [bind].
  destruct (_ <=? _)%nat eqn:Hend.
  { intros [= <-]. simpl. apply Nat.leb_le in Hend. auto. }
  apply Nat.leb_gt in Hend.
  destruct (dict_get _ _) as [k|] eqn:Hk.
  { intros [= <-]. simpl. apply punct_not_eof in Hk as (Hk & _).
    destruct k; try congruence; simpl; lia. }
  destruct (_ =? 46).
  { destruct (_ && _); [|discriminate]. intros [= <-]. simpl. lia. }
  destruct (is_name_start _).
  { destruct (read_name_spec source p) as (q & -> & Hq).
    intros [= <-]. simpl. lia. }
  destruct (_ || _).
  { intros H. apply read_number_spec in H as (Hs & Hlt & _ & _ & Hk').
    apply number_text_kind in Hk'. rewrite Hs.
    destruct Hk' as [-> | ->]; simpl; lia. }
  destruct (_ =? 34); [|discriminate].
  destruct (read_string_spec source p) as [[e ->] | (q & v & -> & Hq)];
    [discriminate|].
  intros [= <-]. simpl. lia.
Qed.

Lemma read_token_number (source : Source) (from_position : nat) (tok : Token) :
  read_token source from_position = Ok tok ->
  kind tok = INT \/ kind tok = FLOAT ->
  exists p,
    position_after_whitespace (body source) from_position = Ok p
    /\ read_number source p (char_code_at (body source) p) = Ok tok.
Proof.
  unfold read_token.
  destruct (position_after_whitespace_total (body source) from_position)
    as (p & -> & Hp). cbn [bind].
  intros H Hk. exists p. split; [reflexivity|]. revert H.
  destruct (_ <=? _)%nat.
  { intros [= <-]. simpl in Hk. destruct Hk; discriminate. }
  destruct (dict_get _ _) as [k|] eqn:Hd.
  { intros [= <-]. simpl in Hk. apply punct_not_eof in Hd. tauto. }
  destruct (_ =? 46).
  { destruct (_ && _); [|discriminate]. intros [= <-]. simpl in Hk.
    destruct Hk; discriminate. }
  destruct (is_name_start _).
  { destruct (read_name_spec source p) as (q & -> & _).
    intros [= <-]. simpl in Hk. destruct Hk; discriminate. }
  destruct (_ || _); [auto|].
  destruct (_ =? 34); [|discriminate].
  destruct (read_string_spec source p) as [[e ->] | (q & v & -> & _)];
    [discriminate|].
  intros [= <-]. simpl in Hk. destruct Hk; discriminate.
Qed.

(** ** The cursor *)

Lemma TokenKind_eqb_eq (a b : TokenKind) : TokenKind_eqb a b = true <-> a = b.
Proof. destruct a, b; simpl; split; congruence. Qed.

Lemma next_token_spec (lexer lexer' : Lexer) (tok : Token) :
  next_token lexer None = Ok (tok, lexer') ->
  source lexer' = source lexer
  /\ prev_position lexer' = end_ tok
  /\ (prev_position lexer <= start tok)%nat
  /\ (if TokenKind_eqb (kind tok) EOF
      then start tok = end_ tok
           /\ (length (body (source lexer)) <= start tok)%nat
      else (start tok < end_ tok)%nat
           /\ (start tok < length (body (source lexer)))%nat).
Proof.
  unfold next_token.
  destruct (read_token (source lexer) (prev_position lexer)) as [t| |] eqn:Hrt;
    cbn [bind]; try discriminate.
  intros [= <- <-]. apply read_token_progress in Hrt as (Hle & Hk).
  simpl. auto.
Qed.

Lemma next_token_total (lexer : Lexer) (reset_position : option nat) :
  next_token lexer reset_position <> OutOfFuel.
Proof.
  unfold next_token.
  match goal with |- context [read_token ?s ?p] =>
    pose proof (read_token_total s p) as Ht; destruct (read_token s p)
  end; cbn [bind]; congruence.
Qed.

Lemma lex_all_run (fuel : nat) (lexer : Lexer) :
  (length (body (source lexer)) - prev_position lexer < fuel)%nat ->
  (exists e, lex_all fuel lexer = Raise e)
  \/ exists tokens eof,
       lex_all fuel lexer = Ok (tokens ++ [eof])
       /\ Forall (fun t => kind t <> EOF /\ (start t < end_ t)%nat) tokens
       /\ kind eof = EOF /\ start eof = end_ eof
       /\ (length (body (source lexer)) <= start eof)%nat
       /\ chained (prev_position lexer) (tokens ++ [eof]).
Proof.
  revert lexer. induction fuel as [|fuel IH]; intros lexer Hfuel; [lia|].
  cbn [lex_all].
  destruct (next_token lexer None) as [[tok lexer']| |] eqn:Hnt; cbn [bind].
  2:{ left. eauto. }
  2:{ now apply next_token_total in Hnt. }
  apply next_token_spec in Hnt as (Hsrc & Hprev & Hle & Hk).
  destruct (TokenKind_eqb (kind tok) EOF) eqn:Heof.
  - right. exists [], tok. apply TokenKind_eqb_eq in Heof.
    destruct Hk as (Hse & Hlen). simpl. repeat split; auto.
  - destruct Hk as (Hlt & Hin).
    destruct (IH lexer') as [[e ->] | (tokens & eof & -> & Hall & Hke & Hse & Hlen & Hch)].
    + rewrite Hsrc, Hprev. lia.
    + left. simpl. eauto.
    + right. exists (tok :: tokens), eof. simpl.
      rewrite Hsrc in Hlen. rewrite Hprev in Hch.
      repeat split; auto.
      constructor; [|exact Hall]. split; [|exact Hlt].
      intros Hk. apply TokenKind_eqb_eq in Hk. congruence.
Qed.

(** ** Examples of strings: a plain one, the escapes, a code point
    given in hexadecimal, and the three errors. *)
Example read_string_examples :
  read_token (mkSource [34; 97; 98; 99; 34] []) 0
  = Ok (mkToken STRING 0 5 (Some (text "abc")))
  /\ read_token (mkSource [34; 92; 110; 92; 116; 92; 92; 92; 47; 92; 34; 34] []) 0
     = Ok (mkToken STRING 0 12 (Some [10; 9; 92; 47; 34]))
  /\ read_token (mkSource [34; 92; 98; 92; 102; 92; 114; 34] []) 0
     = Ok (mkToken STRING 0 8 (Some [8; 12; 13]))
  /\ read_token (mkSource [34; 120; 92; 117; 48; 48; 52; 49; 121; 34] []) 0
     = Ok (mkToken STRING 0 10 (Some [120; 65; 121]))
  /\ read_token (mkSource [34; 92; 117; 48; 48; 52; 120; 34] []) 0
     = Raise (mkLanguageError (mkSource [34; 92; 117; 48; 48; 52; 120; 34] [])
                2 Bad_character_escape_sequence)
  /\ read_token (mkSource [34; 97; 98; 99] []) 0
     = Raise (mkLanguageError (mkSource [34; 97; 98; 99] []) 4
                Unterminated_string)
  /\ read_token (mkSource [34; 97; 10; 34] []) 0
     = Raise (mkLanguageError (mkSource [34; 97; 10; 34] []) 2
                Unterminated_string).
Proof. repeat split; reflexivity. Qed.

(** ** Examples of the other tokens *)
Example read_token_examples :
  read_token (src "123") 0 = Ok (mkToken INT 0 3 (Some (text "123")))
  /\ read_token (mkSource (text "# comment" ++ [10] ++ text "123") []) 0
     = Ok (mkToken INT 10 13 (Some (text "123")))
  /\ read_token (src "  foo_1 ") 0 = Ok (mkToken NAME 2 7 (Some (text "foo_1")))
  /\ read_token (src ", {") 0 = Ok (mkToken BRACE_L 2 3 None)
  /\ read_token (src "") 0 = Ok (mkToken EOF 0 0 None).
Proof. repeat split; reflexivity. Qed.

(** ** The claims about the lexer *)

(** C3 (as amended).  Lexing [01] from offset 0 raises no error: it
    returns the INT token [0] with span [0,1), and the scan resumed at
    offset 1 returns the INT token [1].  In every number token the
    matched text is an optional minus sign, then an integer part that is
    either the single digit [0] or a digit from 1 to 9 followed by
    digits, and then nothing or a dot. *)
Theorem leading_zero_is_a_token_of_its_own :
  read_token (src "01") 0 = Ok (mkToken INT 0 1 (Some (text "0")))
  /\ read_token (src "01") 1 = Ok (mkToken INT 1 2 (Some (text "1")))
  /\ forall (source : Source) (from_position : nat) (tok : Token),
       read_token source from_position = Ok tok ->
       kind tok = INT \/ kind tok = FLOAT ->
       exists sg i rest,
         value tok = Some (sg ++ i ++ rest)
         /\ sign_part sg /\ int_part i
         /\ (rest = [] \/ exists r, rest = 46 :: r).
Proof.
  split; [reflexivity|]. split; [reflexivity|].
  intros source from_position tok Hrt Hk.
  destruct (read_token_number _ _ _ Hrt Hk) as (p & _ & Hrn).
  apply read_number_spec in Hrn as (_ & _ & _ & -> & Hnt).
  destruct Hnt as [sg i Hsg Hi | sg i f e Hsg Hi (d & ds & -> & Hf) He].
  - exists sg, i, []. rewrite app_nil_r. auto.
  - exists sg, i, ((46 :: d :: ds) ++ e). repeat split; auto.
    right. simpl. eauto.
Qed.

Lemma leading_zero_is_a_token_of_its_own_witness :
  read_token (src "-12.5") 0 = Ok (mkToken FLOAT 0 5 (Some (text "-12.5")))
  /\ exists sg i rest,
       Some (text "-12.5") = Some (sg ++ i ++ rest)
       /\ sign_part sg /\ int_part i
       /\ (rest = [] \/ exists r, rest = 46 :: r).
Proof.
  split; [reflexivity|].
  apply (proj2 (proj2 leading_zero_is_a_token_of_its_own) (src "-12.5") 0%nat
           (mkToken FLOAT 0 5 (Some (text "-12.5")))).
  - reflexivity.
  - right. reflexivity.
Defined.

(** C3 as stated fails: lexing [01] from offset 0 raises no error at
    offset 1. *)
Lemma leading_zero_is_not_an_error :
  ~ exists e, read_token (src "01") 0 = Raise e /\ err_position e = 1%nat.
Proof. intros (e & H & _). vm_compute in H. discriminate. Qed.

(** C4 (as amended).  For every number token the value is the exact
    matched substring of the source, the kind is FLOAT if the matched
    text has a fractional part and INT otherwise, and an exponent is
    matched only after a fractional part.  [1.5e-10] is one FLOAT with
    that value; [1e5] gives the INT [1] and leaves the exponent. *)
Theorem number_kind_follows_the_fraction :
  read_token (src "1.5e-10") 0
  = Ok (mkToken FLOAT 0 7 (Some (text "1.5e-10")))
  /\ read_token (src "1e5") 0 = Ok (mkToken INT 0 1 (Some (text "1")))
  /\ forall (source : Source) (from_position : nat) (tok : Token),
       read_token source from_position = Ok tok ->
       kind tok = INT \/ kind tok = FLOAT ->
       let matched := slice (body source) (start tok) (end_ tok) in
       value tok = Some matched
       /\ length matched = (end_ tok - start tok)%nat
       /\ number_text (kind tok) matched
       /\ (kind tok = FLOAT <-> In 46 matched)
       /\ (In 101 matched -> In 46 matched).
Proof.
  split; [reflexivity|]. split; [reflexivity|].
  intros source from_position tok Hrt Hk matched. subst matched.
  destruct (read_token_number _ _ _ Hrt Hk) as (p & _ & Hrn).
  apply read_number_spec in Hrn as (-> & Hlt & Hle & Hv & Hnt).
  split; [exact Hv|]. split; [apply slice_length; lia|].
  split; [exact Hnt|]. now apply number_text_dot.
Qed.

Lemma number_kind_follows_the_fraction_witness :
  read_token (src "-0.25e3 x") 0
  = Ok (mkToken FLOAT 0 7 (Some (text "-0.25e3")))
  /\ number_text FLOAT (slice (text "-0.25e3 x") 0 7).
Proof.
  split; [reflexivity|].
  apply (proj2 (proj2 number_kind_follows_the_fraction) (src "-0.25e3 x") 0%nat
           (mkToken FLOAT 0 7 (Some (text "-0.25e3")))).
  - reflexivity.
  - right. reflexivity.
Defined.

(** C4 as stated fails: [1e5] does not lex as a FLOAT. *)
Lemma exponent_without_fraction_is_not_a_float :
  ~ exists tok, read_token (src "1e5") 0 = Ok tok /\ kind tok = FLOAT.
Proof. intros (tok & H & Hk). vm_compute in H. injection H as <-. discriminate. Qed.

(** C5 (as amended).  Where the next significant character is a dot,
    three consecutive dots give one SPREAD token that spans exactly
    them, and anything else is an unexpected-character error raised at
    the offset of that first dot; lexing [..] from offset 0 fails at
    offset 0. *)
Theorem dots_are_a_spread_or_an_error_at_the_first_dot :
  read_token (src "...") 0 = Ok (mkToken SPREAD 0 3 None)
  /\ read_token (src "..") 0
     = Raise (mkLanguageError (src "..") 0 (Unexpected_character 46))
  /\ forall (source : Source) (from_position p : nat),
       position_after_whitespace (body source) from_position = Ok p ->
       char_code_at (body source) p = 46 ->
       read_token source from_position
       = if (char_code_at (body source) (p + 1) =? 46)
            && (char_code_at (body source) (p + 2) =? 46)
         then Ok (mkToken SPREAD p (p + 3) None)
         else Raise (mkLanguageError source p (Unexpected_character 46)).
Proof.
  split; [reflexivity|]. split; [reflexivity|].
  intros source from_position p Hp Hc. unfold read_token.
  rewrite Hp. cbn [bind].
  assert (Hin : (p < length (body source))%nat)
    by (apply char_code_at_in_range; lia).
  apply Nat.leb_gt in Hin as ->.
  rewrite char_code_at_nth by lia. rewrite Hc. reflexivity.
Qed.

Lemma dots_are_a_spread_or_an_error_at_the_first_dot_witness :
  position_after_whitespace (text "a ....") 1 = Ok 2%nat
  /\ char_code_at (text "a ....") 2 = 46
  /\ read_token (src "a ....") 1 = Ok (mkToken SPREAD 2 5 None).
Proof.
  split; [reflexivity|]. split; [reflexivity|].
  apply (proj2 (proj2 dots_are_a_spread_or_an_error_at_the_first_dot)
           (src "a ....") 1%nat 2%nat); reflexivity.
Defined.

(** C5 as stated fails: the error for [..] is not at offset 1. *)
Lemma two_dots_fail_at_offset_zero :
  ~ exists e, read_token (src "..") 0 = Raise e /\ err_position e = 1%nat.
Proof.
  intros (e & H & Hp). vm_compute in H. injection H as <-. discriminate.
Qed.

(** C6, at the failing input.  The source is the three characters
    quote, backslash, quote: the string is not terminated, yet the lexer
    returns a STRING token whose value is one quote and whose end, 4, is
    past the end of the source, instead of raising the
    unterminated-string error. *)
Theorem escaped_quote_at_end_of_input_closes_the_string :
  read_token (mkSource [34; 92; 34] []) 0
  = Ok (mkToken STRING 0 4 (Some [34]))
  /\ length [34; 92; 34] = 3%nat.
Proof. split; reflexivity. Qed.

(** C7.  On a source that raises no lexical error, every call of
    [next_token] with no explicit position sets [prev_position] to the
    end of the token it returns, that token starts at or after the
    previous position, and its end is strictly greater than its start
    unless it is EOF; calling it repeatedly from offset 0 ends after at
    most [length body + 1] calls with exactly one EOF token, the last
    one, whose start equals its end and lies at or past the end of the
    source. *)
Theorem next_token_resumes_until_eof (source : Source) (fuel : nat) :
  (length (body source) < fuel)%nat ->
  (forall e, lex_all fuel (Lexer_init source) <> Raise e) ->
  (forall lexer token lexer',
      next_token lexer None = Ok (token, lexer') ->
      prev_position lexer' = end_ token
      /\ (prev_position lexer <= start token)%nat
      /\ (kind token <> EOF -> (start token < end_ token)%nat))
  /\ exists tokens eof,
       lex_all fuel (Lexer_init source) = Ok (tokens ++ [eof])
       /\ Forall (fun t => kind t <> EOF /\ (start t < end_ t)%nat) tokens
       /\ kind eof = EOF /\ start eof = end_ eof
       /\ (length (body source) <= start eof)%nat
       /\ chained 0 (tokens ++ [eof]).
Proof.
  intros Hfuel Hno. split.
  - intros lexer token lexer' Hnt.
    apply next_token_spec in Hnt as (_ & Hprev & Hle & Hk).
    repeat split; auto. intros Hne.
    destruct (TokenKind_eqb (kind token) EOF) eqn:E; [|tauto].
    now apply TokenKind_eqb_eq in E.
  - destruct (lex_all_run fuel (Lexer_init source)) as [[e He] | H];
      [simpl; lia|now apply Hno in He|exact H].
Qed.

Lemma next_token_resumes_until_eof_witness :
  (length (body (src "{ a }")) < 6)%nat
  /\ exists tokens eof,
       lex_all 6 (Lexer_init (src "{ a }")) = Ok (tokens ++ [eof])
       /\ Forall (fun t => kind t <> EOF /\ (start t < end_ t)%nat) tokens
       /\ kind eof = EOF /\ start eof = end_ eof
       /\ (length (body (src "{ a }")) <= start eof)%nat
       /\ chained 0 (tokens ++ [eof]).
Proof.
  split; [simpl; lia|].
  apply (next_token_resumes_until_eof (src "{ a }") 6).
  - simpl. lia.
  - intros e. vm_compute. discriminate.
Defined.


(** ** Whitespace and comments *)

Lemma comment_loop_bound (fuel : nat) (body : str) (p q : nat) :
  comment_loop fuel body p = Ok q ->
  (p <= q)%nat /\ (q <= length body \/ q = p)%nat.
Proof.
  revert p. induction fuel as [|fuel IH]; intros p; [discriminate|].
  simpl. destruct (p <? length body)%nat eqn:Hin.
  - apply Nat.ltb_lt in Hin. destruct (ends_comment _).
    + intros [= <-]. lia.
    + intros H. apply IH in H. lia.
  - intros [= <-]. lia.
Qed.

Lemma whitespace_loop_lands (fuel : nat) (body : str) (p q : nat) :
  whitespace_loop fuel body p = Ok q ->
  (p <= q)%nat /\ (q <= length body \/ q = p)%nat
  /\ ((q < length body)%nat -> significant body q).
Proof.
  revert p. induction fuel as [|fuel IH]; intros p; [discriminate|].
  cbn [whitespace_loop]. destruct (p <? length body)%nat eqn:Hin.
  - apply Nat.ltb_lt in Hin. cbv zeta.
    destruct (is_whitespace (char_code_at body p)) eqn:Hws.
    + intros H. apply IH in H. intuition lia.
    + destruct (char_code_at body p =? 35) eqn:Hc.
      * destruct (comment_loop _ body (p + 1)) as [r| |] eqn:Hr; cbn [bind];
          try discriminate.
        apply comment_loop_bound in Hr. intros H. apply IH in H. intuition lia.
      * intros [= <-]. repeat split; [lia|lia|exact Hws|lia].
  - intros [= <-]. apply Nat.ltb_ge in Hin. repeat split; try lia.
Qed.

Lemma whitespace_loop_fixed (fuel : nat) (body : str) (p : nat) :
  ((p < length body)%nat -> significant body p) ->
  whitespace_loop (S fuel) body p = Ok p.
Proof.
  intros H. cbn [whitespace_loop].
  destruct (p <? length body)%nat eqn:Hin; [|reflexivity].
  apply Nat.ltb_lt in Hin. destruct (H Hin) as (Hws & Hc). cbv zeta.
  rewrite Hws. apply Z.eqb_neq in Hc. now rewrite Hc.
Qed.

Lemma whitespace_loop_more_fuel (body : str) (fuel : nat) :
  forall (fuel' p q : nat),
    whitespace_loop fuel body p = Ok q -> (fuel <= fuel')%nat ->
    whitespace_loop fuel' body p = Ok q.
Proof.
  induction fuel as [|fuel IH]; intros fuel' p q H Hle; [discriminate|].
  destruct fuel' as [|fuel']; [lia|]. revert H. cbn [whitespace_loop].
  destruct (p <? length body)%nat; [|auto]. cbv zeta.
  destruct (is_whitespace _); [intros H; apply IH; [exact H|lia]|].
  destruct (_ =? 35); [|auto].
  destruct (comment_loop _ _ _); cbn [bind]; try discriminate.
  intros H. apply IH; [exact H|lia].
Qed.

Lemma skipn_cons_inv (s : str) (p : nat) (x : Z) (tail : str) :
  skipn p s = x :: tail ->
  (p < length s)%nat /\ char_code_at s p = x /\ skipn (p + 1) s = tail.
Proof.
  revert p. induction s as [|c s IH]; intros p H.
  - rewrite skipn_nil in H. discriminate.
  - destruct p as [|p]; simpl in H.
    + injection H as -> ->. split; [simpl; lia|]. split; reflexivity.
    + apply IH in H as (Hlt & Hc & Hs). split; [simpl; lia|].
      split; [|exact Hs].
      unfold char_code_at in *. simpl.
      destruct (p <? length s)%nat eqn:E1.
      * assert (E2 : (S p <? S (length s))%nat = true)
          by (apply Nat.ltb_lt; apply Nat.ltb_lt in E1; lia).
        now rewrite E2.
      * apply Nat.ltb_ge in E1. lia.
Qed.

Lemma skipn_length_app (before rest : str) :
  skipn (length before) (before ++ rest) = rest.
Proof. induction before; simpl; auto. Qed.

Lemma skipn_app_inv (s l tail : str) (p : nat) :
  skipn p s = l ++ tail ->
  skipn (p + length l) s = tail /\ slice s p (p + length l) = l
  /\ (length l <= length s)%nat.
Proof.
  intros H. split; [|split].
  - rewrite Nat.add_comm, <- skipn_skipn, H. apply drop_app_length.
  - unfold slice. replace (p + length l - p)%nat with (length l) by lia.
    rewrite H. apply take_app_length.
  - apply (f_equal (@length Z)) in H. rewrite length_skipn, length_app in H.
    lia.
Qed.

Lemma head_code (s tail : str) (p : nat) :
  skipn p s = tail -> char_code_at s p = hd 0 tail.
Proof.
  intros H. destruct tail as [|c tail].
  - unfold char_code_at.
    destruct (p <? length s)%nat eqn:E; [|reflexivity].
    apply Nat.ltb_lt in E. apply (f_equal (@length Z)) in H.
    rewrite length_skipn in H. simpl in H. lia.
  - now apply skipn_cons_inv in H as (_ & H & _).
Qed.

Lemma comment_loop_text (body : str) (text tail : str) :
  forall (fuel p : nat),
    skipn p body = text ++ tail ->
    Forall (fun c => ends_comment c = false) text ->
    match tail with [] => True | t :: _ => ends_comment t = true end ->
    (length text < fuel)%nat ->
    comment_loop fuel body p = Ok (p + length text)%nat.
Proof.
  induction text as [|c text IH]; intros fuel p Hseg Hok Htail Hfuel.
  - destruct fuel as [|fuel]; [simpl in Hfuel; lia|]. simpl in *.
    rewrite Nat.add_0_r. destruct tail as [|t tail].
    + assert (Hend : (length body <= p)%nat).
      { destruct (Nat.le_gt_cases (length body) p); [assumption|].
        apply (f_equal (@length Z)) in Hseg. rewrite length_skipn in Hseg.
        simpl in Hseg. lia. }
      apply Nat.ltb_ge in Hend as ->. reflexivity.
    + apply skipn_cons_inv in Hseg as (Hlt & Hc & _).
      apply Nat.ltb_lt in Hlt as ->. now rewrite Hc, Htail.
  - destruct fuel as [|fuel]; [simpl in Hfuel; lia|].
    inversion Hok as [|? ? Hc Hrest]; subst.
    cbn [app] in Hseg. apply skipn_cons_inv in Hseg as (Hlt & Hcp & Hseg).
    cbn [comment_loop]. apply Nat.ltb_lt in Hlt as ->. cbv zeta.
    rewrite Hcp, Hc. rewrite (IH fuel (p + 1)%nat) by (simpl in *; auto; lia).
    f_equal. simpl. lia.
Qed.

(** ** The first significant character *)

Lemma dict_get_In {V : Type} (d : list (Z * V)) (k : Z) (v : V) :
  dict_get d k = Some v -> In (k, v) d.
Proof.
  induction d as [|[k' v'] d IH]; simpl; [discriminate|].
  destruct (k' =? k) eqn:E.
  - apply Z.eqb_eq in E. intros [= <-]. left. now subst.
  - intros H. right. now apply IH.
Qed.

Lemma char_code_at_nth_in (s : str) (p : nat) :
  (p < length s)%nat -> nth p s 0 = char_code_at s p.
Proof.
  intros H. unfold char_code_at. apply Nat.ltb_lt in H. now rewrite H.
Qed.

Lemma read_token_dispatch (source : Source) (from_position : nat) :
  exists p,
    position_after_whitespace (body source) from_position = Ok p
    /\ (from_position <= p)%nat
    /\ dispatch source p (read_token source from_position).
Proof.
  destruct (position_after_whitespace_total (body source) from_position)
    as (p & Hp & Hle).
  exists p. split; [exact Hp|]. split; [exact Hle|].
  unfold read_token. rewrite Hp. cbn [bind].
  destruct (_ <=? _)%nat eqn:Hend.
  { apply Nat.leb_le in Hend. now constructor. }
  apply Nat.leb_gt in Hend. rewrite (char_code_at_nth_in _ _ Hend).
  destruct (dict_get _ _) as [k|] eqn:Hk.
  { apply dict_get_In in Hk. now constructor. }
  destruct (_ =? 46) eqn:Hdot.
  { apply Z.eqb_eq in Hdot. rewrite Hdot.
    destruct (char_code_at (body source) (p + 1) =? 46) eqn:H1;
      destruct (char_code_at (body source) (p + 2) =? 46) eqn:H2; cbn [andb];
      try (apply dispatch_dot; [exact Hdot|
             apply Z.eqb_neq in H1 || apply Z.eqb_neq in H2; tauto]).
    apply Z.eqb_eq in H1, H2. now apply dispatch_spread. }
  destruct (is_name_start _) eqn:Hn; [now constructor|].
  destruct (_ || _) eqn:Hnum.
  { apply dispatch_number. apply orb_true_iff in Hnum as [H | H]; [left; lia|now right]. }
  apply orb_false_iff in Hnum as (Hm & Hd).
  destruct (_ =? 34) eqn:Hq.
  { apply dispatch_string. lia. }
  apply dispatch_unexpected; auto; lia.
Qed.

Lemma read_token_start (source : Source) (from_position : nat) (tok : Token) :
  read_token source from_position = Ok tok ->
  position_after_whitespace (body source) from_position = Ok (start tok).
Proof.
  unfold read_token.
  destruct (position_after_whitespace_total (body source) from_position)
    as (p & -> & Hp). cbn [bind].
  destruct (_ <=? _)%nat; [now intros [= <-]|].
  destruct (dict_get _ _); [now intros [= <-]|].
  destruct (_ =? 46).
  { destruct (_ && _); [now intros [= <-]|discriminate]. }
  destruct (is_name_start _).
  { destruct (read_name_spec source p) as (q & -> & _). now intros [= <-]. }
  destruct (_ || _).
  { intros H. apply read_number_spec in H as (-> & _). reflexivity. }
  destruct (_ =? 34); [|discriminate].
  destruct (read_string_spec source p) as [[e ->] | (q & v & -> & _)];
    [discriminate|now intros [= <-]].
Qed.

Lemma read_token_resume (source : Source) (from_position p : nat) :
  position_after_whitespace (body source) from_position = Ok p ->
  read_token source p = read_token source from_position.
Proof.
  intros Hp. unfold read_token. rewrite Hp.
  apply whitespace_loop_lands in Hp as (_ & _ & Hsig).
  unfold position_after_whitespace.
  rewrite (whitespace_loop_fixed _ _ _ Hsig). reflexivity.
Qed.

Lemma read_token_at_quote (source : Source) (p : nat) :
  char_code_at (body source) p = 34 ->
  read_token source p = read_string source p.
Proof.
  intros Hq. unfold read_token, position_after_whitespace.
  assert (Hin : (p < length (body source))%nat)
    by (apply char_code_at_in_range; lia).
  rewrite whitespace_loop_fixed
    by (intros _; split; rewrite Hq; [reflexivity|discriminate]).
  cbn [bind]. apply Nat.leb_gt in Hin as ->. rewrite Hq. reflexivity.
Qed.

Lemma read_token_at_number (source : Source) (p : nat) :
  char_code_at (body source) p = 45
  \/ is_digit (char_code_at (body source) p) = true ->
  read_token source p
  = read_number source p (char_code_at (body source) p).
Proof.
  intros Hc. unfold read_token, position_after_whitespace.
  set (c := char_code_at (body source) p) in *.
  assert (Hrange : c = 45 \/ 48 <= c <= 57)
    by (destruct Hc as [H | H]; [now left|right; unfold is_digit in H; lia]).
  assert (Hin : (p < length (body source))%nat)
    by (apply char_code_at_in_range; fold c; lia).
  rewrite whitespace_loop_fixed.
  2:{ intros _. fold c. split; [unfold is_whitespace|]; lia. }
  cbn [bind]. apply Nat.leb_gt in Hin as ->. fold c.
  assert (Hp : dict_get PUNCT_CODE_TO_KIND c = None).
  { unfold PUNCT_CODE_TO_KIND. cbn [dict_get].
    repeat match goal with
           | |- context [?k =? c] =>
               let E := fresh in destruct (k =? c) eqn:E; [lia|]
           end.
    reflexivity. }
  rewrite Hp.
  assert (H46 : (c =? 46) = false) by lia. rewrite H46.
  assert (Hn : is_name_start c = false) by (unfold is_name_start; lia).
  rewrite Hn.
  assert (Hd : (c =? 45) || is_digit c = true) by (unfold is_digit; lia).
  now rewrite Hd.
Qed.

(** ** Hexadecimal digits *)

Lemma land_shiftl_low (x y n : Z) :
  0 <= n -> 0 <= y < 2 ^ n -> Z.land (Z.shiftl x n) y = 0.
Proof.
  intros Hn Hy. apply Z.bits_inj'. intros i Hi.
  rewrite Z.land_spec, Z.bits_0.
  destruct (Z.lt_ge_cases i n) as [Hlt | Hge].
  - rewrite Z.shiftl_spec_low by lia. reflexivity.
  - destruct (Z.eq_dec y 0) as [-> | Hy0].
    + rewrite Z.bits_0. apply andb_false_r.
    + rewrite (Z.bits_above_log2 y i); [apply andb_false_r|lia|].
      apply Z.log2_lt_pow2; [lia|].
      apply Z.lt_le_trans with (2 ^ n); [lia|].
      apply Z.pow_le_mono_r; lia.
Qed.

Lemma lor_shiftl_add (x y n : Z) :
  0 <= n -> 0 <= y < 2 ^ n -> Z.lor (Z.shiftl x n) y = x * 2 ^ n + y.
Proof.
  intros Hn Hy.
  pose proof (Z.add_lor_land (Z.shiftl x n) y) as H.
  rewrite land_shiftl_low in H by assumption.
  rewrite Z.add_0_r in H. rewrite H. now rewrite Z.shiftl_mul_pow2.
Qed.

Lemma char2hex_hex_value (a : Z) :
  char2hex a = match hex_value a with Some v => v | None => -1 end.
Proof.
  unfold char2hex, hex_value.
  repeat match goal with |- context [if ?c then _ else _] => destruct c end;
    lia.
Qed.

Lemma hex_value_range (a v : Z) : hex_value a = Some v -> 0 <= v <= 15 /\ a <> 0.
Proof.
  unfold hex_value.
  destruct ((48 <=? a) && (a <=? 57)) eqn:E1; [intros [= <-]; lia|].
  destruct ((65 <=? a) && (a <=? 70)) eqn:E2; [intros [= <-]; lia|].
  destruct ((97 <=? a) && (a <=? 102)) eqn:E3; [intros [= <-]; lia|].
  discriminate.
Qed.

Lemma char2hex_neg (a : Z) : char2hex a < 0 <-> hex_value a = None.
Proof.
  rewrite char2hex_hex_value. destruct (hex_value a) as [v|] eqn:E.
  - apply hex_value_range in E. split; [lia|discriminate].
  - split; [reflexivity|lia].
Qed.

Lemma uni_char_code_hex (a b c d : Z) :
  match hex_value a, hex_value b, hex_value c, hex_value d with
  | Some x, Some y, Some z, Some w =>
      uni_char_code a b c d = 4096 * x + 256 * y + 16 * z + w
      /\ 0 <= uni_char_code a b c d <= 65535
  | _, _, _, _ => uni_char_code a b c d < 0
  end.
Proof.
  assert (Hneg : uni_char_code a b c d < 0
                 <-> hex_value a = None \/ hex_value b = None
                     \/ hex_value c = None \/ hex_value d = None).
  { unfold uni_char_code. rewrite !Z.lor_neg, !Z.shiftl_neg, !char2hex_neg.
    tauto. }
  destruct (hex_value a) as [x|] eqn:Ha; [|apply Hneg; auto].
  destruct (hex_value b) as [y|] eqn:Hb; [|apply Hneg; auto].
  destruct (hex_value c) as [z|] eqn:Hc; [|apply Hneg; auto].
  destruct (hex_value d) as [w|] eqn:Hd; [|apply Hneg; auto].
  unfold uni_char_code. rewrite !char2hex_hex_value, Ha, Hb, Hc, Hd.
  apply hex_value_range in Ha, Hb, Hc, Hd.
  rewrite (Z.shiftl_mul_pow2 y 8) by lia.
  rewrite (lor_shiftl_add x (y * 2 ^ 8) 12) by lia.
  rewrite (Z.shiftl_mul_pow2 z 4) by lia.
  assert (E : x * 2 ^ 12 + y * 2 ^ 8 = (x * 2 ^ 4 + y) * 2 ^ 8) by lia.
  rewrite E, <- (Z.shiftl_mul_pow2 (x * 2 ^ 4 + y) 8) by lia.
  rewrite (lor_shiftl_add _ (z * 2 ^ 4) 8) by lia.
  assert (E2 : (x * 2 ^ 4 + y) * 2 ^ 8 + z * 2 ^ 4
               = ((x * 2 ^ 4 + y) * 2 ^ 4 + z) * 2 ^ 4) by lia.
  rewrite E2, <- (Z.shiftl_mul_pow2 _ 4) by lia.
  rewrite (lor_shiftl_add _ w 4) by lia.
  lia.
Qed.

(** ** The elements of a string *)

Lemma string_loop_element (fuel : nat) (source : Source) (st : string_state)
    (e : string_element) (tail : str) :
  element_ok e ->
  skipn (ss_position st) (body source) = encode_element e ++ tail ->
  string_loop (S fuel) source st
  = string_loop fuel source (after_element (body source) st e)
  /\ skipn (ss_position (after_element (body source) st e)) (body source)
     = tail.
Proof.
  intros Hok Hseg. destruct st as [position chunk code value].
  cbn [ss_position] in Hseg. cbn [string_loop ss_position ss_chunk_start ss_value].
  cbv zeta.
  destruct e as [c | k | a b c d]; cbn [encode_element app] in Hseg.
  - destruct Hok as (Hend & Hbs).
    apply skipn_cons_inv in Hseg as (Hlt & Hc & Htail).
    apply Nat.ltb_lt in Hlt as ->. rewrite Hc, Hend.
    apply Z.eqb_neq in Hbs as ->. split; [reflexivity|exact Htail].
  - cbn [element_ok] in Hok.
    apply skipn_cons_inv in Hseg as (Hlt & Hc & Htail).
    apply skipn_cons_inv in Htail as (Hlt2 & Hk & Htail).
    apply Nat.ltb_lt in Hlt as ->. rewrite Hc. cbn [ends_string].
    change (ends_string 92) with false. change (92 =? 92) with true. cbv iota.
    rewrite Hk. replace (position + 1 - 1)%nat with position by lia.
    unfold after_element. cbn [decode_element encode_element length element_code
                                 ss_position ss_chunk_start ss_value].
    destruct (dict_get ESCAPED_CHAR_CODES k) as [escaped|]; [|congruence].
    replace (position + 1 + 1)%nat with (position + 2)%nat in * by lia.
    rewrite <- app_assoc. split; [reflexivity|exact Htail].
  - destruct Hok as (Ha & Hb & Hc & Hd).
    apply skipn_cons_inv in Hseg as (Hlt & H92 & Htail).
    apply skipn_cons_inv in Htail as (_ & H117 & Htail).
    apply skipn_cons_inv in Htail as (_ & Hca & Htail).
    apply skipn_cons_inv in Htail as (_ & Hcb & Htail).
    apply skipn_cons_inv in Htail as (_ & Hcc & Htail).
    apply skipn_cons_inv in Htail as (_ & Hcd & Htail).
    apply Nat.ltb_lt in Hlt as ->. rewrite H92.
    change (ends_string 92) with false. change (92 =? 92) with true. cbv iota.
    rewrite H117. change (dict_get ESCAPED_CHAR_CODES 117) with (@None str).
    change (117 =? 117) with true. cbv iota.
    replace (position + 1 + 1 + 1 + 1 + 1 + 1)%nat with (position + 6)%nat
      in Htail by lia.
    replace (position + 1 + 1 + 1)%nat with (position + 1 + 2)%nat in Hcb by lia.
    replace (position + 1 + 1 + 1 + 1)%nat with (position + 1 + 3)%nat in Hcc by lia.
    replace (position + 1 + 1 + 1 + 1 + 1)%nat with (position + 1 + 4)%nat in Hcd by lia.
    rewrite Hca, Hcb, Hcc, Hcd.
    pose proof (uni_char_code_hex a b c d) as Hu.
    unfold after_element. cbn [decode_element encode_element length element_code
                                 ss_position ss_chunk_start ss_value].
    destruct (hex_value a) as [x|]; [|congruence].
    destruct (hex_value b) as [y|]; [|congruence].
    destruct (hex_value c) as [z|]; [|congruence].
    destruct (hex_value d) as [w|]; [|congruence].
    destruct Hu as (Hv & Hr).
    destruct (uni_char_code a b c d <? 0) eqn:Hn; [lia|].
    unfold unichr. rewrite Hv.
    replace (position + 1 - 1)%nat with position by lia.
    replace (position + 1 + 4 + 1)%nat with (position + 6)%nat by lia.
    rewrite <- app_assoc. split; [reflexivity|exact Htail].
Qed.

Lemma string_loop_elements (source : Source) (es : list string_element) :
  forall (fuel : nat) (st : string_state) (tail : str),
    Forall element_ok es ->
    (ss_chunk_start st <= ss_position st)%nat ->
    skipn (ss_position st) (body source) = encode es ++ tail ->
    exists st',
      string_loop (length es + fuel) source st = string_loop fuel source st'
      /\ skipn (ss_position st') (body source) = tail
      /\ ss_position st' = (ss_position st + length (encode es))%nat
      /\ (ss_chunk_start st' <= ss_position st')%nat
      /\ ss_value st' ++ slice (body source) (ss_chunk_start st') (ss_position st')
         = ss_value st
           ++ slice (body source) (ss_chunk_start st) (ss_position st)
           ++ decode es
      /\ ss_code st' = code_after es (ss_code st).
Proof.
  induction es as [|e es IH]; intros fuel st tail Hok Hchunk Hseg.
  { exists st. cbn. rewrite !app_nil_r. repeat split; auto; lia. }
  inversion Hok as [|? ? He Hes]; subst.
  unfold encode in Hseg. cbn [map concat] in Hseg. rewrite <- app_assoc in Hseg.
  destruct (string_loop_element (length es + fuel) source st e _ He Hseg)
    as (Hstep & Htail).
  set (st1 := after_element (body source) st e) in *.
  assert (Hst1 : ss_position st1 = (ss_position st + length (encode_element e))%nat
                 /\ (ss_chunk_start st1 <= ss_position st1)%nat
                 /\ ss_value st1
                      ++ slice (body source) (ss_chunk_start st1) (ss_position st1)
                    = ss_value st
                      ++ slice (body source) (ss_chunk_start st) (ss_position st)
                      ++ decode_element e
                 /\ ss_code st1 = Some (element_code e)).
  { subst st1. destruct e as [c | k | a b c d]; unfold after_element;
      cbn [ss_position ss_chunk_start ss_value ss_code encode_element length
           decode_element element_code].
    - cbn [encode_element app] in Hseg.
      apply skipn_cons_inv in Hseg as (Hlt & Hc & _).
      repeat split; [lia|].
      rewrite <- (slice_app (body source) (ss_chunk_start st) (ss_position st)
                    (ss_position st + 1)) by lia.
      rewrite slice_one by exact Hlt. now rewrite Hc.
    - repeat split; [lia|]. now rewrite slice_same, app_nil_r.
    - repeat split; [lia|]. now rewrite slice_same, app_nil_r. }
  destruct Hst1 as (Hp1 & Hc1 & Hv1 & Hcode1).
  destruct (IH fuel st1 tail Hes Hc1 Htail)
    as (st' & Hloop & Htail' & Hp' & Hc' & Hv' & Hcode').
  exists st'. cbn [length Nat.add]. rewrite Hstep, Hloop.
  repeat split; auto.
  - rewrite Hp', Hp1. unfold encode. cbn [map concat]. rewrite length_app. lia.
  - rewrite Hv', app_assoc, Hv1. unfold decode. cbn [map concat].
    now rewrite <- !app_assoc.
  - rewrite Hcode'. unfold code_after. cbn [fold_left]. now rewrite Hcode1.
Qed.

Lemma encode_length (es : list string_element) :
  (length es <= length (encode es))%nat.
Proof.
  induction es as [|e es IH]; [simpl; lia|].
  unfold encode in *. cbn [map concat length]. rewrite length_app.
  destruct e; simpl; lia.
Qed.

(** The loop of [read_string] on a string whose text starts with the
    elements [es]: it reads them and goes on with what follows. *)
Lemma read_string_elements (source : Source) (before tail : str)
    (es : list string_element) :
  body source = before ++ [34] ++ encode es ++ tail ->
  Forall element_ok es ->
  exists fuel st,
    string_loop (S (length (body source))) source
      (mkStringState (length before + 1) (length before + 1) None [])
    = string_loop (S fuel) source st
    /\ char_code_at (body source) (length before) = 34
    /\ skipn (ss_position st) (body source) = tail
    /\ ss_position st = (length before + 1 + length (encode es))%nat
    /\ (ss_chunk_start st <= ss_position st)%nat
    /\ ss_value st ++ slice (body source) (ss_chunk_start st) (ss_position st)
       = decode es
    /\ ss_code st = code_after es None.
Proof.
  intros Hbody Hok.
  assert (Hq : skipn (length before) (body source)
               = 34 :: encode es ++ tail).
  { rewrite Hbody. apply skipn_length_app. }
  apply skipn_cons_inv in Hq as (Hlt & Hc & Hseg).
  assert (Hlen : (length es <= length (body source))%nat).
  { pose proof (encode_length es). rewrite Hbody, !length_app. lia. }
  destruct (string_loop_elements source es
              (S (length (body source) - length es))
              (mkStringState (length before + 1) (length before + 1) None [])
              tail Hok (Nat.le_refl _) Hseg)
    as (st & Hloop & Htail & Hp & Hchunk & Hv & Hcode).
  exists (length (body source) - length es)%nat, st.
  replace (length es + S (length (body source) - length es))%nat
    with (S (length (body source))) in Hloop by lia.
  cbn [ss_position ss_chunk_start ss_value ss_code] in *.
  rewrite slice_same in Hv. repeat split; auto.
Qed.

Lemma code_after_last (es : list string_element) (code : option Z) :
  code_after es code
  = match last es with Some e => Some (element_code e) | None => code end.
Proof.
  revert code. induction es as [|e es IH]; intros code; [reflexivity|].
  unfold code_after in *. cbn [fold_left]. rewrite IH.
  destruct es as [|e' es]; [reflexivity|]. rewrite last_cons_cons.
  destruct (last (e' :: es)) eqn:E; [reflexivity|].
  apply last_None in E. discriminate.
Qed.

Lemma code_after_quote (es : list string_element) :
  Forall element_ok es ->
  last es <> Some (Escape 34) -> code_after es None <> Some 34.
Proof.
  intros Hok Hlast. rewrite code_after_last.
  destruct (last es) as [e|] eqn:E; [|discriminate].
  assert (He : element_ok e).
  { apply last_Some in E as [l' ->]. apply Forall_app in Hok as (_ & H).
    now inversion H. }
  destruct e as [c | k | a b c d]; simpl.
  - destruct He as (Hend & _). intros [= ->]. discriminate.
  - intros [= ->]. congruence.
  - discriminate.
Qed.

Lemma escaped_code_nonzero (code : Z) (escaped : str) :
  dict_get ESCAPED_CHAR_CODES code = Some escaped -> code <> 0.
Proof.
  intros H. apply dict_get_In in H. simpl in H.
  repeat (destruct H as [[= <- _] | H]; [discriminate|]). destruct H.
Qed.

Lemma string_loop_bounds (fuel : nat) (source : Source) (st : string_state) :
  (ss_position st <= length (body source))%nat ->
  match string_loop fuel source st with
  | Ok st' =>
      (ss_position st <= ss_position st')%nat
      /\ (ss_position st' <= length (body source))%nat
  | Raise e =>
      e = mkLanguageError source (err_position e) Bad_character_escape_sequence
      /\ (ss_position st < err_position e)%nat
      /\ (err_position e <= length (body source))%nat
      /\ char_code_at (body source) (err_position e - 1) = 92
  | OutOfFuel => True
  end.
Proof.
  revert st. induction fuel as [|fuel IH]; intros st Hpos; [exact I|].
  cbn [string_loop]. cbv zeta.
  destruct (ss_position st <? length (body source))%nat eqn:Hin;
    [|split; [lia|exact Hpos]].
  apply Nat.ltb_lt in Hin.
  destruct (ends_string _); [cbn [ss_position]; lia|].
  assert (Hnext : forall st1,
    (ss_position st < ss_position st1)%nat ->
    (ss_position st1 <= length (body source))%nat ->
    match string_loop fuel source st1 with
    | Ok st' =>
        (ss_position st <= ss_position st')%nat
        /\ (ss_position st' <= length (body source))%nat
    | Raise e =>
        e = mkLanguageError source (err_position e) Bad_character_escape_sequence
        /\ (ss_position st < err_position e)%nat
        /\ (err_position e <= length (body source))%nat
        /\ char_code_at (body source) (err_position e - 1) = 92
    | OutOfFuel => True
    end).
  { intros st1 Hlt Hle. specialize (IH st1 Hle).
    destruct (string_loop fuel source st1); intuition lia. }
  destruct (char_code_at (body source) (ss_position st) =? 92) eqn:Hbs.
  2:{ apply Hnext; cbn [ss_position]; lia. }
  apply Z.eqb_eq in Hbs.
  assert (Herr : forall msg,
    msg = Bad_character_escape_sequence ->
    match @Raise string_state
            (mkLanguageError source (ss_position st + 1) msg) with
    | Ok st' =>
        (ss_position st <= ss_position st')%nat
        /\ (ss_position st' <= length (body source))%nat
    | Raise e =>
        e = mkLanguageError source (err_position e) Bad_character_escape_sequence
        /\ (ss_position st < err_position e)%nat
        /\ (err_position e <= length (body source))%nat
        /\ char_code_at (body source) (err_position e - 1) = 92
    | OutOfFuel => True
    end).
  { intros msg ->. cbn [err_position]. repeat split; [lia|lia|].
    now replace (ss_position st + 1 - 1)%nat with (ss_position st) by lia. }
  destruct (dict_get ESCAPED_CHAR_CODES _) as [escaped|] eqn:Hesc.
  { apply escaped_code_nonzero, char_code_at_in_range in Hesc.
    apply Hnext; cbn [ss_position]; lia. }
  destruct (_ =? 117); [|now apply Herr].
  match goal with |- context [uni_char_code ?a ?b ?c ?d] =>
    pose proof (uni_char_code_hex a b c d) as Hu;
    destruct (uni_char_code a b c d <? 0) eqn:Hneg; [now apply Herr|];
    destruct (hex_value d) as [w|] eqn:Hd;
      [|repeat match type of Hu with match ?x with _ => _ end => destruct x end;
        lia]
  end.
  apply hex_value_range in Hd as (_ & Hd).
  apply char_code_at_in_range in Hd.
  apply Hnext; cbn [ss_position]; lia.
Qed.

Lemma read_string_bounds (source : Source) (p : nat) :
  char_code_at (body source) p = 34 ->
  match read_string source p with
  | Ok tok =>
      kind tok = STRING /\ start tok = p /\ (p < end_ tok)%nat
      /\ (end_ tok <= length (body source) + 1)%nat
      /\ exists v, value tok = Some v
  | Raise e =>
      err_source e = source /\ (p < err_position e)%nat
      /\ (err_position e <= length (body source))%nat
      /\ (err_message e = Unterminated_string
          \/ err_message e = Bad_character_escape_sequence
             /\ char_code_at (body source) (err_position e - 1) = 92)
  | OutOfFuel => False
  end.
Proof.
  intros Hq.
  assert (Hin : (p < length (body source))%nat)
    by (apply char_code_at_in_range; lia).
  unfold read_string.
  pose proof (string_loop_bounds (S (length (body source))) source
                (mkStringState (p + 1) (p + 1) None [])) as Hb.
  destruct (string_loop_total (S (length (body source))) source
              (mkStringState (p + 1) (p + 1) None []))
    as [[e He] | (st & Hst & _)]; [cbn [ss_position]; lia| |].
  - rewrite He in *. cbn [bind]. cbn [ss_position] in Hb.
    destruct Hb as (-> & Hlt & Hle & Hc); [lia|].
    cbn [err_source err_position err_message] in *. repeat split; auto; lia.
  - rewrite Hst in *. cbn [bind]. cbn [ss_position] in Hb.
    destruct Hb as (Hlt & Hle); [lia|].
    destruct (negb _); cbn [err_source err_position err_message kind start end_ value].
    + repeat split; auto; lia.
    + repeat split; eauto; lia.
Qed.

(** ** Names and numbers *)

Lemma name_loop_spec (fuel : nat) (body : str) (p q : nat) :
  name_loop fuel body p = Ok q ->
  (p <= q)%nat /\ (q <= length body \/ q = p)%nat
  /\ Forall (fun c => is_name_char c = true) (slice body p q)
  /\ is_name_char (char_code_at body q) = false.
Proof.
  revert p. induction fuel as [|fuel IH]; intros p; [discriminate|].
  simpl. destruct (p =? length body)%nat eqn:Heq; simpl.
  { apply Nat.eqb_eq in Heq. intros [= <-]. rewrite slice_same.
    repeat split; auto; try lia.
    unfold char_code_at. rewrite Heq, Nat.ltb_irrefl. reflexivity. }
  destruct (char_code_at body p =? 0) eqn:Hz; simpl.
  { apply Z.eqb_eq in Hz. intros [= <-]. rewrite slice_same, Hz.
    repeat split; auto; lia. }
  destruct (is_name_char (char_code_at body p)) eqn:Hn; simpl.
  - assert (Hlt : (p < length body)%nat) by (apply char_code_at_in_range; lia).
    intros H. apply IH in H as (Hle & Hq & Hall & Hstop).
    repeat split; [lia|lia| |exact Hstop].
    rewrite <- (slice_app body p (p + 1) q) by lia.
    rewrite slice_one by exact Hlt. now constructor.
  - intros [= <-]. rewrite slice_same. repeat split; auto; lia.
Qed.

Lemma read_number_error (source : Source) (start : nat) (e : LanguageError) :
  char_code_at (body source) start = 45
  \/ is_digit (char_code_at (body source) start) = true ->
  read_number source start (char_code_at (body source) start) = Raise e ->
  e = mkLanguageError source (err_position e) Invalid_number
  /\ (start < err_position e)%nat
  /\ (err_position e <= length (body source))%nat
  /\ is_digit (char_code_at (body source) (err_position e)) = false
  /\ In (char_code_at (body source) (err_position e - 1)) [45; 46; 101].
Proof.
  intros Hfirst. unfold read_number.
  set (b := body source). fold b in Hfirst.
  set (c0 := char_code_at b start). fold c0 in Hfirst.
  assert (Hbad : forall q (A : Type),
    (start < q)%nat -> (q <= length b)%nat ->
    is_digit (char_code_at b q) = false ->
    In (char_code_at b (q - 1)) [45; 46; 101] ->
    forall e, @Raise A (mkLanguageError source q Invalid_number) = Raise e ->
    e = mkLanguageError source (err_position e) Invalid_number
    /\ (start < err_position e)%nat
    /\ (err_position e <= length b)%nat
    /\ is_digit (char_code_at b (err_position e)) = false
    /\ In (char_code_at b (err_position e - 1)) [45; 46; 101]).
  { intros q A H1 H2 H3 H4 e' [= <-]. cbn [err_position]. auto. }
  assert (Hsign : exists p1,
     (if c0 =? 45 then ((start + 1)%nat, char_code_at b (start + 1))
      else (start, c0))
     = (p1, char_code_at b p1) /\ (p1 <= length b)%nat
     /\ (p1 = start /\ is_digit (char_code_at b p1) = true
         \/ p1 = (start + 1)%nat /\ char_code_at b start = 45)).
  { destruct (c0 =? 45) eqn:E.
    - exists (start + 1)%nat. apply Z.eqb_eq in E.
      assert (start < length b)%nat
        by (apply char_code_at_in_range; fold c0; lia).
      repeat split; [lia|]. right. auto.
    - exists start. apply Z.eqb_neq in E.
      destruct Hfirst as [H | H]; [contradiction|].
      assert (start < length b)%nat
        by (apply char_code_at_in_range, is_digit_nonzero, H).
      repeat split; [lia|]. left. auto. }
  destruct Hsign as (p1 & -> & Hp1 & Hcase).
  (* the integer part *)
  match goal with |- (bind ?E _ = _ -> _) =>
    assert (Hint :
      (E = Raise (mkLanguageError source p1 Invalid_number)
       /\ (start < p1)%nat /\ is_digit (char_code_at b p1) = false
       /\ char_code_at b (p1 - 1) = 45)
      \/ exists p2, E = Ok (p2, char_code_at b p2) /\ (p1 < p2)%nat
           /\ (p2 <= length b)%nat)
  end.
  { destruct (char_code_at b p1 =? 48) eqn:E0.
    - right. exists (p1 + 1)%nat. apply Z.eqb_eq in E0.
      assert (p1 < length b)%nat by (apply char_code_at_in_range; lia).
      repeat split; lia.
    - destruct ((49 <=? char_code_at b p1) && (char_code_at b p1 <=? 57)) eqn:E1.
      + right.
        assert (Hd : is_digit (char_code_at b p1) = true)
          by (unfold is_digit; lia).
        destruct (digits_spec b p1 Hd) as (q & -> & Hlt & Hle & _).
        exists q. repeat split; lia.
      + left. assert (Hnd : is_digit (char_code_at b p1) = false)
          by (unfold is_digit; lia).
        destruct Hcase as [(_ & Hd) | (-> & Hm)]; [congruence|].
        repeat split; [lia|exact Hnd|].
        now replace (start + 1 - 1)%nat with start by lia. }
  destruct Hint as [(-> & H1 & H2 & H3) | (p2 & -> & Hp2 & Hp2')]; cbn [bind].
  { apply Hbad; auto. rewrite H3. now left. }
  destruct (char_code_at b p2 =? 46) eqn:Edot; cbn [bind]; [|discriminate].
  apply Z.eqb_eq in Edot.
  assert (Hdotin : (p2 < length b)%nat) by (apply char_code_at_in_range; lia).
  destruct (is_digit (char_code_at b (p2 + 1))) eqn:Efd; cbn [bind].
  2:{ apply Hbad; auto; try lia.
      replace (p2 + 1 - 1)%nat with p2 by lia. rewrite Edot. right. now left. }
  destruct (digits_spec b (p2 + 1) Efd) as (p3 & -> & Hp3 & Hp3' & _).
  cbn [bind].
  destruct (char_code_at b p3 =? 101) eqn:Ee; cbn [bind]; [|discriminate].
  apply Z.eqb_eq in Ee.
  assert (Hein : (p3 < length b)%nat) by (apply char_code_at_in_range; lia).
  assert (Hsign : exists p5,
    (if char_code_at b (p3 + 1) =? 45
     then ((p3 + 1 + 1)%nat, char_code_at b (p3 + 1 + 1))
     else ((p3 + 1)%nat, char_code_at b (p3 + 1)))
    = (p5, char_code_at b p5) /\ (p3 < p5)%nat /\ (p5 <= length b)%nat
    /\ In (char_code_at b (p5 - 1)) [45; 46; 101]).
  { destruct (char_code_at b (p3 + 1) =? 45) eqn:Em.
    - exists (p3 + 1 + 1)%nat. apply Z.eqb_eq in Em.
      assert (p3 + 1 < length b)%nat by (apply char_code_at_in_range; lia).
      repeat split; [lia|lia|].
      replace (p3 + 1 + 1 - 1)%nat with (p3 + 1)%nat by lia. rewrite Em.
      now left.
    - exists (p3 + 1)%nat. repeat split; [lia|lia|].
      replace (p3 + 1 - 1)%nat with p3 by lia. rewrite Ee. right. right.
      now left. }
  destruct Hsign as (p5 & -> & Hp5 & Hp5' & Hprev).
  destruct (is_digit (char_code_at b p5)) eqn:Eed; cbn [bind].
  2:{ apply Hbad; auto; lia. }
  destruct (digits_spec b p5 Eed) as (p6 & -> & _). cbn [bind]. discriminate.
Qed.

Lemma digits_run (body ds tail : str) :
  forall (fuel p : nat),
    skipn p body = ds ++ tail ->
    all_digits ds ->
    is_digit (hd 0 tail) = false ->
    (length ds < fuel)%nat ->
    digits_loop fuel body p (char_code_at body p)
    = Ok ((p + length ds)%nat, hd 0 tail).
Proof.
  induction ds as [|d ds IH]; intros fuel p Hseg Hds Htail Hfuel;
    (destruct fuel as [|fuel]; [simpl in Hfuel; lia|]).
  - simpl in Hseg. rewrite (head_code _ _ _ Hseg). simpl. rewrite Htail.
    now rewrite Nat.add_0_r.
  - inversion Hds as [|? ? Hd Hrest]; subst. cbn [app] in Hseg.
    apply skipn_cons_inv in Hseg as (_ & Hc & Hseg).
    cbn [digits_loop]. rewrite Hc, Hd.
    rewrite (IH fuel (p + 1)%nat Hseg Hrest Htail) by (simpl in Hfuel; lia).
    do 2 f_equal. simpl. lia.
Qed.

(** After one digit at [p], the digits [ds] and something that is not a
    digit: what [digits] returns. *)
Lemma digits_text (body ds tail : str) (d : Z) (p : nat) :
  skipn p body = d :: ds ++ tail ->
  all_digits ds ->
  is_digit (hd 0 tail) = false ->
  digits body p = Ok ((p + 1 + length ds)%nat, hd 0 tail)
  /\ skipn (p + 1 + length ds) body = tail.
Proof.
  intros Hseg Hds Htail. apply skipn_cons_inv in Hseg as (Hlt & _ & Hseg).
  unfold digits. split.
  - apply digits_run; auto.
    apply skipn_app_inv in Hseg as (_ & _ & H). lia.
  - now apply skipn_app_inv in Hseg as (H & _).
Qed.

(** ** The further properties of the lexer *)

(** X1.  [position_after_whitespace] returns an offset at or after the
    one it starts from, and within the source unless it started past
    its end; the character there, if any, is neither whitespace nor the
    start of a comment; and scanning again from that offset stays
    there. *)
Theorem position_after_whitespace_lands (body : str) (start_position : nat) :
  exists p,
    position_after_whitespace body start_position = Ok p
    /\ (start_position <= p)%nat
    /\ (p <= length body \/ p = start_position)%nat
    /\ ((p < length body)%nat -> significant body p)
    /\ position_after_whitespace body p = Ok p.
Proof.
  destruct (position_after_whitespace_total body start_position) as (p & Hp & _).
  exists p. split; [exact Hp|].
  apply whitespace_loop_lands in Hp as (H1 & H2 & H3).
  split; [exact H1|]. split; [exact H2|]. split; [exact H3|].
  now apply whitespace_loop_fixed.
Qed.

(** X2.  A comment is skipped whatever it contains: the scan from the
    [#] gives what the scan from the end of the comment gives, where the
    comment ends at the first line terminator or NUL, or at the end of
    the input. *)
Theorem comment_is_skipped (source : Source) (before text tail : str) :
  body source = before ++ [35] ++ text ++ tail ->
  Forall (fun c => ends_comment c = false) text ->
  match tail with [] => True | t :: _ => ends_comment t = true end ->
  read_token source (length before)
  = read_token source (length before + 1 + length text).
Proof.
  intros Hbody Hok Htail.
  assert (Hseg : skipn (length before) (body source) = 35 :: text ++ tail).
  { rewrite Hbody. apply skipn_length_app. }
  apply skipn_cons_inv in Hseg as (Hlt & Hc & Hseg).
  assert (Hlen : (length text < S (length (body source)))%nat).
  { rewrite Hbody, !length_app. simpl. lia. }
  pose proof (comment_loop_text (body source) text tail
                (S (length (body source))) (length before + 1)
                Hseg Hok Htail Hlen) as Hcomment.
  set (r := (length before + 1 + length text)%nat) in *.
  destruct (position_after_whitespace_total (body source) r) as (q & Hq & _).
  assert (Hpaw : position_after_whitespace (body source) (length before)
                 = Ok q).
  { unfold position_after_whitespace. cbn [whitespace_loop].
    pose proof Hlt as Hlt'.
    apply Nat.ltb_lt in Hlt as ->. cbv zeta. rewrite Hc.
    change (is_whitespace 35) with false. change (35 =? 35) with true.
    cbv iota. rewrite Hcomment. cbn [bind].
    destruct (whitespace_loop_total (length (body source)) (body source) r)
      as (q' & Hq' & _); [subst r; lia|].
    rewrite Hq'. f_equal.
    apply (whitespace_loop_more_fuel _ _ (S (length (body source)))) in Hq';
      [|lia].
    unfold position_after_whitespace in Hq. congruence. }
  unfold read_token. now rewrite Hpaw, Hq.
Qed.

(** X3.  A token returned by [next_token], with or without an explicit
    position, is returned again, with the same cursor after it, by any
    lexer of the same source asked to scan from the start of that
    token. *)
Theorem rescan_from_token_start (lexer : Lexer) (tok : Token) (lexer' : Lexer)
    (reset_position : option nat) :
  next_token lexer reset_position = Ok (tok, lexer') ->
  forall other,
    source other = source lexer ->
    next_token other (Some (start tok)) = Ok (tok, lexer').
Proof.
  unfold next_token. intros H other Hsrc. rewrite Hsrc.
  destruct (read_token (source lexer) _) as [t| |] eqn:Hrt; cbn [bind] in H;
    try discriminate.
  injection H as <- <-.
  rewrite (read_token_resume _ _ _ (read_token_start _ _ _ Hrt)), Hrt.
  reflexivity.
Qed.

(** X4.  What the tokens of [read_token] look like: never a VARIABLE;
    a value exactly for NAME, INT, FLOAT and STRING, whose tokens end
    at most one past the end of the source, and within it unless
    STRING; the tokens without a value have the width of their kind;
    EOF sits at the end of the source (or at the offset the scan started
    from, when that is farther); SPREAD and the punctuators lie in the
    source, the punctuators at the character of their kind. *)
Theorem token_shape (source : Source) (from_position : nat) (tok : Token) :
  read_token source from_position = Ok tok ->
  kind tok <> VARIABLE
  /\ (start tok <= end_ tok)%nat
  /\ if carries_value (kind tok)
     then (exists v, value tok = Some v)
          /\ (end_ tok <= length (body source) + 1)%nat
          /\ (kind tok <> STRING -> (end_ tok <= length (body source))%nat)
     else value tok = None
          /\ end_ tok = (start tok + width (kind tok))%nat
          /\ match kind tok with
             | EOF => start tok = Nat.max from_position (length (body source))
             | SPREAD => (end_ tok <= length (body source))%nat
             | k => (end_ tok <= length (body source))%nat
                    /\ dict_get PUNCT_CODE_TO_KIND
                         (char_code_at (body source) (start tok)) = Some k
             end.
Proof.
  intros Hrt.
  destruct (read_token_dispatch source from_position) as (p & Hpaw & Hfrom & Hd).
  apply whitespace_loop_lands in Hpaw as (_ & Hland & _).
  rewrite Hrt in Hd. inversion Hd as
    [Hend Heq | k Hin Heq | H1 H2 H3 Heq | | Hn Heq | Hn Heq | Hq Heq | ];
    subst.
  - cbn [kind start end_ value carries_value width].
    repeat split; try discriminate; lia.
  - assert (Hp : (p < length (body source))%nat).
    { apply char_code_at_in_range. intros H0. rewrite H0 in Hin.
      simpl in Hin.
      repeat (destruct Hin as [[= ] | Hin]). destruct Hin. }
    simpl in Hin.
    repeat (destruct Hin as [[= Hc <-] | Hin];
            [cbn [kind start end_ value carries_value width];
             rewrite <- Hc;
             repeat split; try discriminate; try lia; try reflexivity|]).
    destruct Hin.
  - assert (Hp : (p + 2 < length (body source))%nat)
      by (apply char_code_at_in_range; lia).
    cbn [kind start end_ value carries_value width].
    repeat split; try discriminate; lia.
  - destruct (read_name_spec source p) as (q & Hq & Hlt).
    rewrite Hq in Heq. injection Heq as <-.
    unfold read_name in Hq.
    destruct (name_loop _ _ _) as [q'| |] eqn:Hloop; cbn [bind] in Hq;
      try discriminate.
    injection Hq as <-. apply name_loop_spec in Hloop as (_ & Hb & _).
    assert (Hp : (p < length (body source))%nat).
    { apply char_code_at_in_range. intros H0. rewrite H0 in Hn. discriminate. }
    cbn [kind start end_ value carries_value].
    repeat split; try discriminate; eauto; lia.
  - apply read_number_spec in Heq as (Hs & Hlt & Hle & Hv & Hnt).
    apply number_text_kind in Hnt. rewrite Hs.
    destruct Hnt as [-> | ->]; cbn [carries_value];
      repeat split; try discriminate; eauto; lia.
  - pose proof (read_string_bounds source p Hq) as Hb. rewrite Heq in Hb.
    destruct Hb as (-> & -> & Hlt & Hle & Hv).
    cbn [carries_value]. repeat split; try discriminate; auto; try lia.
    congruence.
Qed.

(** X5.  A NAME token is the longest run of name characters at its
    start: its value is the text of its span, which lies in the source,
    starts with a letter or an underscore and goes on with letters,
    digits and underscores, and the character after it is none of
    these. *)
Theorem name_token_is_longest_run (source : Source) (from_position : nat)
    (tok : Token) :
  read_token source from_position = Ok tok ->
  kind tok = NAME ->
  (end_ tok <= length (body source))%nat
  /\ value tok = Some (slice (body source) (start tok) (end_ tok))
  /\ (exists c rest,
        slice (body source) (start tok) (end_ tok) = c :: rest
        /\ is_name_start c = true
        /\ Forall (fun c => is_name_char c = true) rest)
  /\ is_name_char (char_code_at (body source) (end_ tok)) = false.
Proof.
  intros Hrt Hk.
  destruct (read_token_dispatch source from_position) as (p & _ & _ & Hd).
  rewrite Hrt in Hd. inversion Hd as
    [Hend Heq | k Hin Heq | H1 H2 H3 Heq | | Hn Heq | Hn Heq | Hq Heq | ];
    subst; simpl in Hk; try discriminate.
  - simpl in Hin.
    repeat (destruct Hin as [[= _ <-] | Hin]; [discriminate|]). destruct Hin.
  - unfold read_name in Heq.
    destruct (name_loop _ _ _) as [q| |] eqn:Hloop; cbn [bind] in Heq;
      try discriminate.
    injection Heq as <-. cbn [start end_ value].
    apply name_loop_spec in Hloop as (Hle & Hq & Hall & Hstop).
    assert (Hlt : (p < length (body source))%nat).
    { apply char_code_at_in_range. intros H0. rewrite H0 in Hn. discriminate. }
    repeat split; [lia| |exact Hstop].
    exists (char_code_at (body source) p), (slice (body source) (p + 1) q).
    rewrite <- (slice_app (body source) p (p + 1) q) by lia.
    rewrite slice_one by exact Hlt. auto.
  - apply read_number_spec in Heq as (_ & _ & _ & _ & Hnt).
    rewrite Hk in Hnt. inversion Hnt.
  - destruct (read_string_spec source p) as [[e He] | (q & v & He & _)];
      rewrite He in Heq; [discriminate|].
    injection Heq as <-. discriminate.
Qed.

(** X6.  A text of the grammar of numbers is lexed as one token of its
    kind, with the text as its value, when what follows in the source
    is neither a digit, a dot nor an [e]. *)
Theorem number_text_is_lexed (source : Source) (before text rest : str)
    (k : TokenKind) :
  body source = before ++ text ++ rest ->
  number_text k text ->
  ends_number rest ->
  read_token source (length before)
  = Ok (mkToken k (length before) (length before + length text) (Some text)).
Proof.
  intros Hbody Hnt (Hr1 & Hr2 & Hr3).
  set (b := body source) in *. set (p0 := length before).
  assert (Hseg : skipn p0 b = text ++ rest)
    by (rewrite Hbody; apply skipn_length_app).
  assert (Hslice : slice b p0 (p0 + length text) = text)
    by (now apply skipn_app_inv in Hseg as (_ & H & _)).
  (* the parts of the text: sign, integer part, and the rest of it *)
  assert (Hparts : exists sg i fe,
    text = sg ++ i ++ fe /\ sign_part sg /\ int_part i
    /\ (k = INT /\ fe = []
        \/ k = FLOAT /\ exists f e, fe = f ++ e /\ frac_part f /\ exp_part e)).
  { destruct Hnt as [sg i Hsg Hi | sg i f e Hsg Hi Hf He].
    - exists sg, i, []. rewrite app_nil_r. repeat split; auto.
    - exists sg, i, (f ++ e). repeat split; auto.
      right. split; [reflexivity|]. exists f, e. auto. }
  destruct Hparts as (sg & i & fe & -> & Hsg & Hi & Hk).
  rewrite <- !app_assoc in Hseg.
  assert (Hidigit : is_digit (hd 0 (i ++ fe ++ rest)) = true).
  { destruct Hi as [-> | (d & ds & -> & Hd & _)]; simpl; [reflexivity|].
    unfold is_digit. lia. }
  assert (Hfe : is_digit (hd 0 (fe ++ rest)) = false).
  { destruct Hk as [(_ & ->) | (_ & f & e & -> & (d & ds & -> & _) & _)];
      simpl; auto. }
  rewrite read_token_at_number.
  2:{ fold b p0. rewrite (head_code _ _ _ Hseg).
      destruct Hsg as [-> | ->]; simpl; auto. }
  fold b p0. unfold read_number. fold b.
  (* the sign *)
  set (p1 := (p0 + length sg)%nat).
  assert (Hs1 : skipn p1 b = i ++ fe ++ rest)
    by (now apply skipn_app_inv in Hseg as (H & _)).
  assert (Hsign :
    (if char_code_at b p0 =? 45
     then ((p0 + 1)%nat, char_code_at b (p0 + 1))
     else (p0, char_code_at b p0))
    = (p1, hd 0 (i ++ fe ++ rest))).
  { subst p1. rewrite (head_code _ _ _ Hseg).
    destruct Hsg as [-> | ->]; cbn [app hd length] in *.
    - rewrite Nat.add_0_r in *.
      destruct (hd 0 (i ++ fe ++ rest) =? 45) eqn:E; [|reflexivity].
      unfold is_digit in Hidigit. lia.
    - change (45 =? 45) with true. cbv iota.
      now rewrite (head_code _ _ _ Hs1). }
  rewrite Hsign. clear Hsign.
  (* the integer part *)
  set (p2 := (p1 + length i)%nat).
  assert (Hs2 : skipn p2 b = fe ++ rest)
    by (now apply skipn_app_inv in Hs1 as (H & _)).
  match goal with |- bind ?E _ = _ =>
    assert (Hint : E = Ok (p2, hd 0 (fe ++ rest)))
  end.
  { subst p2. destruct Hi as [-> | (d & ds & -> & Hd & Hds)];
      cbn [app hd length] in *.
    - change (48 =? 48) with true. cbv iota. now rewrite (head_code _ _ _ Hs2).
    - assert (E0 : (d =? 48) = false) by lia. rewrite E0.
      assert (E1 : (49 <=? d) && (d <=? 57) = true) by lia. rewrite E1.
      destruct (digits_text b ds (fe ++ rest) d p1 Hs1 Hds Hfe) as (-> & _).
      now replace (p1 + S (length ds))%nat with (p1 + 1 + length ds)%nat
        by lia. }
  rewrite Hint. clear Hint. cbn [bind].
  destruct Hk as [(-> & ->) | (-> & f & e & -> & (d & ds & -> & Hf) & He)].
  { (* an Int *)
    cbn [app] in *. apply Z.eqb_neq in Hr2 as ->. cbn [bind].
    rewrite app_nil_r in *.
    match type of Hslice with slice _ _ ?q = _ =>
      replace p2 with q by (subst p2 p1; rewrite length_app; lia)
    end.
    now rewrite Hslice. }
  (* the fraction *)
  cbn [app hd] in *. change (46 =? 46) with true. cbv iota.
  rewrite <- !app_assoc in Hs2. cbn [app] in Hs2.
  apply skipn_cons_inv in Hs2 as (_ & _ & Hs3).
  inversion Hf as [|? ? Hd Hds]; subst.
  assert (He0 : is_digit (hd 0 (e ++ rest)) = false).
  { destruct He as [-> | (sg' & d' & ds' & -> & _)]; simpl; auto. }
  rewrite (head_code _ _ _ Hs3). cbn [hd]. rewrite Hd.
  destruct (digits_text b ds (e ++ rest) d (p2 + 1) Hs3 Hds He0)
    as (-> & Hs4).
  cbn [bind]. set (p3 := (p2 + 1 + 1 + length ds)%nat) in *.
  (* the exponent *)
  destruct He as [-> | (sg' & d' & ds' & -> & Hsg' & He)].
  { cbn [app] in *. apply Z.eqb_neq in Hr3 as ->. cbn [bind].
    rewrite app_nil_r in *.
    match type of Hslice with slice _ _ ?q = _ =>
      replace p3 with q
        by (subst p3 p2 p1; rewrite !length_app; simpl; lia)
    end.
    now rewrite Hslice. }
  cbn [app hd] in *. change (101 =? 101) with true. cbv iota.
  rewrite <- !app_assoc in Hs4. cbn [app] in Hs4.
  apply skipn_cons_inv in Hs4 as (_ & _ & Hs5).
  inversion He as [|? ? Hd' Hds']; subst.
  set (p5 := (p3 + 1 + length sg')%nat).
  assert (Hs6 : skipn p5 b = d' :: ds' ++ rest).
  { now apply skipn_app_inv in Hs5 as (H & _). }
  assert (Hsign :
    (if char_code_at b (p3 + 1) =? 45
     then ((p3 + 1 + 1)%nat, char_code_at b (p3 + 1 + 1))
     else ((p3 + 1)%nat, char_code_at b (p3 + 1)))
    = (p5, d')).
  { subst p5. rewrite (head_code _ _ _ Hs5).
    destruct Hsg' as [-> | ->]; cbn [app hd length] in *.
    - rewrite Nat.add_0_r in *.
      destruct (d' =? 45) eqn:E; [unfold is_digit in Hd'; lia|reflexivity].
    - change (45 =? 45) with true. cbv iota.
      now rewrite (head_code _ _ _ Hs6). }
  rewrite Hsign. clear Hsign. rewrite Hd'.
  destruct (digits_text b ds' rest d' p5 Hs6 Hds' Hr1) as (-> & _).
  cbn [bind].
  match type of Hslice with slice _ _ ?q = _ =>
    replace (p5 + 1 + length ds')%nat with q
  end.
  2:{ subst p5 p3 p2 p1.
      repeat (progress (rewrite ?length_app; cbn [length])). lia. }
  now rewrite Hslice.
Qed.

(** X7.  [Invalid number] is raised only after a minus sign, a dot or
    an [e], at a character that is not a digit. *)
Theorem invalid_number_location (source : Source) (from_position : nat)
    (e : LanguageError) :
  read_token source from_position = Raise e ->
  err_message e = Invalid_number ->
  (0 < err_position e)%nat
  /\ is_digit (char_code_at (body source) (err_position e)) = false
  /\ In (char_code_at (body source) (err_position e - 1)) [45; 46; 101].
Proof.
  intros Hrt Hmsg.
  destruct (read_token_dispatch source from_position) as (p & _ & Hle & Hd).
  rewrite Hrt in Hd. inversion Hd as
    [ | | | Hdot Hnot Heq | Hn Heq | Hn Heq | Hq Heq
      | Hin Hp Hnd Hnn Hnm Hndg Hnq Heq]; subst; cbn [err_message] in Hmsg;
    try discriminate.
  - destruct (read_name_spec source p) as (q & Hq & _). congruence.
  - apply read_number_error in Heq as (_ & H1 & H2 & H3 & H4); [|exact Hn].
    repeat split; [lia|exact H3|exact H4].
  - pose proof (read_string_bounds source p Hq) as Hb. rewrite Heq in Hb.
    destruct Hb as (_ & _ & _ & [H | (H & _)]); congruence.
Qed.

(** X8.  [uni_char_code] is negative as soon as one of its four
    arguments is not a hexadecimal digit, and otherwise the number that
    the four digits write in base 16, between 0 and 65535. *)
Theorem uni_char_code_decodes (a b c d : Z) :
  match hex_value a, hex_value b, hex_value c, hex_value d with
  | Some x, Some y, Some z, Some w =>
      uni_char_code a b c d = 4096 * x + 256 * y + 16 * z + w
      /\ 0 <= uni_char_code a b c d <= 65535
  | _, _, _, _ => uni_char_code a b c d < 0
  end.
Proof. apply uni_char_code_hex. Qed.

(** X9.  A well-formed string lexes to the decoded text of its
    elements (a plain character for itself, an escape for its entry in
    [ESCAPED_CHAR_CODES], a [u] escape for the code point its four
    digits write); the token spans the two quotes and what is between
    them. *)
Theorem read_string_decodes (source : Source) (before after : str)
    (es : list string_element) :
  body source = before ++ [34] ++ encode es ++ [34] ++ after ->
  Forall element_ok es ->
  read_token source (length before)
  = Ok (mkToken STRING (length before)
          (length before + length (encode es) + 2) (Some (decode es))).
Proof.
  intros Hbody Hok.
  destruct (read_string_elements source before ([34] ++ after) es Hbody Hok)
    as (fuel & st & Hloop & Hq & Htail & Hp & Hchunk & Hv & Hcode).
  rewrite (read_token_at_quote _ _ Hq). unfold read_string. rewrite Hloop.
  apply skipn_cons_inv in Htail as (Hlt & Hc & _).
  cbn [string_loop]. cbv zeta. apply Nat.ltb_lt in Hlt as ->. rewrite Hc.
  change (ends_string 34) with true. cbv iota. cbn [bind ss_code ss_position
    ss_value ss_chunk_start]. change (34 =? 34) with true. cbn [negb].
  rewrite Hv, Hp.
  now replace (length before + 1 + length (encode es) + 1)%nat
    with (length before + length (encode es) + 2)%nat by lia.
Qed.

(** X10.  A string that runs into a line terminator, a NUL or the end
    of the input is an [Unterminated string] error at that offset;
    at the end of the input this needs the last element not to be an
    escaped quote. *)
Theorem read_string_unterminated (source : Source) (before tail : str)
    (es : list string_element) :
  body source = before ++ [34] ++ encode es ++ tail ->
  Forall element_ok es ->
  match tail with
  | [] => last es <> Some (Escape 34)
  | t :: _ => ends_string t = true /\ t <> 34
  end ->
  read_token source (length before)
  = Raise (mkLanguageError source (length before + 1 + length (encode es))
             Unterminated_string).
Proof.
  intros Hbody Hok Htl.
  destruct (read_string_elements source before tail es Hbody Hok)
    as (fuel & st & Hloop & Hq & Htail & Hp & Hchunk & Hv & Hcode).
  rewrite (read_token_at_quote _ _ Hq). unfold read_string. rewrite Hloop.
  cbn [string_loop]. cbv zeta. destruct tail as [|t tail].
  - assert (Hend : (length (body source) <= ss_position st)%nat).
    { destruct (Nat.le_gt_cases (length (body source)) (ss_position st));
        [assumption|].
      apply (f_equal (@length Z)) in Htail. rewrite length_skipn in Htail.
      simpl in Htail. lia. }
    apply Nat.ltb_ge in Hend as ->. cbn [bind]. rewrite Hcode, Hp.
    apply (code_after_quote es Hok) in Htl.
    destruct (code_after es None) as [c|]; [|reflexivity].
    destruct (c =? 34) eqn:E; [|reflexivity].
    apply Z.eqb_eq in E. congruence.
  - destruct Htl as (Hend & Hne).
    apply skipn_cons_inv in Htail as (Hlt & Hc & _).
    apply Nat.ltb_lt in Hlt as ->. rewrite Hc, Hend.
    cbn [bind ss_code ss_position]. apply Z.eqb_neq in Hne as ->.
    cbn [negb]. now rewrite Hp.
Qed.

(** X11.  In a string, a backslash that is followed neither by one of
    the escaped characters nor by [u] and four hexadecimal digits is a
    [Bad character escape sequence] error at the offset after the
    backslash. *)
Theorem read_string_bad_escape (source : Source) (before tail : str)
    (es : list string_element) :
  body source = before ++ [34] ++ encode es ++ [92] ++ tail ->
  Forall element_ok es ->
  let p := (length before + 1 + length (encode es) + 1)%nat in
  dict_get ESCAPED_CHAR_CODES (char_code_at (body source) p) = None ->
  (char_code_at (body source) p = 117 ->
   hex_value (char_code_at (body source) (p + 1)) = None
   \/ hex_value (char_code_at (body source) (p + 2)) = None
   \/ hex_value (char_code_at (body source) (p + 3)) = None
   \/ hex_value (char_code_at (body source) (p + 4)) = None) ->
  read_token source (length before)
  = Raise (mkLanguageError source p Bad_character_escape_sequence).
Proof.
  intros Hbody Hok p Hesc Hhex.
  destruct (read_string_elements source before ([92] ++ tail) es Hbody Hok)
    as (fuel & st & Hloop & Hq & Htail & Hp & Hchunk & Hv & Hcode).
  rewrite (read_token_at_quote _ _ Hq). unfold read_string. rewrite Hloop.
  apply skipn_cons_inv in Htail as (Hlt & Hc & _).
  cbn [string_loop]. cbv zeta. apply Nat.ltb_lt in Hlt as ->. rewrite Hc.
  change (ends_string 92) with false. change (92 =? 92) with true. cbv iota.
  rewrite Hp. fold p. rewrite Hesc.
  destruct (char_code_at (body source) p =? 117) eqn:Eu; [|reflexivity].
  apply Z.eqb_eq in Eu. specialize (Hhex Eu).
  pose proof (uni_char_code_hex (char_code_at (body source) (p + 1))
                (char_code_at (body source) (p + 2))
                (char_code_at (body source) (p + 3))
                (char_code_at (body source) (p + 4))) as Hu.
  match goal with |- context [?u <? 0] =>
    assert (Hneg : u < 0)
  end.
  { destruct Hhex as [H | [H | [H | H]]]; rewrite H in Hu;
      repeat match type of Hu with match ?x with _ => _ end => destruct x end;
      exact Hu. }
  apply Z.ltb_lt in Hneg as ->. reflexivity.
Qed.

(** X12.  [Unexpected character] is raised at the first significant
    character, carries that character, and is raised only when no token
    starts with it: it is no punctuator, letter, underscore, digit,
    minus sign or quote, and if it is a dot, two dots do not follow. *)
Theorem unexpected_character_location (source : Source) (from_position : nat)
    (e : LanguageError) (c : Z) :
  read_token source from_position = Raise e ->
  err_message e = Unexpected_character c ->
  position_after_whitespace (body source) from_position = Ok (err_position e)
  /\ (err_position e < length (body source))%nat
  /\ c = char_code_at (body source) (err_position e)
  /\ dict_get PUNCT_CODE_TO_KIND c = None
  /\ is_name_start c = false /\ is_digit c = false /\ c <> 45 /\ c <> 34
  /\ (c = 46 ->
      ~ (char_code_at (body source) (err_position e + 1) = 46
         /\ char_code_at (body source) (err_position e + 2) = 46)).
Proof.
  intros Hrt Hmsg.
  destruct (read_token_dispatch source from_position) as (p & Hp & Hle & Hd).
  rewrite Hrt in Hd. inversion Hd as
    [ | | | Hdot Hnot Heq | Hn Heq | Hn Heq | Hq Heq
      | Hin Hpu Hnd Hnn Hnm Hndg Hnq Heq]; subst;
    cbn [err_message err_position] in *.
  - injection Hmsg as <-.
    assert (p < length (body source))%nat
      by (apply char_code_at_in_range; lia).
    repeat split; auto; try discriminate.
  - destruct (read_name_spec source p) as (q & Hq & _). congruence.
  - apply read_number_error in Heq as (He & _); [|exact Hn].
    rewrite He in Hmsg. discriminate.
  - pose proof (read_string_bounds source p Hq) as Hb. rewrite Heq in Hb.
    destruct Hb as (_ & _ & _ & [H | (H & _)]); congruence.
  - injection Hmsg as <-. repeat split; auto.
Qed.

(** X13.  An error of the lexer carries the source it was found in and
    an offset of that source, at or after the offset the scan started
    from and at most the length of the source. *)
Theorem lexical_error_location (source : Source) (from_position : nat)
    (e : LanguageError) :
  read_token source from_position = Raise e ->
  err_source e = source
  /\ (from_position <= err_position e)%nat
  /\ (err_position e <= length (body source))%nat.
Proof.
  intros Hrt.
  destruct (read_token_dispatch source from_position) as (p & _ & Hle & Hd).
  rewrite Hrt in Hd. inversion Hd as
    [ | | | Hdot Hnot Heq | Hn Heq | Hn Heq | Hq Heq
      | Hin Hp Hnd Hnn Hnm Hndg Hnq Heq]; subst; cbn [err_source err_position].
  - assert (p < length (body source))%nat
      by (apply char_code_at_in_range; lia).
    repeat split; lia.
  - destruct (read_name_spec source p) as (q & Hq & _). congruence.
  - apply read_number_error in Heq as (-> & H1 & H2 & _); [|exact Hn].
    cbn [err_source err_position] in *. split; [reflexivity|lia].
  - pose proof (read_string_bounds source p Hq) as Hb. rewrite Heq in Hb.
    destruct Hb as (H1 & H2 & H3 & _). repeat split; [exact H1|lia|lia].
  - repeat split; lia.
Qed.

(** ** The further properties at concrete inputs *)

Lemma position_after_whitespace_lands_witness :
  (2 < length (text "  x"))%nat /\ significant (text "  x") 2.
Proof.
  split; [simpl; lia|].
  destruct (position_after_whitespace_lands (text "  x") 0)
    as (p & Hp & _ & _ & Hs & _).
  injection Hp as <-. apply Hs. simpl. lia.
Defined.

Lemma comment_is_skipped_witness :
  body (mkSource [35; 32; 97; 10; 98] []) = [] ++ [35] ++ [32; 97] ++ [10; 98]
  /\ read_token (mkSource [35; 32; 97; 10; 98] []) 0
     = read_token (mkSource [35; 32; 97; 10; 98] []) 3.
Proof.
  split; [reflexivity|].
  apply (comment_is_skipped (mkSource [35; 32; 97; 10; 98] []) []
           [32; 97] [10; 98]).
  - reflexivity.
  - repeat constructor.
  - reflexivity.
Defined.

Lemma rescan_from_token_start_witness :
  next_token (Lexer_init (src "  foo bar")) None
  = Ok (mkToken NAME 2 5 (Some (text "foo")), mkLexer (src "  foo bar") 5)
  /\ next_token (mkLexer (src "  foo bar") 9) (Some 2%nat)
     = Ok (mkToken NAME 2 5 (Some (text "foo")), mkLexer (src "  foo bar") 5).
Proof.
  split; [reflexivity|].
  apply (rescan_from_token_start (Lexer_init (src "  foo bar"))
           (mkToken NAME 2 5 (Some (text "foo")))
           (mkLexer (src "  foo bar") 5) None); reflexivity.
Defined.

Lemma token_shape_witness :
  read_token (src "{ a }") 0 = Ok (mkToken BRACE_L 0 1 None)
  /\ BRACE_L <> VARIABLE
  /\ (0 <= 1)%nat
  /\ None = @None str
  /\ 1%nat = (0 + width BRACE_L)%nat
  /\ (1 <= length (body (src "{ a }")))%nat
  /\ dict_get PUNCT_CODE_TO_KIND (char_code_at (body (src "{ a }")) 0)
     = Some BRACE_L.
Proof.
  split; [reflexivity|].
  apply (token_shape (src "{ a }") 0%nat (mkToken BRACE_L 0 1 None)).
  reflexivity.
Defined.

Lemma name_token_is_longest_run_witness :
  read_token (src "foo bar") 0 = Ok (mkToken NAME 0 3 (Some (text "foo")))
  /\ (3 <= length (body (src "foo bar")))%nat
  /\ Some (text "foo") = Some (slice (body (src "foo bar")) 0 3)
  /\ (exists c rest,
        slice (body (src "foo bar")) 0 3 = c :: rest
        /\ is_name_start c = true
        /\ Forall (fun c => is_name_char c = true) rest)
  /\ is_name_char (char_code_at (body (src "foo bar")) 3) = false.
Proof.
  split; [reflexivity|].
  apply (name_token_is_longest_run (src "foo bar") 0%nat
           (mkToken NAME 0 3 (Some (text "foo")))); reflexivity.
Defined.

Lemma number_text_is_lexed_witness :
  body (src "x -1.5e3 y") = text "x " ++ text "-1.5e3" ++ text " y"
  /\ read_token (src "x -1.5e3 y") 2
     = Ok (mkToken FLOAT 2 8 (Some (text "-1.5e3"))).
Proof.
  split; [reflexivity|].
  apply (number_text_is_lexed (src "x -1.5e3 y") (text "x ") (text "-1.5e3")
           (text " y") FLOAT).
  - reflexivity.
  - apply (number_float [45] [49] [46; 53] [101; 51]).
    + right. reflexivity.
    + right. exists 49, []. split; [reflexivity|]. split; [lia|constructor].
    + exists 53, []. split; [reflexivity|]. repeat constructor.
    + right. exists [], 51, []. split; [reflexivity|].
      split; [left; reflexivity|repeat constructor].
  - split; [reflexivity|]. split; discriminate.
Defined.

Lemma invalid_number_location_witness :
  read_token (src "1.x") 0
  = Raise (mkLanguageError (src "1.x") 2 Invalid_number)
  /\ (0 < 2)%nat
  /\ is_digit (char_code_at (body (src "1.x")) 2) = false
  /\ In (char_code_at (body (src "1.x")) (2 - 1)) [45; 46; 101].
Proof.
  split; [reflexivity|].
  apply (invalid_number_location (src "1.x") 0%nat
           (mkLanguageError (src "1.x") 2 Invalid_number)); reflexivity.
Defined.

Lemma read_string_decodes_witness :
  body (mkSource (34 :: encode [Plain 97; Escape 110; Unicode 48 48 52 49]
                    ++ [34]) [])
  = [] ++ [34] ++ encode [Plain 97; Escape 110; Unicode 48 48 52 49]
      ++ [34] ++ []
  /\ read_token
       (mkSource (34 :: encode [Plain 97; Escape 110; Unicode 48 48 52 49]
                    ++ [34]) []) 0
     = Ok (mkToken STRING 0 11 (Some [97; 10; 65])).
Proof.
  split; [reflexivity|].
  apply (read_string_decodes
           (mkSource (34 :: encode [Plain 97; Escape 110; Unicode 48 48 52 49]
                        ++ [34]) [])
           [] [] [Plain 97; Escape 110; Unicode 48 48 52 49]).
  - reflexivity.
  - repeat constructor; vm_compute; discriminate.
Defined.

Lemma read_string_unterminated_witness :
  body (mkSource [34; 97; 98] []) = [] ++ [34] ++ encode [Plain 97; Plain 98] ++ []
  /\ read_token (mkSource [34; 97; 98] []) 0
     = Raise (mkLanguageError (mkSource [34; 97; 98] []) 3 Unterminated_string).
Proof.
  split; [reflexivity|].
  apply (read_string_unterminated (mkSource [34; 97; 98] []) [] []
           [Plain 97; Plain 98]).
  - reflexivity.
  - repeat constructor; vm_compute; discriminate.
  - discriminate.
Defined.

Lemma read_string_bad_escape_witness :
  body (mkSource [34; 97; 92; 120; 34] [])
  = [] ++ [34] ++ encode [Plain 97] ++ [92] ++ [120; 34]
  /\ read_token (mkSource [34; 97; 92; 120; 34] []) 0
     = Raise (mkLanguageError (mkSource [34; 97; 92; 120; 34] []) 3
                Bad_character_escape_sequence).
Proof.
  split; [reflexivity|].
  apply (read_string_bad_escape (mkSource [34; 97; 92; 120; 34] []) []
           [120; 34] [Plain 97]).
  - reflexivity.
  - repeat constructor; vm_compute; discriminate.
  - reflexivity.
  - vm_compute. discriminate.
Defined.

Lemma unexpected_character_location_witness :
  read_token (src "  ?") 0
  = Raise (mkLanguageError (src "  ?") 2 (Unexpected_character 63))
  /\ position_after_whitespace (body (src "  ?")) 0 = Ok 2%nat
  /\ (2 < length (body (src "  ?")))%nat
  /\ 63 = char_code_at (body (src "  ?")) 2.
Proof.
  split; [reflexivity|].
  destruct (unexpected_character_location (src "  ?") 0%nat
              (mkLanguageError (src "  ?") 2 (Unexpected_character 63)) 63
              eq_refl eq_refl) as (H1 & H2 & H3 & _).
  exact (conj H1 (conj H2 H3)).
Defined.

Lemma lexical_error_location_witness :
  read_token (src "a .. b") 1
  = Raise (mkLanguageError (src "a .. b") 2 (Unexpected_character 46))
  /\ src "a .. b" = src "a .. b"
  /\ (1 <= 2)%nat
  /\ (2 <= length (body (src "a .. b")))%nat.
Proof.
  split; [reflexivity|].
  apply (lexical_error_location (src "a .. b") 1%nat
           (mkLanguageError (src "a .. b") 2 (Unexpected_character 46))).
  reflexivity.
Defined.

End LexerTheory.

(* ===================================================================== *)
(** * Part IV: properties of the validation framework                     *)
(* ===================================================================== *)

Module ValidationTheory.
Import Validation.

(** ** The fragment index *)

Section Fragments.
Context {GraphQLSchema : Type}.

Lemma find_app {A : Type} (f : A -> bool) (l1 l2 : list A) :
  find f (l1 ++ l2)
  = match find f l1 with Some x => Some x | None => find f l2 end.
Proof.
  induction l1 as [|x l1 IH]; simpl; [reflexivity|].
  destruct (f x); [reflexivity|exact IH].
Qed.

Lemma record_fragment_lookup (fragments : gmap string Node) (statement : Node)
    (name : string) :
  record_fragment fragments statement !! name
  = if defines name statement then Some statement else fragments !! name.
Proof.
  unfold record_fragment, defines.
  destruct (isinstance statement FragmentDefinition); simpl; [|reflexivity].
  destruct (String.eqb (name_value statement) name) eqn:E.
  - apply String.eqb_eq in E. subst. apply lookup_insert_eq.
  - apply String.eqb_neq in E. now apply lookup_insert_ne.
Qed.

Lemma fold_record_fragment_lookup (statements : list Node)
    (fragments : gmap string Node) (name : string) :
  fold_left record_fragment statements fragments !! name
  = match find (defines name) (rev statements) with
    | Some statement => Some statement
    | None => fragments !! name
    end.
Proof.
  revert fragments. induction statements as [|s l IH]; intros fragments;
    simpl; [reflexivity|].
  rewrite IH, find_app. destruct (find (defines name) (rev l)); [reflexivity|].
  simpl. rewrite record_fragment_lookup. now destruct (defines name s).
Qed.

Lemma fragment_index_lookup (ast : Node) (name : string) :
  fragment_index ast !! name = find (defines name) (rev (definitions ast)).
Proof.
  unfold fragment_index. rewrite fold_record_fragment_lookup.
  now destruct (find _ _).
Qed.

Lemma get_fragment_cached (self : @ValidationContext GraphQLSchema)
    (cache : gmap string Node) (name : string) :
  _fragments self = Some cache -> get_fragment self name = (cache !! name, self).
Proof. intros H. unfold get_fragment. now rewrite H. Qed.

Lemma get_fragments_cached (self : @ValidationContext GraphQLSchema)
    (cache : gmap string Node) (names : list string) :
  _fragments self = Some cache ->
  get_fragments self names = (map (fun n => cache !! n) names, self).
Proof.
  intros H. induction names as [|n names IH]; simpl; [reflexivity|].
  now rewrite (get_fragment_cached self cache n H), IH.
Qed.

(** On a fresh context the loop over the definitions has run exactly
    once after any number of calls, at least one. *)
Lemma get_fragments_scan_once (schema : GraphQLSchema) (ast : Node)
    (type_info : TypeInfo) (name : string) (names : list string) :
  scans (snd (get_fragments (ValidationContext_init schema ast type_info)
                (name :: names))) = 1%nat.
Proof.
  cbn [get_fragments]. unfold get_fragment at 1. cbn [ValidationContext_init _fragments].
  match goal with |- context [get_fragments ?c names] =>
    rewrite (get_fragments_cached c (fragment_index ast) names) by reflexivity
  end.
  reflexivity.
Qed.

(** C8.  On any context, a call of [get_fragment] returns the entry of
    the cache for the name; the cache is the one the context already
    had, or, on the first call, the index built by one run of the loop
    over the top-level definitions of the document ([scans] grows by
    one).  Every later call, for any names, returns the entry of that
    same cache and leaves the context as it is: the cache is not
    rebuilt and [scans] does not grow. *)
Theorem get_fragment_memoized (self : @ValidationContext GraphQLSchema)
    (name : string) (names : list string) :
  let cache :=
    match _fragments self with
    | Some fragments => fragments
    | None => fragment_index (_ast self)
    end in
  let self' := snd (get_fragment self name) in
  fst (get_fragment self name) = cache !! name
  /\ _fragments self' = Some cache
  /\ scans self' = (scans self
                    + match _fragments self with None => 1 | Some _ => 0 end)%nat
  /\ get_fragments self' names = (map (fun n => cache !! n) names, self').
Proof.
  intros cache self'.
  assert (H : fst (get_fragment self name) = cache !! name
              /\ _fragments self' = Some cache
              /\ scans self' = (scans self
                    + match _fragments self with None => 1 | Some _ => 0 end)%nat).
  { subst cache self'. unfold get_fragment.
    destruct (_fragments self) eqn:E; simpl; repeat split; auto; lia. }
  destruct H as (H1 & H2 & H3). repeat split; auto.
  now apply get_fragments_cached.
Qed.

(** C10.  On a fresh context [get_fragment name] returns the first
    [FragmentDefinition] named [name] met when the top-level definitions
    are read from the last to the first: [None], with no exception, when
    no definition has that name, and the last one in document order when
    several have it. *)
Theorem get_fragment_last_definition (schema : GraphQLSchema) (ast : Node)
    (type_info : TypeInfo) (name : string) :
  let found := fst (get_fragment (ValidationContext_init schema ast type_info) name) in
  found = find (defines name) (rev (definitions ast))
  /\ (forallb (fun s => negb (defines name s)) (definitions ast) = true ->
      found = None)
  /\ (forall before d after,
        definitions ast = before ++ d :: after ->
        defines name d = true ->
        forallb (fun s => negb (defines name s)) after = true ->
        found = Some d).
Proof.
  intros found.
  assert (H : found = find (defines name) (rev (definitions ast))).
  { subst found. unfold get_fragment. simpl. apply fragment_index_lookup. }
  split; [exact H|]. rewrite H. split.
  - intros Hnone. destruct (find _ _) as [d|] eqn:E; [|reflexivity].
    apply find_some in E as (Hin & Hd). apply in_rev in Hin.
    rewrite forallb_forall in Hnone. apply Hnone in Hin. now rewrite Hd in Hin.
  - intros before d after -> Hd Hafter.
    rewrite rev_app_distr. simpl. rewrite <- app_assoc, find_app.
    destruct (find (defines name) (rev after)) as [x|] eqn:E.
    + apply find_some in E as (Hin & Hx). apply in_rev in Hin.
      rewrite forallb_forall in Hafter. apply Hafter in Hin. now rewrite Hx in Hin.
    + simpl. now rewrite Hd.
Qed.

End Fragments.

Lemma get_fragment_last_definition_witness :
  definitions duplicate_document = [fragment_H "a"] ++ fragment_H "b" :: []
  /\ fst (get_fragment (ValidationContext_init tt duplicate_document []) "H")
     = Some (fragment_H "b").
Proof.
  split; [reflexivity|].
  apply (proj2 (proj2 (get_fragment_last_definition tt duplicate_document []
                         "H")) [fragment_H "a"] (fragment_H "b") []);
    reflexivity.
Defined.

(** ** The visitor and the traversal *)

Section Traversal.
Context {GraphQLSchema RuleState : Type}.
Variable specified_rules : list (@Rule GraphQLSchema RuleState).

(** The forced skip of a fragment definition returns before the
    [TypeInfo] is popped, and the engine calls no [leave] after a
    [False]. *)
Lemma enter_skipped_fragment_definition
    (visit : Node -> ValidationVisitor -> State -> result State)
    (self : @ValidationVisitor GraphQLSchema RuleState) (node : Node)
    (key : Key) (parent : option Node) (path : list Key)
    (ancestors : list Node) (st : State) (fuel : nat) :
  isinstance node FragmentDefinition = true ->
  key_truthy key = true ->
  visit_spread_fragments self = true ->
  enter visit self node key parent path ancestors st
  = Ok (PyFalse, with_type_info (TypeInfo_enter node) st)
  /\ walk (S fuel) self node key parent path ancestors st
     = Ok (with_type_info (TypeInfo_enter node) st)
  /\ type_info_of (with_type_info (TypeInfo_enter node) st)
     = node :: type_info_of st.
Proof.
  intros Hfd Hkey Hvsf.
  assert (He : forall v, enter v self node key parent path ancestors st
               = Ok (PyFalse, with_type_info (TypeInfo_enter node) st)).
  { intros v. unfold enter. now rewrite Hfd, Hkey, Hvsf. }
  split; [apply He|]. split; [|reflexivity].
  cbn [walk]. now rewrite He.
Qed.

(** [key] is tested for truth, and the index 0 is false: a fragment
    definition that comes first in the document is not skipped, the
    hook of the rule is called on it. *)
Lemma enter_first_definition_calls_the_rule
    (visit : Node -> ValidationVisitor -> State -> result State)
    (self : @ValidationVisitor GraphQLSchema RuleState) (node : Node)
    (parent : option Node) (path : list Key) (ancestors : list Node)
    (st : State) :
  isinstance node FragmentDefinition = true ->
  let st1 := with_type_info (TypeInfo_enter node) st in
  fst (rule_enter (instance self) (context st1) (rule_state st1) node
         (Index 0) parent path ancestors) = PyNone ->
  exists st',
    enter visit self node (Index 0) parent path ancestors st = Ok (PyNone, st').
Proof.
  intros Hfd st1 Hrule. unfold enter. fold st1.
  cbn [key_truthy]. rewrite andb_false_r. cbn [andb].
  destruct (rule_enter _ _ _ _ _ _ _ _) as [result rs]. simpl in Hrule.
  subst result. cbn [truthy andb is_None].
  assert (Hns : isinstance node FragmentSpread = false).
  { unfold isinstance in *. destruct (class node); simpl in *; congruence. }
  rewrite Hns, andb_false_r. cbn [bind is_False]. eauto.
Qed.

(** On every other path of [enter] the stack is left as it was when
    the result is [False], and one deeper otherwise. *)
Lemma enter_rule_path_balanced
    (visit : Node -> ValidationVisitor -> State -> result State)
    (self : @ValidationVisitor GraphQLSchema RuleState) (node : Node)
    (key : Key) (parent : option Node) (path : list Key)
    (ancestors : list Node) (st st' : State) (r : PyValue) :
  (forall f v s s', visit f v s = Ok s' -> type_info_of s' = type_info_of s) ->
  isinstance node FragmentDefinition && key_truthy key
    && visit_spread_fragments self = false ->
  enter visit self node key parent path ancestors st = Ok (r, st') ->
  type_info_of st'
  = if is_False r then type_info_of st else node :: type_info_of st.
Proof.
  intros Hvisit Hskip. unfold enter. rewrite Hskip.
  destruct (rule_enter _ _ _ _ _ _ _ _) as [result rs].
  set (st1 := mkState _ _ rs).
  assert (H1 : type_info_of st1 = node :: type_info_of st) by reflexivity.
  destruct (truthy result && is_error result).
  - destruct (is_None PyFalse && _ && _) eqn:E; [discriminate|].
    cbn [bind is_False]. intros [= <- <-]. reflexivity.
  - destruct (is_None result && _ && _) eqn:E.
    + destruct (get_fragment _ _) as [[fragment|] c] eqn:Hg.
      * destruct (visit fragment self _) as [s| |] eqn:Hv; cbn [bind];
          try discriminate.
        apply Hvisit in Hv.
        assert (Hc : _type_info c = _type_info (context st1)).
        { revert Hg. unfold get_fragment. destruct (_fragments _); intros [= _ <-]; reflexivity. }
        destruct result; try discriminate. cbn [is_False].
        intros [= <- <-]. rewrite Hv. unfold type_info_of. simpl. exact Hc.
      * cbn [bind]. destruct result; try discriminate. cbn [is_False].
        intros [= <- <-].
        assert (Hc : _type_info c = _type_info (context st1)).
        { revert Hg. unfold get_fragment. destruct (_fragments _); intros [= _ <-]; reflexivity. }
        unfold type_info_of. simpl. exact Hc.
    + cbn [bind]. intros [= <- <-]. destruct (is_False result); reflexivity.
Qed.

(** C9.  Called without a schema, without a document, or with a schema
    argument that is not a [GraphQLSchema], [validate] raises an
    [AssertionError], whatever the rules and before any traversal (the
    fuel plays no part); it returns no error list, empty or not. *)
Theorem validate_precondition_failure (fuel : nat) (schema : SchemaArg)
    (ast : option Node) (rules : option (list Rule)) :
  schema = NoSchema \/ ast = None \/ (forall s, schema <> SchemaInstance s) ->
  (exists msg, validate specified_rules fuel schema ast rules
               = AssertionError msg)
  /\ forall errors, validate specified_rules fuel schema ast rules <> Ok errors.
Proof.
  intros H.
  assert (Hm : exists msg, validate specified_rules fuel schema ast rules
                           = AssertionError msg).
  { unfold validate. destruct H as [-> | [-> | Hs]]; simpl; eauto.
    - destruct (negb (schema_truthy schema)); eauto.
    - destruct schema as [|s|[|]]; simpl; eauto.
      + now destruct (Hs s).
      + destruct ast; eauto. }
  split; [exact Hm|]. destruct Hm as [msg ->]. discriminate.
Qed.

Lemma depth_child (node : Node) (k : Key) (c : Node) :
  In (k, c) (children node) -> (depth c < depth node)%nat.
Proof.
  destruct node as [cl nv cs]. simpl.
  induction cs as [|[k' c'] cs IH]; simpl; [tauto|].
  intros [[= -> ->] | Hin]; [lia|]. apply IH in Hin. lia.
Qed.

Lemma walk_each_ok (walk_child : Key -> Node -> @State GraphQLSchema RuleState -> result State)
    (cs : list (Key * Node)) (st : State) :
  (forall k c s, In (k, c) cs -> exists s', walk_child k c s = Ok s') ->
  exists st', walk_each walk_child cs st = Ok st'.
Proof.
  revert st. induction cs as [|[k c] cs IH]; intros st H; simpl; [eauto|].
  destruct (H k c st) as [s' ->]; [now left|]. cbn [bind].
  apply IH. intros k' c' s Hin. apply H. now right.
Qed.

Lemma enter_without_inlining
    (visit : Node -> ValidationVisitor -> State -> result State)
    (self : @ValidationVisitor GraphQLSchema RuleState) (node : Node)
    (key : Key) (parent : option Node) (path : list Key)
    (ancestors : list Node) (st : State) :
  visit_spread_fragments self = false ->
  exists r st', enter visit self node key parent path ancestors st = Ok (r, st').
Proof.
  intros Hvsf. unfold enter. rewrite Hvsf, !andb_false_r.
  destruct (rule_enter _ _ _ _ _ _ _ _) as [result rs].
  destruct (truthy result && is_error result); rewrite andb_false_r;
    cbn [bind]; eauto.
Qed.

Lemma walk_without_inlining (fuel : nat)
    (visitor : @ValidationVisitor GraphQLSchema RuleState) (node : Node)
    (key : Key) (parent : option Node) (path : list Key)
    (ancestors : list Node) (st : State) :
  visit_spread_fragments visitor = false ->
  (depth node < fuel)%nat ->
  exists st', walk fuel visitor node key parent path ancestors st = Ok st'.
Proof.
  intros Hvsf. revert node key parent path ancestors st.
  induction fuel as [|fuel IH]; intros node key parent path ancestors st Hd;
    [lia|].
  cbn [walk].
  destruct (enter_without_inlining
              (fun root v st => walk fuel v root NoKey None [] [] st)
              visitor node key parent path ancestors st Hvsf)
    as (r & st1 & ->).
  cbn [bind]. destruct (is_False r); [eauto|].
  match goal with |- context [walk_each ?f ?cs ?s] =>
    destruct (walk_each_ok f cs s) as [st2 ->]
  end; [|cbn [bind]; eauto].
  intros k c s Hin. apply IH. apply depth_child in Hin. lia.
Qed.

Lemma rules_loop_without_inlining (fuel : nat) (ast : Node)
    (rules : list (@Rule GraphQLSchema RuleState)) (c : ValidationContext)
    (errors : list PyValue) :
  Forall (fun rule => ~ inlines_spreads rule) rules ->
  (depth ast < fuel)%nat ->
  exists r, rules_loop fuel ast rules c errors = Ok r.
Proof.
  intros Hrules Hd. revert c errors.
  induction Hrules as [|rule rules Hrule _ IH]; intros c errors; simpl; [eauto|].
  unfold visit.
  destruct (walk_without_inlining fuel (ValidationVisitor_init (rule c)) ast
              NoKey None [] [] (mkState c errors (initial (rule c))))
    as [st' ->]; [|exact Hd|cbn [bind]; apply IH].
  unfold ValidationVisitor_init. simpl.
  destruct (visit_spread_fragments_attr (rule c)) as [[|]|] eqn:E; auto.
  exfalso. apply Hrule. now exists c.
Qed.

End Traversal.

Lemma validate_precondition_failure_witness :
  (exists msg, @validate unit unit [] 0 NoSchema (Some cyclic_document) None
               = AssertionError msg)
  /\ forall errors, @validate unit unit [] 0 NoSchema (Some cyclic_document)
                      None <> Ok errors.
Proof.
  apply (validate_precondition_failure (GraphQLSchema := unit)
           (RuleState := unit) [] 0 NoSchema (Some cyclic_document) None).
  left. reflexivity.
Defined.

(** ** A fragment cycle under a rule that inlines spreads *)

Lemma walk_unfold {GraphQLSchema RuleState : Type} (fuel : nat)
    (visitor : @ValidationVisitor GraphQLSchema RuleState) (node : Node)
    (key : Key) (parent : option Node) (path : list Key)
    (ancestors : list Node) (st : State) :
  walk (S fuel) visitor node key parent path ancestors st
  = bind (enter (fun root v st => walk fuel v root NoKey None [] [] st)
            visitor node key parent path ancestors st)
      (fun '(r, st) =>
         if is_False r then Ok st
         else
           bind (walk_each
                   (fun k c st =>
                      walk fuel visitor c k (Some node) (path ++ [k])
                        (ancestors ++ [node]) st)
                   (children node) st)
             (fun st => Ok (snd (leave visitor node key parent path
                                   ancestors st)))).
Proof. reflexivity. Qed.

Lemma index_F : fragment_index cyclic_document !! "F"%string = Some fragment_F.
Proof. vm_compute. reflexivity. Qed.

Lemma get_fragment_F (c : @ValidationContext unit) :
  cache_sound c ->
  exists c', get_fragment c "F" = (Some fragment_F, c') /\ cache_sound c'.
Proof.
  intros [Hast [Hnone | Hsome]]; unfold get_fragment.
  - rewrite Hnone. unfold get_ast. rewrite Hast.
    fold (fragment_index cyclic_document). rewrite index_F.
    eexists. split; [reflexivity|]. split; simpl; auto.
  - rewrite Hsome, index_F. eexists. split; [reflexivity|].
    split; auto.
Qed.

Lemma enter_continue
    (visit : Node -> ValidationVisitor -> State -> result State)
    (node : Node) (key : Key) (parent : option Node) (path : list Key)
    (ancestors : list Node) (st : @State unit unit) :
  isinstance node FragmentSpread = false ->
  isinstance node FragmentDefinition && key_truthy key = false ->
  enter visit inlining_visitor node key parent path ancestors st
  = Ok (PyNone, with_type_info (TypeInfo_enter node) st).
Proof.
  intros Hs Hd. unfold enter. rewrite Hd, Hs. reflexivity.
Qed.

Lemma enter_spread_F
    (visit : Node -> ValidationVisitor -> State -> result State)
    (key : Key) (parent : option Node) (path : list Key)
    (ancestors : list Node) (st : @State unit unit) :
  cache_sound (context st) ->
  (forall st', cache_sound (context st') ->
               visit fragment_F inlining_visitor st' = OutOfFuel) ->
  enter visit inlining_visitor spread_F key parent path ancestors st
  = OutOfFuel.
Proof.
  intros Hc Hvisit. unfold enter.
  change (isinstance spread_F FragmentDefinition) with false.
  cbn [andb]. cbn [rule_enter inlining_visitor instance continue_hook].
  cbn [truthy andb is_None visit_spread_fragments].
  change (isinstance spread_F FragmentSpread) with true. cbn [andb].
  change (name_value spread_F) with "F"%string.
  match goal with |- context [get_fragment ?c _] =>
    destruct (get_fragment_F c) as (c' & -> & Hc')
  end; [exact Hc|].
  rewrite Hvisit; [reflexivity|exact Hc'].
Qed.

Lemma walk_spread_F (fuel : nat) (key : Key) (parent : option Node)
    (path : list Key) (ancestors : list Node) (st : @State unit unit) :
  (forall m, (m < fuel)%nat -> unbounded m) ->
  cache_sound (context st) ->
  walk fuel inlining_visitor spread_F key parent path ancestors st = OutOfFuel.
Proof.
  intros HQ Hc. destruct fuel as [|fuel]; [reflexivity|].
  rewrite walk_unfold, enter_spread_F; [reflexivity|exact Hc|].
  intros st' Hc'. apply HQ; [lia|exact Hc'].
Qed.

Lemma walk_selection_F (fuel : nat) (key : Key) (parent : option Node)
    (path : list Key) (ancestors : list Node) (st : @State unit unit) :
  (forall m, (m < fuel)%nat -> unbounded m) ->
  cache_sound (context st) ->
  walk fuel inlining_visitor selection_F key parent path ancestors st
  = OutOfFuel.
Proof.
  intros HQ Hc. destruct fuel as [|fuel]; [reflexivity|].
  rewrite walk_unfold, enter_continue by reflexivity.
  cbn [bind is_False children selection_F walk_each].
  rewrite walk_spread_F; [reflexivity| |exact Hc].
  intros m Hm. apply HQ. lia.
Qed.

Lemma walk_fragment_F_unbounded (fuel : nat) : unbounded fuel.
Proof.
  induction fuel as [fuel IH] using lt_wf_ind. intros st Hc.
  destruct fuel as [|fuel]; [reflexivity|].
  rewrite walk_unfold, enter_continue by reflexivity.
  cbn [bind is_False children fragment_F walk_each].
  rewrite walk_selection_F; [reflexivity| |exact Hc].
  intros m Hm. apply IH. lia.
Qed.

Lemma walk_query_F (fuel : nat) (key : Key) (parent : option Node)
    (path : list Key) (ancestors : list Node) (st : @State unit unit) :
  cache_sound (context st) ->
  walk fuel inlining_visitor query_F key parent path ancestors st = OutOfFuel.
Proof.
  intros Hc. destruct fuel as [|fuel]; [reflexivity|].
  rewrite walk_unfold, enter_continue by reflexivity.
  cbn [bind is_False children query_F walk_each].
  rewrite walk_selection_F; [reflexivity| |exact Hc].
  intros m _. apply walk_fragment_F_unbounded.
Qed.

Lemma validate_cyclic_document_unbounded (fuel : nat) :
  validate [] fuel (SchemaInstance tt) (Some cyclic_document)
    (Some [inlining_rule]) = OutOfFuel.
Proof.
  unfold validate, visit_using_rules. cbn [schema_truthy negb rules_loop].
  unfold visit.
  change (ValidationVisitor_init _) with inlining_visitor.
  destruct fuel as [|fuel]; [reflexivity|].
  rewrite walk_unfold, enter_continue by reflexivity.
  cbn [bind is_False children cyclic_document walk_each].
  rewrite walk_query_F; [reflexivity|].
  split; [reflexivity|now left].
Qed.

(** C1 as stated fails: on [cyclic_document], under a rule that inlines
    spreads and continues at every node, no bound on the nesting of
    calls lets [validate] come to an end. *)
Lemma spread_inlining_recursion_unbounded :
  ~ exists fuel,
      validate [] fuel (SchemaInstance tt) (Some cyclic_document)
        (Some [inlining_rule]) <> OutOfFuel.
Proof. intros [fuel H]. apply H, validate_cyclic_document_unbounded. Qed.


(** C2, at the failing input.  [fragment_G] is the second top-level
    definition of [plain_document] (key 1) and the rule inlines spreads:
    [enter] pushes the fragment on the [TypeInfo] stack and returns
    [False] without popping it, and since the engine calls no [leave]
    after a [False], a whole traversal that starts with an empty stack
    ends with a stack that is not empty. *)
Theorem skipped_fragment_definition_is_not_popped :
  (forall (visit : Node -> ValidationVisitor -> State -> result State)
          (st : @State unit unit),
      enter visit inlining_visitor fragment_G (Index 1) (Some plain_document)
        [Index 1] [plain_document] st
      = Ok (PyFalse, with_type_info (TypeInfo_enter fragment_G) st)
      /\ type_info_of (with_type_info (TypeInfo_enter fragment_G) st)
         = fragment_G :: type_info_of st)
  /\ exists st',
       visit 4 plain_document inlining_visitor
         (mkState (ValidationContext_init tt plain_document []) [] tt)
       = Ok st'
       /\ length (type_info_of st') = 1%nat.
Proof.
  split.
  - intros visit st.
    destruct (enter_skipped_fragment_definition visit inlining_visitor
                fragment_G (Index 1) (Some plain_document) [Index 1]
                [plain_document] st 0) as (He & _ & Hti); try reflexivity.
    split; [exact He|exact Hti].
  - eexists. split; [vm_compute; reflexivity|reflexivity].
Qed.

(** ** What a traversal keeps *)

Local Open Scope nat_scope.

Section Preservation.
Context {GraphQLSchema RuleState : Type}.

Lemma context_kept_refl (c : @ValidationContext GraphQLSchema) :
  context_kept c c.
Proof.
  unfold context_kept. split; [reflexivity|]. split; [reflexivity|].
  split; [auto|]. split; [auto|].
  destruct (_fragments c); simpl; lia.
Qed.

Lemma context_kept_trans (c1 c2 c3 : @ValidationContext GraphQLSchema) :
  context_kept c1 c2 -> context_kept c2 c3 -> context_kept c1 c3.
Proof.
  intros (Hs & Ha & Hv & Hc & Hn) (Hs' & Ha' & Hv' & Hc' & Hn').
  unfold context_kept. split; [congruence|]. split; [congruence|].
  split; [auto|]. split; [auto|].
  rewrite Hn', Hn.
  destruct (_fragments c1) as [cache1|] eqn:E1;
    destruct (_fragments c2) as [cache2|] eqn:E2;
    destruct (_fragments c3) as [cache3|] eqn:E3;
    try specialize (Hc _ eq_refl); try specialize (Hc' _ eq_refl);
    simpl; first [lia | congruence].
Qed.

Lemma errors_extended_refl (errs : list PyValue) : errors_extended errs errs.
Proof. exists []. now rewrite app_nil_r. Qed.

Lemma errors_extended_trans (e1 e2 e3 : list PyValue) :
  errors_extended e1 e2 -> errors_extended e2 e3 -> errors_extended e1 e3.
Proof.
  intros (n1 & -> & H1) (n2 & -> & H2). exists (n1 ++ n2).
  rewrite app_assoc, forallb_app, H1, H2. auto.
Qed.

Lemma append_extended (errs : list PyValue) (result : PyValue) :
  truthy result && is_error result = true ->
  errors_extended errs (append errs result).
Proof.
  intros H. apply andb_true_iff in H as (_ & H).
  destruct result; simpl in *; try discriminate.
  - exists [PyError e]. auto.
  - exists items. auto.
Qed.

Lemma get_fragment_kept (c : @ValidationContext GraphQLSchema) (name : string) :
  context_kept c (snd (get_fragment c name))
  /\ _type_info (snd (get_fragment c name)) = _type_info c
  /\ (cache_valid c ->
      fst (get_fragment c name) = fragment_index (_ast c) !! name).
Proof.
  unfold get_fragment, context_kept, cache_valid.
  destruct (_fragments c) as [cache|] eqn:E; simpl.
  - rewrite E. repeat split; auto; try lia.
    intros [H | H]; congruence.
  - repeat split; auto; try lia; discriminate.
Qed.

Lemma state_kept_refl (st : @State GraphQLSchema RuleState) : state_kept st st.
Proof. split; [apply context_kept_refl|apply errors_extended_refl]. Qed.

Lemma state_kept_trans (s1 s2 s3 : @State GraphQLSchema RuleState) :
  state_kept s1 s2 -> state_kept s2 s3 -> state_kept s1 s3.
Proof.
  intros (H1 & H2) (H3 & H4).
  split; [eapply context_kept_trans|eapply errors_extended_trans]; eauto.
Qed.

Lemma with_type_info_kept (f : TypeInfo -> TypeInfo)
    (st : @State GraphQLSchema RuleState) :
  state_kept st (with_type_info f st).
Proof.
  split; [|apply errors_extended_refl]. unfold with_type_info, context_kept,
    cache_valid. simpl. repeat split; auto. destruct (_fragments _); simpl; lia.
Qed.

Lemma enter_kept (visit : Node -> ValidationVisitor -> State -> result State)
    (self : @ValidationVisitor GraphQLSchema RuleState) (node : Node)
    (key : Key) (parent : option Node) (path : list Key)
    (ancestors : list Node) (st st' : State) (r : PyValue) :
  (forall f v s s', visit f v s = Ok s' -> state_kept s s') ->
  enter visit self node key parent path ancestors st = Ok (r, st') ->
  state_kept st st'.
Proof.
  intros Hvisit. unfold enter.
  pose proof (with_type_info_kept (TypeInfo_enter node) st) as H0.
  set (st0 := with_type_info (TypeInfo_enter node) st) in *.
  destruct (_ && _ && _); [now intros [= _ <-]|].
  destruct (rule_enter _ _ _ _ _ _ _ _) as [result rs].
  set (st1 := mkState (context st0) (errors st0) rs).
  assert (H1 : state_kept st st1) by exact H0.
  assert (Hfinish : forall (res : PyValue) (s2 : State),
    state_kept st s2 ->
    forall s3, (if is_False res then with_type_info (TypeInfo_leave node) s2
                else s2) = s3 -> state_kept st s3).
  { intros res s2 H2 s3 <-. destruct (is_False res); [|exact H2].
    eapply state_kept_trans; [exact H2|apply with_type_info_kept]. }
  destruct (truthy result && is_error result) eqn:Herr.
  - cbn [is_None andb bind]. intros [= _ <-].
    eapply (Hfinish PyFalse); [|reflexivity].
    split; [apply H1|]. cbn [errors].
    eapply errors_extended_trans; [apply H1|]. now apply append_extended.
  - destruct (is_None result && _ && _).
    + pose proof (get_fragment_kept (context st1) (name_value node))
        as (Hk & _).
      destruct (get_fragment _ _) as [fragment c]. cbn [snd] in Hk.
      set (st2 := mkState c (errors st1) (rule_state st1)).
      assert (H2 : state_kept st st2).
      { eapply state_kept_trans; [exact H1|].
        split; [exact Hk|apply errors_extended_refl]. }
      destruct fragment as [fragment|].
      * destruct (visit fragment self st2) as [s| |] eqn:Hv; cbn [bind];
          try discriminate.
        apply Hvisit in Hv. intros [= _ <-].
        eapply Hfinish; [|reflexivity]. eapply state_kept_trans; eauto.
      * cbn [bind]. intros [= _ <-]. eapply Hfinish; [exact H2|reflexivity].
    + cbn [bind]. intros [= _ <-]. eapply Hfinish; [exact H1|reflexivity].
Qed.

Lemma leave_kept (self : @ValidationVisitor GraphQLSchema RuleState)
    (node : Node) (key : Key) (parent : option Node) (path : list Key)
    (ancestors : list Node) (st : State) :
  state_kept st (snd (leave self node key parent path ancestors st))
  /\ type_info_of (snd (leave self node key parent path ancestors st))
     = tl (type_info_of st).
Proof.
  unfold leave. destruct (rule_leave _ _ _ _ _ _ _ _) as [result rs].
  destruct (truthy result && is_error result) eqn:Herr; cbn [snd].
  - split; [|reflexivity].
    eapply state_kept_trans; [|apply with_type_info_kept].
    split; [apply context_kept_refl|]. cbn [errors].
    now apply append_extended.
  - split; [|reflexivity].
    eapply state_kept_trans; [|apply with_type_info_kept].
    split; [apply context_kept_refl|apply errors_extended_refl].
Qed.

Lemma walk_each_kept (walk_child : Key -> Node -> State -> result State)
    (cs : list (Key * Node)) (st st' : @State GraphQLSchema RuleState) :
  (forall k c s s', walk_child k c s = Ok s' -> state_kept s s') ->
  walk_each walk_child cs st = Ok st' -> state_kept st st'.
Proof.
  intros Hchild. revert st. induction cs as [|[k c] cs IH]; intros st; simpl.
  - intros [= <-]. apply state_kept_refl.
  - destruct (walk_child k c st) as [s| |] eqn:Hw; cbn [bind]; try discriminate.
    intros H. eapply state_kept_trans; [eapply Hchild; eauto|now apply IH].
Qed.

Lemma walk_kept (fuel : nat) :
  forall (visitor : @ValidationVisitor GraphQLSchema RuleState) (node : Node)
         (key : Key) (parent : option Node) (path : list Key)
         (ancestors : list Node) (st st' : State),
    walk fuel visitor node key parent path ancestors st = Ok st' ->
    state_kept st st'.
Proof.
  induction fuel as [|fuel IH]; intros visitor node key parent path ancestors
    st st'; [discriminate|].
  rewrite walk_unfold.
  destruct (enter _ _ _ _ _ _ _ _) as [[r st1]| |] eqn:He; cbn [bind];
    try discriminate.
  apply enter_kept in He; [|intros f v s s' H; eapply IH; exact H].
  destruct (is_False r); [now intros [= <-]|].
  destruct (walk_each _ _ _) as [st2| |] eqn:Hw; cbn [bind]; try discriminate.
  apply walk_each_kept in Hw; [|intros k c s s' H; eapply IH; exact H].
  intros [= <-].
  eapply state_kept_trans; [exact He|].
  eapply state_kept_trans; [exact Hw|apply leave_kept].
Qed.

End Preservation.

Section Stack.
Context {GraphQLSchema RuleState : Type}.

Lemma grown_refl (ti : TypeInfo) : grown ti ti.
Proof. now exists []. Qed.

Lemma grown_trans (t1 t2 t3 : TypeInfo) : grown t1 t2 -> grown t2 t3 -> grown t1 t3.
Proof. intros (p1 & ->) (p2 & ->). exists (p2 ++ p1). now rewrite app_assoc. Qed.

Lemma grown_cons (n : Node) (ti ti' : TypeInfo) : grown (n :: ti) ti' -> grown ti ti'.
Proof. intros (p & ->). exists (p ++ [n]). now rewrite <- app_assoc. Qed.

Lemma grown_tl (n : Node) (ti ti' : TypeInfo) : grown (n :: ti) ti' -> grown ti (tl ti').
Proof.
  intros (p & ->). destruct p as [|x p]; simpl; [apply grown_refl|].
  exists (p ++ [n]). now rewrite <- app_assoc.
Qed.

Lemma get_fragment_type_info (c : @ValidationContext GraphQLSchema)
    (name : string) :
  _type_info (snd (get_fragment c name)) = _type_info c.
Proof. unfold get_fragment. now destruct (_fragments c). Qed.

Lemma enter_stack (visit : Node -> ValidationVisitor -> State -> result State)
    (self : @ValidationVisitor GraphQLSchema RuleState) (node : Node)
    (key : Key) (parent : option Node) (path : list Key)
    (ancestors : list Node) (st st' : State) (r : PyValue) :
  (forall f v s s', visit f v s = Ok s' ->
                    grown (type_info_of s) (type_info_of s')) ->
  enter visit self node key parent path ancestors st = Ok (r, st') ->
  if is_False r then grown (type_info_of st) (type_info_of st')
  else grown (node :: type_info_of st) (type_info_of st').
Proof.
  intros Hvisit. unfold enter.
  destruct (_ && _ && _).
  { intros [= <- <-]. cbn [is_False]. exists [node]. reflexivity. }
  destruct (rule_enter _ _ _ _ _ _ _ _) as [result rs].
  set (st1 := mkState _ _ rs).
  assert (H1 : type_info_of st1 = node :: type_info_of st) by reflexivity.
  destruct (truthy result && is_error result).
  - cbn [is_None andb bind is_False]. intros [= <- <-]. apply grown_refl.
  - destruct (is_None result && _ && _) eqn:E.
    + assert (Hr : result = PyNone) by (destruct result; try discriminate; auto).
      subst result. cbn [is_False].
      pose proof (get_fragment_type_info (context st1) (name_value node)) as Hg.
      destruct (get_fragment _ _) as [[fragment|] c]; cbn [snd] in Hg.
      * destruct (visit fragment self _) as [s| |] eqn:Hv; cbn [bind];
          try discriminate.
        apply Hvisit in Hv. intros [= <- <-]. cbn [is_False].
        unfold type_info_of in Hv at 1. cbn [context] in Hv.
        rewrite Hg in Hv. exact Hv.
      * cbn [bind]. intros [= <- <-]. cbn [is_False].
        unfold type_info_of. cbn [context]. rewrite Hg. apply grown_refl.
    + cbn [bind]. intros [= <- <-]. destruct (is_False result).
      * apply grown_refl.
      * rewrite <- H1. apply grown_refl.
Qed.

Lemma walk_each_stack (walk_child : Key -> Node -> State -> result State)
    (cs : list (Key * Node)) (st st' : @State GraphQLSchema RuleState) :
  (forall k c s s', walk_child k c s = Ok s' ->
                    grown (type_info_of s) (type_info_of s')) ->
  walk_each walk_child cs st = Ok st' ->
  grown (type_info_of st) (type_info_of st').
Proof.
  intros Hchild. revert st. induction cs as [|[k c] cs IH]; intros st; simpl.
  - intros [= <-]. apply grown_refl.
  - destruct (walk_child k c st) as [s| |] eqn:Hw; cbn [bind]; try discriminate.
    intros H. eapply grown_trans; [eapply Hchild; eauto|now apply IH].
Qed.

Lemma walk_stack (fuel : nat) :
  forall (visitor : @ValidationVisitor GraphQLSchema RuleState) (node : Node)
         (key : Key) (parent : option Node) (path : list Key)
         (ancestors : list Node) (st st' : State),
    walk fuel visitor node key parent path ancestors st = Ok st' ->
    grown (type_info_of st) (type_info_of st').
Proof.
  induction fuel as [|fuel IH]; intros visitor node key parent path ancestors
    st st'; [discriminate|].
  rewrite walk_unfold.
  destruct (enter _ _ _ _ _ _ _ _) as [[r st1]| |] eqn:He; cbn [bind];
    try discriminate.
  apply enter_stack in He; [|intros f v s s' H; eapply IH; exact H].
  destruct (is_False r); [now intros [= <-]|].
  destruct (walk_each _ _ _) as [st2| |] eqn:Hw; cbn [bind]; try discriminate.
  apply walk_each_stack in Hw; [|intros k c s s' H; eapply IH; exact H].
  intros [= <-].
  destruct (leave_kept visitor node key parent path ancestors st2) as (_ & ->).
  eapply grown_tl, grown_trans; eauto.
Qed.

Lemma walk_each_balanced (walk_child : Key -> Node -> State -> result State)
    (cs : list (Key * Node)) (st st' : @State GraphQLSchema RuleState) :
  (forall k c s s', walk_child k c s = Ok s' ->
                    type_info_of s' = type_info_of s) ->
  walk_each walk_child cs st = Ok st' ->
  type_info_of st' = type_info_of st.
Proof.
  intros Hchild. revert st. induction cs as [|[k c] cs IH]; intros st; simpl.
  - now intros [= <-].
  - destruct (walk_child k c st) as [s| |] eqn:Hw; cbn [bind]; try discriminate.
    intros H. apply IH in H. apply Hchild in Hw. congruence.
Qed.

Lemma enter_balanced (visit : Node -> ValidationVisitor -> State -> result State)
    (self : @ValidationVisitor GraphQLSchema RuleState) (node : Node)
    (key : Key) (parent : option Node) (path : list Key)
    (ancestors : list Node) (st st' : State) (r : PyValue) :
  visit_spread_fragments self = false ->
  enter visit self node key parent path ancestors st = Ok (r, st') ->
  type_info_of st'
  = if is_False r then type_info_of st else node :: type_info_of st.
Proof.
  intros Hvsf. unfold enter. rewrite Hvsf, !andb_false_r.
  destruct (rule_enter _ _ _ _ _ _ _ _) as [result rs].
  destruct (truthy result && is_error result); rewrite andb_false_r;
    cbn [bind]; intros [= <- <-]; [reflexivity|].
  destruct (is_False result); reflexivity.
Qed.

Lemma walk_balanced (fuel : nat) :
  forall (visitor : @ValidationVisitor GraphQLSchema RuleState) (node : Node)
         (key : Key) (parent : option Node) (path : list Key)
         (ancestors : list Node) (st st' : State),
    visit_spread_fragments visitor = false ->
    walk fuel visitor node key parent path ancestors st = Ok st' ->
    type_info_of st' = type_info_of st.
Proof.
  induction fuel as [|fuel IH]; intros visitor node key parent path ancestors
    st st' Hvsf; [discriminate|].
  rewrite walk_unfold.
  destruct (enter _ _ _ _ _ _ _ _) as [[r st1]| |] eqn:He; cbn [bind];
    try discriminate.
  apply enter_balanced in He; [|exact Hvsf].
  destruct (is_False r); [intros [= <-]; exact He|].
  destruct (walk_each _ _ _) as [st2| |] eqn:Hw; cbn [bind]; try discriminate.
  apply walk_each_balanced in Hw; [|intros k c s s' H; eapply IH; eauto].
  intros [= <-].
  destruct (leave_kept visitor node key parent path ancestors st2) as (_ & ->).
  now rewrite Hw, He.
Qed.

(** X15.  For a rule whose hooks return the three outcomes of the rule
    result channel only ([None], [False], or errors), a traversal that
    returns never pops an entry of the [TypeInfo] stack that it did not
    push, and if the rule does not inline spreads the traversal leaves
    the stack as it found it. *)
Theorem visit_type_info_stack (fuel : nat) (root : Node)
    (visitor : @ValidationVisitor GraphQLSchema RuleState) (st st' : State) :
  returns_outcomes (instance visitor) ->
  visit fuel root visitor st = Ok st' ->
  (exists pushed, type_info_of st' = pushed ++ type_info_of st)
  /\ (visit_spread_fragments visitor = false ->
      type_info_of st' = type_info_of st).
Proof.
  unfold visit. intros _ H. split; [exact (walk_stack _ _ _ _ _ _ _ _ _ H)|].
  intros Hvsf. exact (walk_balanced _ _ _ _ _ _ _ _ _ Hvsf H).
Qed.

(** X16.  A traversal that returns changes neither the schema nor the
    document of the context; it builds the fragment index at most once,
    and never alters it once built; it adds to the error list at its
    end, and adds only [GraphQLError]s, whatever the hooks return. *)
Theorem visit_keeps_context_and_errors (fuel : nat) (root : Node)
    (visitor : @ValidationVisitor GraphQLSchema RuleState) (st st' : State) :
  visit fuel root visitor st = Ok st' ->
  context_kept (context st) (context st')
  /\ errors_extended (errors st) (errors st').
Proof. unfold visit. apply walk_kept. Qed.

End Stack.

Section Rules.
Context {GraphQLSchema RuleState : Type}.
Variable specified_rules : list (@Rule GraphQLSchema RuleState).

Lemma rules_loop_kept (fuel : nat) (ast : Node)
    (rules : list (@Rule GraphQLSchema RuleState)) :
  forall (c c' : ValidationContext) (errs errs' : list PyValue),
    rules_loop fuel ast rules c errs = Ok (c', errs') ->
    context_kept c c' /\ errors_extended errs errs'.
Proof.
  induction rules as [|rule rules IH]; intros c c' errs errs'; simpl.
  - intros [= <- <-]. split; [apply context_kept_refl|apply errors_extended_refl].
  - destruct (visit _ _ _ _) as [st| |] eqn:Hv; cbn [bind]; try discriminate.
    unfold visit in Hv. apply walk_kept in Hv as (Hc & He). cbn in Hc, He.
    intros H. apply IH in H as (Hc' & He').
    split; [eapply context_kept_trans|eapply errors_extended_trans]; eauto.
Qed.

Lemma rules_loop_app (fuel : nat) (ast : Node)
    (rules1 rules2 : list (@Rule GraphQLSchema RuleState)) :
  forall (c : ValidationContext) (errs : list PyValue),
    rules_loop fuel ast (rules1 ++ rules2) c errs
    = bind (rules_loop fuel ast rules1 c errs)
        (fun '(c', errs') => rules_loop fuel ast rules2 c' errs').
Proof.
  induction rules1 as [|rule rules1 IH]; intros c errs; simpl; [reflexivity|].
  destruct (visit _ _ _ _) as [st| |]; cbn [bind]; auto.
Qed.

(** X17.  Whatever the hooks of the rules return, the list that
    [validate] returns holds [GraphQLError]s only. *)
Theorem validate_returns_errors_only (fuel : nat) (schema : SchemaArg)
    (ast : option Node) (rules : option (list Rule)) (errs : list PyValue) :
  validate specified_rules fuel schema ast rules = Ok errs ->
  forallb is_GraphQLError errs = true.
Proof.
  unfold validate, visit_using_rules.
  destruct (negb _); [discriminate|]. destruct ast as [ast|]; [|discriminate].
  destruct schema as [|schema|]; try discriminate.
  destruct (rules_loop _ _ _ _ _) as [[c errs']| |] eqn:Hr; cbn [bind];
    try discriminate.
  intros [= <-]. apply rules_loop_kept in Hr as (_ & new & -> & Hnew).
  exact Hnew.
Qed.

(** X18.  The errors of the rules come in the order of the rules: the
    result for a list of rules starts with the result for any shorter
    list that it starts with. *)
Theorem validate_errors_in_rule_order (fuel : nat) (schema : SchemaArg)
    (ast : option Node) (rules1 rules2 : list Rule) (errs : list PyValue) :
  validate specified_rules fuel schema ast (Some (rules1 ++ rules2)) = Ok errs ->
  exists errs1 more,
    validate specified_rules fuel schema ast (Some rules1) = Ok errs1
    /\ errs = errs1 ++ more.
Proof.
  unfold validate, visit_using_rules.
  destruct (negb _); [discriminate|]. destruct ast as [ast|]; [|discriminate].
  destruct schema as [|schema|]; try discriminate.
  rewrite rules_loop_app.
  destruct (rules_loop fuel ast rules1 _ _) as [[c1 errs1]| |] eqn:H1;
    cbn [bind]; try discriminate.
  destruct (rules_loop fuel ast rules2 _ _) as [[c2 errs2]| |] eqn:H2;
    cbn [bind]; try discriminate.
  intros [= <-]. apply rules_loop_kept in H2 as (_ & more & -> & _).
  eauto.
Qed.

End Rules.

Section Lookup.
Context {GraphQLSchema : Type}.

(** X14.  On a context whose cache is not built yet, or is the index of
    its document, [get_fragment] finds a name exactly when a top-level
    fragment definition has it, and what it returns is such a
    definition, of that name. *)
Theorem get_fragment_finds_defined_names (c : @ValidationContext GraphQLSchema)
    (name : string) :
  cache_valid c ->
  (is_Some (fst (get_fragment c name))
   <-> exists d, In d (definitions (_ast c)) /\ defines name d = true)
  /\ forall d, fst (get_fragment c name) = Some d ->
               In d (definitions (_ast c))
               /\ isinstance d FragmentDefinition = true
               /\ name_value d = name.
Proof.
  intros Hc. destruct (get_fragment_kept c name) as (_ & _ & Hg).
  rewrite (Hg Hc), fragment_index_lookup. split.
  - split.
    + intros [d Hd]. apply find_some in Hd as (Hin & Hdef).
      exists d. split; [now apply in_rev|exact Hdef].
    + intros (d & Hin & Hdef).
      destruct (find (defines name) (rev (definitions (_ast c)))) eqn:E;
        [eauto|].
      apply in_rev in Hin. eapply find_none in E; [|exact Hin]. congruence.
  - intros d Hd. apply find_some in Hd as (Hin & Hdef).
    apply in_rev in Hin. unfold defines in Hdef.
    apply andb_true_iff in Hdef as (H1 & H2). apply String.eqb_eq in H2. auto.
Qed.

End Lookup.

Section Acyclic.
Context {GraphQLSchema RuleState : Type}.
Variable specified_rules : list (@Rule GraphQLSchema RuleState).

Lemma spreads_child (node : Node) (k : Key) (c : Node) (s : string) :
  In (k, c) (children node) -> In s (spreads c) -> In s (spreads node).
Proof.
  destruct node as [cl nv cs]. simpl. intros Hin Hs.
  apply in_or_app. right.
  induction cs as [|[k' c'] cs IH]; simpl in *; [tauto|].
  apply in_or_app. destruct Hin as [[= -> ->] | Hin]; [now left|].
  right. now apply IH.
Qed.

Lemma spreads_self (node : Node) :
  isinstance node FragmentSpread = true -> In (name_value node) (spreads node).
Proof.
  destruct node as [cl nv cs]. unfold isinstance. simpl. intros ->.
  now left.
Qed.

Lemma fragment_index_defined (ast : Node) (name : string) (d : Node) :
  fragment_index ast !! name = Some d -> (depth d < depth ast)%nat.
Proof.
  rewrite fragment_index_lookup. intros H. apply find_some in H as (Hin & _).
  apply in_rev in Hin. unfold definitions in Hin.
  apply in_map_iff in Hin as ([k c] & <- & Hin). simpl.
  eapply depth_child; eauto.
Qed.

Lemma of_document_kept (ast : Node) (st st' : @State GraphQLSchema RuleState) :
  state_kept st st' -> of_document ast st -> of_document ast st'.
Proof.
  intros ((_ & Ha & Hv & _) & _) (H1 & H2). split; [congruence|auto].
Qed.

Lemma walk_each_ends (ast : Node)
    (walk_child : Key -> Node -> State -> result State)
    (cs : list (Key * Node)) (st : @State GraphQLSchema RuleState) :
  (forall k c s, In (k, c) cs -> of_document ast s ->
                 exists s', walk_child k c s = Ok s') ->
  (forall k c s s', walk_child k c s = Ok s' -> state_kept s s') ->
  of_document ast st ->
  exists st', walk_each walk_child cs st = Ok st'.
Proof.
  intros Hends Hkept. revert st.
  induction cs as [|[k c] cs IH]; intros st Hst; simpl; [eauto|].
  destruct (Hends k c st) as [s' Hs']; [now left|exact Hst|].
  rewrite Hs'. cbn [bind]. apply IH.
  - intros k' c' s Hin. apply Hends. now right.
  - eapply of_document_kept; eauto.
Qed.

Lemma enter_ends (ast : Node)
    (visit : Node -> ValidationVisitor -> State -> result State)
    (self : @ValidationVisitor GraphQLSchema RuleState) (node : Node)
    (key : Key) (parent : option Node) (path : list Key)
    (ancestors : list Node) (st : State) :
  of_document ast st ->
  (forall d v s, fragment_index ast !! name_value node = Some d ->
                 isinstance node FragmentSpread = true ->
                 of_document ast s -> exists s', visit d v s = Ok s') ->
  exists res st', enter visit self node key parent path ancestors st
                  = Ok (res, st').
Proof.
  intros Hst Hvisit. unfold enter.
  destruct (_ && _ && _); [eauto|].
  destruct (rule_enter _ _ _ _ _ _ _ _) as [result rs].
  set (st1 := mkState _ _ rs).
  assert (H1 : of_document ast st1) by exact Hst.
  destruct (truthy result && is_error result).
  { cbn [is_None andb bind]. eauto. }
  destruct (is_None result && visit_spread_fragments self) eqn:E1;
    [|cbn [andb bind]; eauto].
  destruct (isinstance node FragmentSpread) eqn:E2; [|cbn [andb bind]; eauto].
  cbn [andb].
  destruct (get_fragment_kept (context st1) (name_value node)) as (Hk & _ & Hg).
  destruct H1 as (Hast & Hvalid). specialize (Hg Hvalid).
  destruct (get_fragment _ _) as [fragment c]. cbn [fst snd] in *.
  rewrite Hast in Hg. subst fragment.
  destruct (fragment_index ast !! name_value node) as [d|] eqn:Hd;
    [|cbn [bind]; eauto].
  destruct (Hvisit d self (mkState c (errors st1) (rule_state st1)) eq_refl
              eq_refl) as [s' ->]; [|cbn [bind]; eauto].
  destruct Hk as (_ & Ha & Hv & _). split; cbn [context]; [congruence|auto].
Qed.

Lemma walk_ends (ast : Node) (rank : string -> nat) :
  ranked ast rank ->
  forall (fuel : nat) (visitor : @ValidationVisitor GraphQLSchema RuleState)
         (node : Node) (key : Key) (parent : option Node) (path : list Key)
         (ancestors : list Node) (st : State) (r : nat),
    of_document ast st ->
    (forall s, In s (spreads node) -> is_Some (fragment_index ast !! s) ->
               (rank s < r)%nat) ->
    (depth node + r * depth ast < fuel)%nat ->
    exists st', walk fuel visitor node key parent path ancestors st = Ok st'.
Proof.
  intros Hranked. induction fuel as [|fuel IH];
    intros visitor node key parent path ancestors st r Hst Hr Hfuel; [lia|].
  rewrite walk_unfold.
  assert (Hdepth : (0 < depth node)%nat) by (destruct node; simpl; lia).
  destruct (enter_ends ast
              (fun root v st => walk fuel v root NoKey None [] [] st)
              visitor node key parent path ancestors st Hst)
    as (res & st1 & He).
  { intros d v s Hd Hspread Hs.
    apply (IH v d NoKey None [] [] s (rank (name_value node)) Hs).
    - intros s' Hin Hsome. eapply Hranked; eauto.
    - assert (Hrank : (rank (name_value node) < r)%nat).
      { apply Hr; [now apply spreads_self|]. rewrite Hd. eauto. }
      apply fragment_index_defined in Hd. nia. }
  rewrite He. cbn [bind].
  apply enter_kept in He as Hk; [|intros f v s s' H; eapply walk_kept; exact H].
  destruct (is_False res); [eauto|].
  destruct (walk_each_ends ast
              (fun k c st => walk fuel visitor c k (Some node) (path ++ [k])
                               (ancestors ++ [node]) st)
              (children node) st1) as [st2 ->]; [| | |cbn [bind]; eauto].
  - intros k c s Hin Hs. apply (IH _ _ _ _ _ _ _ r Hs).
    + intros s' Hin' Hsome. apply Hr; [|exact Hsome].
      eapply spreads_child; eauto.
    + apply depth_child in Hin. lia.
  - intros k c s s' H. eapply walk_kept; exact H.
  - eapply of_document_kept; eauto.
Qed.

Lemma rules_loop_ends (ast : Node) (rank : string -> nat) (bound fuel : nat)
    (rules : list (@Rule GraphQLSchema RuleState)) :
  ranked ast rank ->
  (forall s, In s (spreads ast) -> (rank s < bound)%nat) ->
  (depth ast * (bound + 1) < fuel)%nat ->
  forall (c : ValidationContext) (errs : list PyValue),
    _ast c = ast -> cache_valid c ->
    exists res, rules_loop fuel ast rules c errs = Ok res.
Proof.
  intros Hranked Hbound Hfuel.
  induction rules as [|rule rules IH]; intros c errs Hast Hvalid; simpl;
    [eauto|].
  unfold visit.
  destruct (walk_ends ast rank Hranked fuel (ValidationVisitor_init (rule c))
              ast NoKey None [] [] (mkState c errs (initial (rule c))) bound)
    as [st' Hw]; [now split|auto|lia|].
  rewrite Hw. cbn [bind]. apply walk_kept in Hw as ((_ & Ha & Hv & _) & _).
  cbn [context] in *. apply IH; [congruence|auto].
Qed.

(** X19.  On a document whose fragments have no cycle, [validate]
    returns an error list for every rule set, with rules that inline
    spreads or without, as soon as the nesting of calls may exceed the
    depth of the document times one more than a bound on the ranks of
    the names it spreads. *)
Theorem validate_terminates_without_cycles (fuel : nat)
    (schema : GraphQLSchema) (ast : Node) (rules : option (list Rule))
    (rank : string -> nat) (bound : nat) :
  ranked ast rank ->
  (forall s, In s (spreads ast) -> (rank s < bound)%nat) ->
  (depth ast * (bound + 1) < fuel)%nat ->
  exists errs,
    validate specified_rules fuel (SchemaInstance schema) (Some ast) rules
    = Ok errs.
Proof.
  intros Hranked Hbound Hfuel. unfold validate, visit_using_rules. simpl.
  destruct (rules_loop_ends ast rank bound fuel
              (match rules with Some rules => rules | None => specified_rules end)
              Hranked Hbound Hfuel (ValidationContext_init schema ast []) [])
    as [[c errs] ->]; [reflexivity|now left|].
  cbn [bind]. eauto.
Qed.

End Acyclic.

(** In [chain_document] the rank goes down along the spreads. *)
Lemma chain_document_ranked : ranked chain_document chain_rank.
Proof.
  intros name d Hd s Hin Hs. rewrite fragment_index_lookup in Hd.
  cbn [definitions children chain_document rev app map snd find] in Hd.
  unfold defines in Hd. cbn [isinstance class name_value fragment_A fragment_B
    query_A NodeClass_eqb andb] in Hd.
  destruct (String.eqb "B" name) eqn:EB.
  - injection Hd as <-. destruct Hin.
  - destruct (String.eqb "A" name) eqn:EA; [|discriminate].
    apply String.eqb_eq in EA as <-. injection Hd as <-.
    destruct Hin as [<-|[]]. vm_compute. lia.
Qed.

(** ** Termination when the inlining of the rules is bounded *)

Lemma walked_spreads_self (key : Key) (node : Node) :
  isinstance node FragmentSpread = true ->
  In (name_value node) (walked_spreads key node).
Proof.
  destruct node as [c v cs]. unfold isinstance. simpl. intros H.
  destruct c; try discriminate. simpl. now left.
Qed.

Lemma walked_spreads_child (key : Key) (node : Node) (k : Key) (c : Node)
    (s : string) :
  isinstance node FragmentDefinition && key_truthy key = false ->
  In (k, c) (children node) -> In s (walked_spreads k c) ->
  In s (walked_spreads key node).
Proof.
  destruct node as [cl v cs]. unfold isinstance. simpl. intros ->.
  intros Hin Hs. apply in_or_app. right.
  induction cs as [|[k' c'] cs IH]; [destruct Hin|].
  apply in_or_app. destruct Hin as [[= -> ->]|Hin]; [now left|right; auto].
Qed.

Lemma walked_spreads_below (key : Key) (node : Node) (s : string) :
  In s (walked_spreads key node) ->
  (isinstance node FragmentSpread = true /\ s = name_value node)
  \/ exists k c, In (k, c) (children node) /\ In s (walked_spreads k c).
Proof.
  destruct node as [cl v cs]. unfold isinstance. simpl.
  destruct (_ && _); [intros []|]. intros H. apply in_app_or in H as [H|H].
  - left. destruct (NodeClass_eqb cl FragmentSpread); [|destruct H].
    destruct H as [<-|[]]. auto.
  - right. induction cs as [|[k c] cs IH]; [destruct H|].
    apply in_app_or in H as [H|H].
    + exists k, c. split; [now left|exact H].
    + destruct (IH H) as (k' & c' & Hin & Hs). exists k', c'.
      split; [now right|exact Hs].
Qed.

Lemma walked_spreads_incl (key : Key) (node : Node) (s : string) :
  In s (walked_spreads key node) -> In s (spreads node).
Proof.
  remember (depth node) as d eqn:Hd.
  assert (Hle : (depth node <= d)%nat) by lia. clear Hd.
  revert key node Hle. induction d as [|d IH]; intros key node Hle H.
  - destruct node; simpl in Hle; lia.
  - apply walked_spreads_below in H as [(Hc & ->)|(k & c & Hin & Hs)].
    + now apply spreads_self.
    + eapply spreads_child; [exact Hin|]. apply (IH k); [|exact Hs].
      apply depth_child in Hin. lia.
Qed.

Section Bounded.
Context {GraphQLSchema RuleState : Type}.
Variable ast : Node.
Variable potential : RuleState -> string -> nat.
Variable live : string -> Prop.
Variable visitor : @ValidationVisitor GraphQLSchema RuleState.

Hypothesis inlines : visit_spread_fragments visitor = true.
Hypothesis enter_keeps :
  forall c rs n k p path anc s,
    (potential (snd (rule_enter (instance visitor) c rs n k p path anc)) s
     <= potential rs s)%nat.
Hypothesis leave_keeps :
  forall c rs n k p path anc s,
    (potential (snd (rule_leave (instance visitor) c rs n k p path anc)) s
     <= potential rs s)%nat.
Hypothesis continue_drops :
  forall c rs n k p path anc d,
    isinstance n FragmentSpread = true ->
    live (name_value n) ->
    fragment_index ast !! name_value n = Some d ->
    fst (rule_enter (instance visitor) c rs n k p path anc) = PyNone ->
    forall s,
      In s (walked_spreads NoKey d) ->
      is_Some (fragment_index ast !! s) ->
      live s
      /\ (potential (snd (rule_enter (instance visitor) c rs n k p path anc)) s
          < potential rs (name_value n))%nat.

Lemma lowered_refl (st : @State GraphQLSchema RuleState) : lowered potential st st.
Proof. intros s. lia. Qed.

Lemma lowered_trans (s1 s2 s3 : @State GraphQLSchema RuleState) :
  lowered potential s1 s2 -> lowered potential s2 s3 -> lowered potential s1 s3.
Proof. intros H1 H2 s. specialize (H1 s). specialize (H2 s). lia. Qed.

Lemma below_lowered (r : nat) (key : Key) (node : Node) (st st' : @State GraphQLSchema RuleState) :
  lowered potential st st' -> below ast potential live r key node st -> below ast potential live r key node st'.
Proof.
  intros Hl Hb s Hin Hs. destruct (Hb s Hin Hs) as (H1 & H2).
  split; [exact H1|]. specialize (Hl s). lia.
Qed.

Lemma walk_each_bounded (walk_child : Key -> Node -> State -> result State)
    (cs : list (Key * Node)) (st0 st : @State GraphQLSchema RuleState) :
  (forall k c s, In (k, c) cs -> of_document ast s -> lowered potential st0 s ->
                 exists s', walk_child k c s = Ok s' /\ lowered potential s s') ->
  (forall k c s s', walk_child k c s = Ok s' -> state_kept s s') ->
  of_document ast st -> lowered potential st0 st ->
  exists st', walk_each walk_child cs st = Ok st' /\ lowered potential st0 st'.
Proof.
  intros Hends Hkept. revert st.
  induction cs as [|[k c] cs IH]; intros st Hst Hlow; simpl; [eauto|].
  destruct (Hends k c st) as (s' & Hs' & Hlow'); [now left|exact Hst|exact Hlow|].
  rewrite Hs'. cbn [bind]. apply IH.
  - intros k' c' s Hin. apply Hends. now right.
  - eapply of_document_kept; eauto.
  - eapply lowered_trans; eauto.
Qed.

Lemma enter_bounded (r : nat)
    (visit : Node -> ValidationVisitor -> State -> result State)
    (node : Node) (key : Key) (parent : option Node) (path : list Key)
    (ancestors : list Node) (st : @State GraphQLSchema RuleState) :
  of_document ast st ->
  below ast potential live r key node st ->
  (forall d s r',
      fragment_index ast !! name_value node = Some d ->
      (r' < r)%nat ->
      of_document ast s ->
      below ast potential live r' NoKey d s ->
      exists s', visit d visitor s = Ok s' /\ lowered potential s s') ->
  exists res st',
    enter visit visitor node key parent path ancestors st = Ok (res, st')
    /\ lowered potential st st'
    /\ (is_False res = false ->
        isinstance node FragmentDefinition && key_truthy key = false).
Proof.
  intros Hst Hr Hvisit. unfold enter. rewrite inlines, andb_true_r.
  destruct (isinstance node FragmentDefinition && key_truthy key) eqn:Hskip.
  { do 2 eexists. split; [reflexivity|]. split; [exact (lowered_refl st)|].
    discriminate. }
  set (st0 := with_type_info (TypeInfo_enter node) st).
  assert (H0 : of_document ast st0) by exact Hst.
  pose proof (enter_keeps (context st0) (rule_state st0) node key parent path
                ancestors) as Hk.
  pose proof (continue_drops (context st0) (rule_state st0) node key parent
                path ancestors) as Hd.
  destruct (rule_enter _ _ _ _ _ _ _ _) as [result rs]. cbn [fst snd] in *.
  set (st1 := mkState _ _ rs).
  assert (H1 : of_document ast st1) by exact Hst.
  assert (L1 : lowered potential st st1) by exact Hk.
  destruct (truthy result && is_error result).
  { cbn [is_None andb bind is_False]. do 2 eexists.
    split; [reflexivity|]. split; [exact L1|discriminate]. }
  destruct (is_None result) eqn:E1; [|cbn [andb bind]].
  2:{ do 2 eexists. split; [reflexivity|]. split; [|auto].
      destruct (is_False result); exact L1. }
  destruct result; try discriminate. cbn [andb is_False].
  destruct (isinstance node FragmentSpread) eqn:E2; [|cbn [bind]].
  2:{ do 2 eexists. split; [reflexivity|]. split; [exact L1|auto]. }
  destruct (get_fragment_kept (context st1) (name_value node)) as (Hc & _ & Hg).
  destruct H1 as (Hast & Hvalid). specialize (Hg Hvalid).
  destruct (get_fragment _ _) as [fragment c]. cbn [fst snd] in *.
  rewrite Hast in Hg. subst fragment.
  destruct (fragment_index ast !! name_value node) as [d|] eqn:Hfd;
    [|cbn [bind]].
  2:{ do 2 eexists. split; [reflexivity|]. split; [exact L1|auto]. }
  destruct (Hr (name_value node)) as (Hlive & Hlt);
    [now apply walked_spreads_self|rewrite Hfd; eauto|].
  destruct (Hvisit d (mkState c (errors st1) (rule_state st1))
              (potential (rule_state st) (name_value node)) eq_refl Hlt)
    as (s' & -> & Hl').
  - destruct Hc as (_ & Ha & Hv & _). split; cbn [context]; [congruence|auto].
  - intros s Hin Hs. apply (Hd d); auto.
  - cbn [bind]. do 2 eexists. split; [reflexivity|].
    split; [|auto]. eapply lowered_trans; [exact L1|exact Hl'].
Qed.

Lemma leave_lowered (node : Node) (key : Key) (parent : option Node)
    (path : list Key) (ancestors : list Node) (st : @State GraphQLSchema RuleState) :
  lowered potential st (snd (leave visitor node key parent path ancestors st)).
Proof.
  unfold leave.
  pose proof (leave_keeps (context st) (rule_state st) node key parent path
                ancestors) as Hk.
  destruct (rule_leave _ _ _ _ _ _ _ _) as [result rs]. cbn [snd] in Hk.
  destruct (truthy result && is_error result); exact Hk.
Qed.

Lemma walk_bounded :
  forall (fuel : nat) (node : Node) (key : Key) (parent : option Node)
         (path : list Key) (ancestors : list Node) (st : @State GraphQLSchema RuleState) (r : nat),
    of_document ast st ->
    below ast potential live r key node st ->
    (depth node + r * depth ast < fuel)%nat ->
    exists st', walk fuel visitor node key parent path ancestors st = Ok st'
                /\ lowered potential st st'.
Proof.
  induction fuel as [|fuel IH];
    intros node key parent path ancestors st r Hst Hr Hfuel; [lia|].
  rewrite walk_unfold.
  assert (Hdepth : (0 < depth node)%nat) by (destruct node; simpl; lia).
  destruct (enter_bounded r
              (fun root v st => walk fuel v root NoKey None [] [] st)
              node key parent path ancestors st Hst Hr)
    as (res & st1 & He & L1 & Hskip).
  { intros d s r' Hd Hlt Hs Hb.
    (* the visit is by the same visitor *)
    apply (IH d NoKey None [] [] s r' Hs Hb).
    apply fragment_index_defined in Hd. nia. }
  rewrite He. cbn [bind].
  apply enter_kept in He as Hk; [|intros f v s s' H; eapply walk_kept; exact H].
  destruct (is_False res) eqn:Hres; [eauto|].
  specialize (Hskip eq_refl).
  destruct (walk_each_bounded
              (fun k c st => walk fuel visitor c k (Some node) (path ++ [k])
                               (ancestors ++ [node]) st)
              (children node) st st1) as (st2 & -> & L2).
  - intros k c s Hin Hs Hl. apply (IH _ _ _ _ _ _ r Hs).
    + apply (below_lowered r k c st s Hl).
      intros s' Hin' Hsome. apply Hr; [|exact Hsome].
      eapply walked_spreads_child; eauto.
    + apply depth_child in Hin. lia.
  - intros k c s s' H. eapply walk_kept; exact H.
  - eapply of_document_kept; eauto.
  - exact L1.
  - cbn [bind]. eexists. split; [reflexivity|].
    eapply lowered_trans; [exact L2|apply leave_lowered].
Qed.

End Bounded.

Section Termination.
Context {GraphQLSchema RuleState : Type}.
Variable specified_rules : list (@Rule GraphQLSchema RuleState).

Lemma rule_bounded_visit (fuel : nat) (ast : Node) (bound : nat)
    (rule : @Rule GraphQLSchema RuleState) (c : ValidationContext)
    (errs : list PyValue) :
  bounded_inlining ast bound rule ->
  (depth ast * (bound + 1) < fuel)%nat ->
  _ast c = ast -> cache_valid c ->
  exists st',
    visit fuel ast (ValidationVisitor_init (rule c))
      (mkState c errs (initial (rule c))) = Ok st'.
Proof.
  intros (potential & live & Hrule) Hfuel Hast Hvalid. unfold visit.
  destruct (visit_spread_fragments (ValidationVisitor_init (rule c))) eqn:Hvsf.
  - assert (Hattr : visit_spread_fragments_attr (rule c) = Some true).
    { unfold ValidationVisitor_init in Hvsf. cbn in Hvsf.
      destruct (visit_spread_fragments_attr (rule c)) as [[|]|];
        congruence. }
    destruct (Hrule c Hattr) as (He & Hl & Hroot & Hdrop).
    destruct (walk_bounded ast potential live (ValidationVisitor_init (rule c))
                Hvsf He Hl Hdrop fuel ast NoKey None [] []
                (mkState c errs (initial (rule c))) bound)
      as (st' & Hw & _); [now split|exact Hroot|lia|eauto].
  - apply walk_without_inlining; [exact Hvsf|nia].
Qed.

Lemma rules_loop_bounded (fuel : nat) (ast : Node) (bound : nat)
    (rules : list (@Rule GraphQLSchema RuleState)) :
  Forall (bounded_inlining ast bound) rules ->
  (depth ast * (bound + 1) < fuel)%nat ->
  forall (c : ValidationContext) (errs : list PyValue),
    _ast c = ast -> cache_valid c ->
    exists res, rules_loop fuel ast rules c errs = Ok res.
Proof.
  intros Hrules Hfuel.
  induction Hrules as [|rule rules Hrule _ IH]; intros c errs Hast Hvalid;
    simpl; [eauto|].
  destruct (rule_bounded_visit fuel ast bound rule c errs Hrule Hfuel Hast
              Hvalid) as [st' Hv].
  rewrite Hv. cbn [bind]. unfold visit in Hv.
  apply walk_kept in Hv as ((_ & Ha & Hc & _) & _). cbn [context] in *.
  apply IH; [congruence|auto].
Qed.

Lemma bounded_without_inlining (ast : Node) (bound : nat)
    (rule : @Rule GraphQLSchema RuleState) :
  ~ inlines_spreads rule -> bounded_inlining ast bound rule.
Proof.
  intros Hrule. exists (fun _ _ => 0), (fun _ => True). intros c Hc.
  exfalso. apply Hrule. now exists c.
Qed.

Lemma bounded_without_cycles (ast : Node) (rank : string -> nat) (bound : nat)
    (rule : @Rule GraphQLSchema RuleState) :
  ranked ast rank ->
  (forall s, In s (spreads ast) -> (rank s < bound)%nat) ->
  bounded_inlining ast bound rule.
Proof.
  intros Hranked Hbound. exists (fun _ s => rank s), (fun _ => True).
  intros c _. split; [intros; lia|]. split; [intros; lia|]. split.
  - intros s Hin _. split; [exact I|].
    apply Hbound. eapply walked_spreads_incl; eauto.
  - intros c' rs n k p path anc d _ _ Hd _ s Hin Hs. split; [exact I|].
    eapply Hranked; [exact Hd| |exact Hs]. eapply walked_spreads_incl; eauto.
Qed.

(** C1 (as amended).  For every document, with or without a fragment
    that spreads itself, [validate] returns an error list for every rule
    set in which the inlining of each rule is bounded on the document,
    as soon as the nesting of calls may exceed the depth of the document
    times one more than the bound.  A rule that does not inline spreads
    is bounded on every document, whatever the bound; and every rule is
    bounded on a document whose fragments have no cycle. *)
Theorem validate_terminates_when_inlining_is_bounded :
  (forall (fuel : nat) (schema : GraphQLSchema) (ast : Node)
          (rules : option (list Rule)) (bound : nat),
      Forall (bounded_inlining ast bound)
        (match rules with Some rules => rules | None => specified_rules end) ->
      (depth ast * (bound + 1) < fuel)%nat ->
      exists errors,
        validate specified_rules fuel (SchemaInstance schema) (Some ast) rules
        = Ok errors)
  /\ (forall (ast : Node) (bound : nat) (rule : @Rule GraphQLSchema RuleState),
         ~ inlines_spreads rule -> bounded_inlining ast bound rule)
  /\ (forall (ast : Node) (rank : string -> nat) (bound : nat)
             (rule : @Rule GraphQLSchema RuleState),
         ranked ast rank ->
         (forall s, In s (spreads ast) -> (rank s < bound)%nat) ->
         bounded_inlining ast bound rule).
Proof.
  split; [|split].
  - intros fuel schema ast rules bound Hrules Hfuel.
    unfold validate, visit_using_rules. simpl.
    destruct (rules_loop_bounded fuel ast bound _ Hrules Hfuel
                (ValidationContext_init schema ast []) [])
      as [[c errors] ->]; [reflexivity|now left|].
    cbn [bind]. eauto.
  - exact bounded_without_inlining.
  - exact bounded_without_cycles.
Qed.

End Termination.

(** ** A rule that guards its inlining *)

Lemma unseen_le (seen names : list string) : (unseen seen names <= length names)%nat.
Proof.
  induction names as [|n names IH]; simpl; [lia|].
  destruct (existsb _ _); lia.
Qed.

Lemma unseen_cons_le (x : string) (seen names : list string) :
  (unseen (x :: seen) names <= unseen seen names)%nat.
Proof.
  induction names as [|n names IH]; simpl; [lia|].
  destruct (String.eqb n x); simpl; destruct (existsb _ _); lia.
Qed.

Lemma unseen_cons_lt (x : string) (seen names : list string) :
  In x names -> existsb (String.eqb x) seen = false ->
  (unseen (x :: seen) names < unseen seen names)%nat.
Proof.
  intros Hin Hx. induction names as [|n names IH]; [destruct Hin|].
  simpl. pose proof (unseen_cons_le x seen names) as Hle.
  destruct Hin as [->|Hin].
  - rewrite String.eqb_refl, Hx. simpl. lia.
  - specialize (IH Hin).
    destruct (String.eqb n x); simpl; destruct (existsb _ _); lia.
Qed.

Lemma fragment_index_name (ast : Node) (name : string) (d : Node) :
  fragment_index ast !! name = Some d -> In name (fragment_names ast).
Proof.
  rewrite fragment_index_lookup. intros H.
  apply find_some in H as (Hin & Hdef). apply in_rev in Hin.
  unfold defines in Hdef. apply andb_true_iff in Hdef as (H1 & H2).
  apply String.eqb_eq in H2 as <-. unfold fragment_names.
  apply in_map. apply filter_In. auto.
Qed.

Lemma seen_rule_bounded (ast : Node) :
  bounded_inlining ast (S (length (fragment_names ast))) seen_rule.
Proof.
  exists (fun seen _ => unseen seen (fragment_names ast)), (fun _ => True).
  intros c _. cbn [seen_rule rule_enter rule_leave initial].
  split; [|split; [|split]].
  - intros c' rs n k p path anc s. unfold seen_enter.
    destruct (isinstance n FragmentSpread); [|cbn; lia].
    destruct (existsb _ _); cbn; [lia|apply unseen_cons_le].
  - intros. cbn. lia.
  - intros s _ _. split; [exact I|]. pose proof (unseen_le [] (fragment_names ast)). lia.
  - intros c' rs n k p path anc d Hn _ Hd. unfold seen_enter. rewrite Hn.
    destruct (existsb _ _) eqn:Hseen; [discriminate|].
    intros _ s _ _. split; [exact I|]. cbn [snd].
    apply unseen_cons_lt; [|exact Hseen]. eapply fragment_index_name; eauto.
Qed.

(** In [unreached_document] the traversal of a rule that inlines
    spreads comes to no spread. *)
Lemma inlining_rule_bounded_unreached :
  bounded_inlining unreached_document 0 inlining_rule.
Proof.
  exists (fun _ _ => 0), (fun _ => False). intros c _.
  split; [intros; lia|]. split; [intros; lia|]. split.
  - intros s [].
  - intros c' rs n k p path anc d _ [].
Qed.

Lemma validate_terminates_when_inlining_is_bounded_witness :
  (Forall (bounded_inlining cyclic_document 2) [seen_rule]
   /\ (depth cyclic_document * (2 + 1) < 13)%nat
   /\ exists errors,
        validate [] 13 (SchemaInstance tt) (Some cyclic_document)
          (Some [seen_rule]) = Ok errors)
  /\ (Forall (bounded_inlining unreached_document 0) [inlining_rule]
      /\ (depth unreached_document * (0 + 1) < 5)%nat
      /\ exists errors,
           validate [] 5 (SchemaInstance tt) (Some unreached_document)
             (Some [inlining_rule]) = Ok errors)
  /\ (~ inlines_spreads plain_rule
      /\ (depth cyclic_document * (0 + 1) < 5)%nat
      /\ exists errors,
           validate [] 5 (SchemaInstance tt) (Some cyclic_document)
             (Some [plain_rule]) = Ok errors)
  /\ (ranked chain_document chain_rank
      /\ (forall s, In s (spreads chain_document) -> (chain_rank s < 2)%nat)
      /\ (depth chain_document * (2 + 1) < 13)%nat
      /\ exists errors,
           validate [] 13 (SchemaInstance tt) (Some chain_document)
             (Some [inlining_rule]) = Ok errors).
Proof.
  assert (Hseen : Forall (bounded_inlining cyclic_document 2) [seen_rule]).
  { constructor; [|constructor]. exact (seen_rule_bounded cyclic_document). }
  assert (Hfuel : (depth cyclic_document * (2 + 1) < 13)%nat)
    by (vm_compute; lia).
  assert (Hrule : Forall (bounded_inlining unreached_document 0)
                    [inlining_rule]).
  { constructor; [|constructor]. exact inlining_rule_bounded_unreached. }
  assert (Hfuel' : (depth unreached_document * (0 + 1) < 5)%nat)
    by (vm_compute; lia).
  assert (Hplain : ~ inlines_spreads plain_rule)
    by (intros [c H]; discriminate H).
  assert (Hfuel'' : (depth cyclic_document * (0 + 1) < 5)%nat)
    by (vm_compute; lia).
  assert (Hrank : forall s, In s (spreads chain_document) ->
                            (chain_rank s < 2)%nat).
  { intros s [<-|[<-|[]]]; vm_compute; lia. }
  assert (Hchain : (depth chain_document * (2 + 1) < 13)%nat)
    by (vm_compute; lia).
  split; [|split; [|split]].
  - split; [exact Hseen|]. split; [exact Hfuel|].
    exact (proj1 (validate_terminates_when_inlining_is_bounded [])
             13 tt cyclic_document (Some [seen_rule]) 2 Hseen Hfuel).
  - split; [exact Hrule|]. split; [exact Hfuel'|].
    exact (proj1 (validate_terminates_when_inlining_is_bounded [])
             5 tt unreached_document (Some [inlining_rule]) 0 Hrule Hfuel').
  - split; [exact Hplain|]. split; [exact Hfuel''|].
    apply (proj1 (validate_terminates_when_inlining_is_bounded [])
             5 tt cyclic_document (Some [plain_rule]) 0); [|exact Hfuel''].
    constructor; [|constructor].
    exact (proj1 (proj2 (validate_terminates_when_inlining_is_bounded []))
             cyclic_document 0 plain_rule Hplain).
  - split; [exact chain_document_ranked|]. split; [exact Hrank|].
    split; [exact Hchain|].
    apply (proj1 (validate_terminates_when_inlining_is_bounded [])
             13 tt chain_document (Some [inlining_rule]) 2); [|exact Hchain].
    constructor; [|constructor].
    exact (proj2 (proj2 (validate_terminates_when_inlining_is_bounded []))
             chain_document chain_rank 2 inlining_rule chain_document_ranked
             Hrank).
Defined.

(** ** The further properties at concrete inputs *)

Lemma get_fragment_finds_defined_names_witness :
  cache_valid (ValidationContext_init tt duplicate_document [])
  /\ fst (get_fragment (ValidationContext_init tt duplicate_document []) "H")
     = Some (fragment_H "b")
  /\ In (fragment_H "b") (definitions duplicate_document)
  /\ isinstance (fragment_H "b") FragmentDefinition = true
  /\ name_value (fragment_H "b") = "H".
Proof.
  split; [left; reflexivity|]. split; [reflexivity|].
  apply (proj2 (get_fragment_finds_defined_names
                  (ValidationContext_init tt duplicate_document []) "H"
                  (or_introl eq_refl)) (fragment_H "b")).
  reflexivity.
Defined.

Lemma visit_type_info_stack_witness :
  returns_outcomes (instance inlining_visitor)
  /\ visit 10 plain_document inlining_visitor
       (mkState (ValidationContext_init tt plain_document []) [] tt)
     = Ok (mkState
             (mkValidationContext tt plain_document [plain_document] None 0)
             [] tt)
  /\ (exists pushed, [plain_document] = pushed ++ [])
  /\ returns_outcomes
       (instance
          (ValidationVisitor_init
             (plain_rule (ValidationContext_init tt plain_document []))))
  /\ visit 10 plain_document
       (ValidationVisitor_init
          (plain_rule (ValidationContext_init tt plain_document [])))
       (mkState (ValidationContext_init tt plain_document []) [] tt)
     = Ok (mkState (ValidationContext_init tt plain_document []) [] tt)
  /\ type_info_of (mkState (ValidationContext_init tt plain_document []) [] tt)
     = type_info_of
         (mkState (ValidationContext_init tt plain_document []) [] tt).
Proof.
  assert (H1 : returns_outcomes (instance inlining_visitor))
    by (intros c rs n k p path anc; split; reflexivity).
  assert (H2 : returns_outcomes
                 (instance
                    (ValidationVisitor_init
                       (plain_rule
                          (ValidationContext_init tt plain_document [])))))
    by (intros c rs n k p path anc; split; reflexivity).
  split; [exact H1|]. split; [reflexivity|]. split.
  - apply (proj1 (visit_type_info_stack 10 plain_document inlining_visitor
                    (mkState (ValidationContext_init tt plain_document []) [] tt)
                    (mkState (mkValidationContext tt plain_document
                                [plain_document] None 0) [] tt)
                    H1 eq_refl)).
  - split; [exact H2|]. split; [reflexivity|].
    apply (proj2 (visit_type_info_stack 10 plain_document
                    (ValidationVisitor_init
                       (plain_rule (ValidationContext_init tt plain_document [])))
                    (mkState (ValidationContext_init tt plain_document []) [] tt)
                    (mkState (ValidationContext_init tt plain_document []) [] tt)
                    H2 eq_refl)).
    reflexivity.
Defined.

Lemma visit_keeps_context_and_errors_witness :
  visit 13 chain_document
    (ValidationVisitor_init
       (reporting_rule (ValidationContext_init tt chain_document [])))
    (mkState (ValidationContext_init tt chain_document []) [] tt)
  = Ok (mkState
          (mkValidationContext tt chain_document [fragment_A; chain_document]
             (Some (fragment_index chain_document)) 1)
          [PyError (mkGraphQLError "x" [mkNode Field "x" []])] tt)
  /\ context_kept (ValidationContext_init tt chain_document [])
       (mkValidationContext tt chain_document [fragment_A; chain_document]
          (Some (fragment_index chain_document)) 1)
  /\ errors_extended [] [PyError (mkGraphQLError "x" [mkNode Field "x" []])].
Proof.
  split; [vm_compute; reflexivity|].
  apply (visit_keeps_context_and_errors 13 chain_document
           (ValidationVisitor_init
              (reporting_rule (ValidationContext_init tt chain_document [])))
           (mkState (ValidationContext_init tt chain_document []) [] tt)
           (mkState
              (mkValidationContext tt chain_document
                 [fragment_A; chain_document]
                 (Some (fragment_index chain_document)) 1)
              [PyError (mkGraphQLError "x" [mkNode Field "x" []])] tt)).
  vm_compute. reflexivity.
Defined.

Lemma validate_returns_errors_only_witness :
  validate [] 13 (SchemaInstance tt) (Some chain_document)
    (Some [reporting_rule])
  = Ok [PyError (mkGraphQLError "x" [mkNode Field "x" []])]
  /\ forallb is_GraphQLError [PyError (mkGraphQLError "x" [mkNode Field "x" []])]
     = true.
Proof.
  split; [vm_compute; reflexivity|].
  apply (validate_returns_errors_only [] 13 (SchemaInstance tt)
           (Some chain_document) (Some [reporting_rule])).
  vm_compute. reflexivity.
Defined.

Lemma validate_errors_in_rule_order_witness :
  validate [] 13 (SchemaInstance tt) (Some chain_document)
    (Some ([reporting_rule] ++ [plain_rule; reporting_rule]))
  = Ok [PyError (mkGraphQLError "x" [mkNode Field "x" []]);
        PyError (mkGraphQLError "x" [mkNode Field "x" []])]
  /\ exists errs1 more,
       validate [] 13 (SchemaInstance tt) (Some chain_document)
         (Some [reporting_rule]) = Ok errs1
       /\ [PyError (mkGraphQLError "x" [mkNode Field "x" []]);
           PyError (mkGraphQLError "x" [mkNode Field "x" []])]
          = errs1 ++ more.
Proof.
  split; [vm_compute; reflexivity|].
  apply (validate_errors_in_rule_order [] 13 (SchemaInstance tt)
           (Some chain_document) [reporting_rule] [plain_rule; reporting_rule]).
  vm_compute. reflexivity.
Defined.

Lemma validate_terminates_without_cycles_witness :
  ranked chain_document chain_rank
  /\ (forall s, In s (spreads chain_document) -> chain_rank s < 2)
  /\ depth chain_document * (2 + 1) < 13
  /\ exists errs,
       validate [] 13 (SchemaInstance tt) (Some chain_document)
         (Some [inlining_rule]) = Ok errs.
Proof.
  assert (Hbound : forall s, In s (spreads chain_document) -> chain_rank s < 2).
  { intros s [<-|[<-|[]]]; vm_compute; lia. }
  assert (Hfuel : depth chain_document * (2 + 1) < 13) by (vm_compute; lia).
  split; [exact chain_document_ranked|]. split; [exact Hbound|].
  split; [exact Hfuel|].
  exact (validate_terminates_without_cycles [] 13 tt chain_document
           (Some [inlining_rule]) chain_rank 2 chain_document_ranked Hbound
           Hfuel).
Defined.

End ValidationTheory.
